(** * ion-sfu media routing core: packet bucket, NACK queue, TWCC responder,
      session registry, RTCP readers and their factory, VP8 descriptor
      parser and H.264 key-frame detection.

    Shallow embedding of the Go sources
      pkg/buffer/bucket.go, pkg/buffer/errors.go, pkg/buffer/nack.go,
      pkg/buffer/helpers.go, pkg/buffer/rtcpreader.go, pkg/buffer/factory.go,
      pkg/twcc/twcc.go and pkg/sfu/sfu.go,
    followed by the properties proved of them. The first part holds the
    definitions, one module per source file; the second part, "Properties",
    holds the lemmas, one module per module of the first part.

    Conventions.
    - A Go [uintN] is a [Z] kept in range by an explicit [wrap]; [int] and
      [int64] values that cannot overflow on the modelled paths are plain [Z].
    - A [[]byte] is a [list Z] of values in [0, 256).  A nil slice is
      distinguished from an empty one with [option] where the code tests it.
    - An index or slice expression outside its bounds panics in Go; the model
      makes that outcome explicit ([Crash], [Panic]) instead of hiding it
      behind a default value.
    - A function with early [return]s is written in the [flow] monad:
      [Cont] carries on, [Ret] leaves the function. *)

From Stdlib Require Import ZArith List Bool Lia Sorted.
From stdpp Require Import gmap strings list fin_maps.
Import ListNotations.
Local Open Scope Z_scope.

(** ** Go-level primitives *)

Module Go.

(** Outcome of a block of Go statements inside a function returning [R]. *)
Inductive flow (R A : Type) : Type :=
| Cont (a : A)
| Ret (r : R)
| Crash.
Arguments Cont {R A} a.
Arguments Ret {R A} r.
Arguments Crash {R A}.

Definition bind {R A B} (m : flow R A) (k : A -> flow R B) : flow R B :=
  match m with
  | Cont a => k a
  | Ret r => Ret r
  | Crash => Crash
  end.

(** Outcome of a whole call: a value or a run-time panic. *)
Inductive result (R : Type) : Type :=
| Ok (r : R)
| Panic.
Arguments Ok {R} r.
Arguments Panic {R}.

Definition run {R} (m : flow R R) : result R :=
  match m with
  | Cont r => Ok r
  | Ret r => Ok r
  | Crash => Panic
  end.

Definition wrap (bits : Z) (x : Z) : Z := x mod 2 ^ bits.
Definition u8 : Z -> Z := wrap 8.
Definition u16 : Z -> Z := wrap 16.
Definition u32 : Z -> Z := wrap 32.

(** Two's-complement reading of the low [bits] bits, as [int16(x)] does. *)
Definition swrap (bits : Z) (x : Z) : Z :=
  let m := x mod 2 ^ bits in
  if m <? 2 ^ (bits - 1) then m else m - 2 ^ bits.

Definition len {A} (l : list A) : Z := Z.of_nat (length l).

(** [s[i]]: panics when [i] is out of range. *)
Definition index {R} (s : list Z) (i : Z) : flow R Z :=
  if (0 <=? i) && (i <? len s)
  then match nth_error s (Z.to_nat i) with
       | Some b => Cont b
       | None => Crash
       end
  else Crash.

(** [s[lo:hi]] on a slice whose capacity equals its length. *)
Definition slice {R} (s : list Z) (lo hi : Z) : flow R (list Z) :=
  if (0 <=? lo) && (lo <=? hi) && (hi <=? len s)
  then Cont (firstn (Z.to_nat (hi - lo)) (skipn (Z.to_nat lo) s))
  else Crash.

(** [copy(dst[off:], src)]: overwrites [min(len(dst)-off, len(src))] bytes;
    panics when [off] is not a valid slice bound of [dst]. *)
Definition copy_at {R} (dst : list Z) (off : Z) (src : list Z) : flow R (list Z) :=
  if (0 <=? off) && (off <=? len dst)
  then let room := Z.to_nat (len dst - off) in
       let n := Nat.min room (length src) in
       Cont (firstn (Z.to_nat off) dst ++ firstn n src
               ++ skipn (Z.to_nat off + n) dst)
  else Crash.

(** [binary.BigEndian.Uint16(s[off:off+2])]. *)
Definition be_uint16 {R} (s : list Z) (off : Z) : flow R Z :=
  bind (slice s off (off + 2)) (fun w =>
    match w with
    | [hi; lo] => Cont (hi * 256 + lo)
    | _ => Crash
    end).

(** [binary.BigEndian.PutUint16(s[off:], v)]: needs two bytes of room. *)
Definition be_put_uint16 {R} (s : list Z) (off : Z) (v : Z) : flow R (list Z) :=
  if (0 <=? off) && (off + 2 <=? len s)
  then copy_at s off [u8 (Z.shiftr v 8); u8 v]
  else Crash.

(** [binary.BigEndian.PutUint32(s[off:], v)]. *)
Definition be_put_uint32 {R} (s : list Z) (off : Z) (v : Z) : flow R (list Z) :=
  if (0 <=? off) && (off + 4 <=? len s)
  then copy_at s off [u8 (Z.shiftr v 24); u8 (Z.shiftr v 16);
                      u8 (Z.shiftr v 8); u8 v]
  else Crash.

End Go.

Import Go.

Declare Scope flow_scope.
Delimit Scope flow_scope with flow.
Notation "x <- m ;; k" := (bind m (fun x => k))
  (at level 100, m at next level, right associativity) : flow_scope.
Notation "'when' c 'ret' r ;; k" := (if c then Ret r else k)
  (at level 100, c at next level, r at next level, right associativity) : flow_scope.
Local Open Scope flow_scope.

(** Errors of package [buffer] (errors.go, helpers.go). *)
Inductive error : Set :=
| errPacketNotFound
| errBufferTooSmall
| errPacketTooOld
| errRTXPacket
| errShortPacket
| errNilPacket.

(** ** VP8 payload descriptor (helpers.go) *)

Module Vp8.

Record VP8 : Set := mkVP8 {
  TemporalSupported : bool;
  PictureID : Z;
  PicIDIdx : Z;
  MBit : bool;
  TL0PICIDX : Z;
  TlzIdx : Z;
  TID : Z;
  IsKeyFrame : bool
}.

Definition set_TemporalSupported v p :=
  mkVP8 v (PictureID p) (PicIDIdx p) (MBit p) (TL0PICIDX p) (TlzIdx p) (TID p) (IsKeyFrame p).
Definition set_PictureID v p :=
  mkVP8 (TemporalSupported p) v (PicIDIdx p) (MBit p) (TL0PICIDX p) (TlzIdx p) (TID p) (IsKeyFrame p).
Definition set_PicIDIdx v p :=
  mkVP8 (TemporalSupported p) (PictureID p) v (MBit p) (TL0PICIDX p) (TlzIdx p) (TID p) (IsKeyFrame p).
Definition set_MBit v p :=
  mkVP8 (TemporalSupported p) (PictureID p) (PicIDIdx p) v (TL0PICIDX p) (TlzIdx p) (TID p) (IsKeyFrame p).
Definition set_TL0PICIDX v p :=
  mkVP8 (TemporalSupported p) (PictureID p) (PicIDIdx p) (MBit p) v (TlzIdx p) (TID p) (IsKeyFrame p).
Definition set_TlzIdx v p :=
  mkVP8 (TemporalSupported p) (PictureID p) (PicIDIdx p) (MBit p) (TL0PICIDX p) v (TID p) (IsKeyFrame p).
Definition set_TID v p :=
  mkVP8 (TemporalSupported p) (PictureID p) (PicIDIdx p) (MBit p) (TL0PICIDX p) (TlzIdx p) v (IsKeyFrame p).
Definition set_IsKeyFrame v p :=
  mkVP8 (TemporalSupported p) (PictureID p) (PicIDIdx p) (MBit p) (TL0PICIDX p) (TlzIdx p) (TID p) v.

(** What [Unmarshal] hands back: the receiver after the call and the
    returned [error] ([None] is Go's [nil]). *)
Definition outcome : Set := (VP8 * option error)%type.

Definition bit (b mask : Z) : bool := 0 <? Z.land b mask.

(** The [if payload[idx]&0x80 > 0 { ... }] block reading the PictureID. *)
Definition readPictureID (payload : list Z) (payloadLen : Z) (p : VP8) (idx : Z)
  : flow outcome (VP8 * Z) :=
  b <- index payload idx ;;
  if bit b 0x80 then
    let idx := idx + 1 in
    when payloadLen <? idx + 1 ret (p, Some errShortPacket) ;;
    let p := set_PicIDIdx idx p in
    b <- index payload idx ;;
    let pid := Z.land b 0x7f in
    b <- index payload idx ;;
    if bit b 0x80 then
      let idx := idx + 1 in
      when payloadLen <? idx + 1 ret (p, Some errShortPacket) ;;
      let p := set_MBit true p in
      b <- index payload idx ;;
      Cont (set_PictureID (pid * 256 + b) p, idx)
    else
      Cont (set_PictureID pid p, idx)
  else Cont (p, idx).

(** The [if L { ... }] block reading TL0PICIDX. *)
Definition readTL0PICIDX (payload : list Z) (payloadLen : Z) (L : bool) (p : VP8) (idx : Z)
  : flow outcome (VP8 * Z) :=
  if L then
    let idx := idx + 1 in
    when payloadLen <? idx + 1 ret (p, Some errShortPacket) ;;
    let p := set_TlzIdx idx p in
    when payloadLen <=? idx ret (p, Some errShortPacket) ;;
    b <- index payload idx ;;
    Cont (set_TL0PICIDX b p, idx)
  else Cont (p, idx).

(** The [if p.TemporalSupported || K { ... }] block reading the TID. *)
Definition readTID (payload : list Z) (payloadLen : Z) (K : bool) (p : VP8) (idx : Z)
  : flow outcome (VP8 * Z) :=
  if TemporalSupported p || K then
    let idx := idx + 1 in
    when payloadLen <? idx + 1 ret (p, Some errShortPacket) ;;
    b <- index payload idx ;;
    Cont (set_TID (Z.shiftr (Z.land b 0xc0) 6) p, idx)
  else Cont (p, idx).

Definition UnmarshalBody (p : VP8) (payload : list Z) : flow outcome outcome :=
  let payloadLen := len payload in
  when payloadLen <? 1 ret (p, Some errShortPacket) ;;
  let idx := 0 in
  b <- index payload idx ;;
  let S := bit b 0x10 in
  b <- index payload idx ;;
  if bit b 0x80 then
    let idx := idx + 1 in
    when payloadLen <? idx + 1 ret (p, Some errShortPacket) ;;
    b <- index payload idx ;;
    let p := set_TemporalSupported (bit b 0x20) p in
    K <- (b <- index payload idx ;; Cont (bit b 0x10)) ;;
    L <- (b <- index payload idx ;; Cont (bit b 0x40)) ;;
    st <- readPictureID payload payloadLen p idx ;;
    st <- readTL0PICIDX payload payloadLen L (fst st) (snd st) ;;
    st <- readTID payload payloadLen K (fst st) (snd st) ;;
    let p := fst st in
    let idx := snd st in
    when payloadLen <=? idx ret (p, Some errShortPacket) ;;
    let idx := idx + 1 in
    when payloadLen <? idx + 1 ret (p, Some errShortPacket) ;;
    b <- index payload idx ;;
    Cont (set_IsKeyFrame ((Z.land b 0x01 =? 0) && S) p, None)
  else
    let idx := idx + 1 in
    when payloadLen <? idx + 1 ret (p, Some errShortPacket) ;;
    b <- index payload idx ;;
    Cont (set_IsKeyFrame ((Z.land b 0x01 =? 0) && S) p, None).

(** [func (p *VP8) Unmarshal(payload []byte) error]; [None] is a nil slice. *)
Definition Unmarshal (p : VP8) (payload : option (list Z)) : result outcome :=
  match payload with
  | None => Ok (p, Some errNilPacket)
  | Some bytes => run (UnmarshalBody p bytes)
  end.

(** A block that was entered with [idx] in bounds either leaves the
    function with one of the declared errors or carries on with an index
    that is still in bounds; it never crashes. *)
Definition errs (e : option error) : Prop :=
  e = None \/ e = Some errNilPacket \/ e = Some errShortPacket.

Definition block_ok (payload : list Z) (m : flow outcome (VP8 * Z)) : Prop :=
  match m with
  | Cont st => 0 <= snd st < len payload
  | Ret r => snd r = Some errShortPacket
  | Crash => False
  end.

(** *** The payload descriptor

    The descriptor as the comment above [VP8] draws it: the first byte, the
    extension byte when X is set, then the optional PictureID (one byte, two
    with M), TL0PICIDX and TID/KEYIDX bytes. *)
Definition hasX (payload : list Z) : bool := bit (nth 0 payload 0) 0x80.
Definition hasI (payload : list Z) : bool := bit (nth 1 payload 0) 0x80.
Definition hasL (payload : list Z) : bool := bit (nth 1 payload 0) 0x40.
Definition hasT (payload : list Z) : bool := bit (nth 1 payload 0) 0x20.
Definition hasK (payload : list Z) : bool := bit (nth 1 payload 0) 0x10.
Definition hasM (payload : list Z) : bool := bit (nth 2 payload 0) 0x80.

(** Bytes taken by the PictureID. *)
Definition pidLen (payload : list Z) : Z :=
  if hasI payload then (if hasM payload then 2 else 1) else 0.

(** Index of the TL0PICIDX byte and of the TID byte, when present. *)
Definition tl0Index (payload : list Z) : Z := 2 + pidLen payload.
Definition tidIndex (payload : list Z) : Z :=
  2 + pidLen payload + (if hasL payload then 1 else 0).

(** Length of the descriptor: the index of the first byte of the VP8
    payload header. *)
Definition descriptorLen (payload : list Z) : Z :=
  if hasX payload
  then tidIndex payload + (if hasT payload || hasK payload then 1 else 0)
  else 1.

(** What [Unmarshal] leaves in the fields of [p'] for a payload that is
    longer than its descriptor: the key-frame flag from the first byte after
    the descriptor (frame start, P bit clear), and every optional field the
    descriptor holds, read from its place. *)
Definition populated (payload : list Z) (p' : VP8) : Prop :=
  IsKeyFrame p'
  = (Z.land (nth (Z.to_nat (descriptorLen payload)) payload 0) 0x01 =? 0)
    && bit (nth 0 payload 0) 0x10
  /\ (hasX payload = true ->
      TemporalSupported p' = hasT payload
      /\ (hasI payload = true ->
          PicIDIdx p' = 2
          /\ PictureID p'
             = (if hasM payload
                then Z.land (nth 2 payload 0) 0x7f * 256 + nth 3 payload 0
                else Z.land (nth 2 payload 0) 0x7f)
          /\ (hasM payload = true -> MBit p' = true))
      /\ (hasL payload = true ->
          TlzIdx p' = tl0Index payload
          /\ TL0PICIDX p' = nth (Z.to_nat (tl0Index payload)) payload 0)
      /\ (hasT payload || hasK payload = true ->
          TID p' = Z.shiftr (Z.land (nth (Z.to_nat (tidIndex payload)) payload 0) 0xc0) 6)).

End Vp8.

(** ** H.264 key-frame detection (helpers.go) *)

Module H264.

(** The loop over the units of an aggregation packet; [i] is the read
    position.  Every turn that carries on moves [i] by at least three bytes,
    so [len(payload)] turns are more than the loop ever takes: running out
    of turns is unreachable and modelled as a crash. *)
Fixpoint scanUnits (turns : nat) (nalu : Z) (payload : list Z) (i : Z)
  : flow bool bool :=
  match turns with
  | O => Crash
  | S turns' =>
      if i <? len payload then
        when len payload <? i + 2 ret false ;;
        hi <- index payload i ;;
        lo <- index payload (i + 1) ;;
        let length := Z.lor (u16 (Z.shiftl hi 8)) lo in
        let i := i + 2 in
        when len payload <? i + length ret false ;;
        let offset := if nalu =? 26 then 3 else if nalu =? 27 then 4 else 0 in
        when length <=? offset ret false ;;
        b <- index payload (i + offset) ;;
        let n := Z.land b 0x1F in
        when n =? 7 ret true ;;
        scanUnits turns' nalu payload (i + length)
      else Cont false
  end.

(** [isH264Keyframe(payload)]. *)
Definition isH264Keyframe (payload : list Z) : result bool :=
  run (
    when len payload <? 1 ret false ;;
    b0 <- index payload 0 ;;
    let nalu := Z.land b0 0x1F in
    if nalu =? 0 then Ret false
    else if nalu <=? 23 then Ret (nalu =? 5)
    else if (nalu =? 24) || (nalu =? 25) || (nalu =? 26) || (nalu =? 27) then
      let i := if (nalu =? 25) || (nalu =? 26) || (nalu =? 27) then 1 + 2 else 1 in
      scanUnits (S (length payload)) nalu payload i
    else if (nalu =? 28) || (nalu =? 29) then
      when len payload <? 2 ret false ;;
      b1 <- index payload 1 ;;
      when Z.land b1 0x80 =? 0 ret false ;;
      Ret (Z.land b1 0x1F =? 7)
    else Ret false).

(** A single-time aggregation packet (STAP-A): the type byte, then every
    unit behind its 16-bit length. *)
Definition stapA (header : Z) (units : list (list Z)) : list Z :=
  header :: concat (map (fun u => [len u / 256; len u mod 256] ++ u) units).

(** The NAL unit type of a unit: the low five bits of its first byte. *)
Definition unitType (u : list Z) : Z := Z.land (nth 0 u 0) 0x1F.

Definition bytes (l : list Z) : Prop := Forall (fun b => 0 <= b < 256) l.

End H264.

(** ** NACK queue (nack.go) *)

Module Nack.

Definition maxNackTimes : Z := 3.
Definition maxNackCache : Z := 100.

Record nack : Set := mkNack { sn : Z; nacked : Z }.

Record nackQueue : Set := mkQueue { nacks : list nack; kfSN : Z }.

(** [rtcp.NackPair]: a base sequence number and the bitmap of the sixteen
    that follow it. *)
Record NackPair : Set := mkPair { PacketID : Z; LostPackets : Z }.

Definition newNACKQueue : nackQueue := mkQueue [] 0.

(** [sort.Search(n, f)]: the binary search of Go's standard library.  The
    interval [j - i] at least halves on every turn, so [n + 1] turns are
    more than the loop ever takes. *)
Fixpoint searchLoop (turns : nat) (f : Z -> bool) (i j : Z) : Z :=
  match turns with
  | O => i
  | S turns' =>
      if i <? j then
        let h := Z.shiftr (i + j) 1 in
        if negb (f h) then searchLoop turns' f (h + 1) j
        else searchLoop turns' f i h
      else i
  end.

Definition Search (n : Z) (f : Z -> bool) : Z :=
  searchLoop (S (Z.to_nat n)) f 0 n.

(** [n.nacks[i].sn]; the search only asks for indices inside the slice. *)
Definition snAt (l : list nack) (i : Z) : Z :=
  sn (nth (Z.to_nat i) l (mkNack 0 0)).

Definition find (l : list nack) (extSN : Z) : Z :=
  Search (len l) (fun i => extSN <=? snAt l i).

(** [copy(dst, src)] on slices of one array: the first
    [min(len(dst), len(src))] elements of [dst] are overwritten, its length
    stays. *)
Definition copy {A} (dst src : list A) : list A :=
  firstn (length dst) src ++ skipn (length src) dst.

Definition remove (extSN : Z) (n : nackQueue) : nackQueue :=
  let l := nacks n in
  let i := find l extSN in
  if (len l <=? i) || negb (snAt l i =? extSN) then n
  else
    let k := Z.to_nat i in
    let shifted := firstn k l ++ copy (skipn k l) (skipn (S k) l) in
    mkQueue (firstn (length l - 1) shifted) (kfSN n).

Definition push (extSN : Z) (n : nackQueue) : nackQueue :=
  let l := nacks n in
  let i := find l extSN in
  if (i <? len l) && (snAt l i =? extSN) then n
  else
    let nck := mkNack extSN 0 in
    let k := Z.to_nat i in
    let l1 :=
      if i =? len l then l ++ [nck]
      else <[k := nck]> (firstn (S k) l ++ skipn k l) in
    let l2 :=
      if maxNackCache <=? len l1 then copy l1 (skipn 1 l1) else l1 in
    mkQueue l2 (kfSN n).

(** The loop of [pairs] reads the queue front to back and writes the kept
    entries back at index [i], which never runs ahead of the read index: the
    entries read are those of the queue as it was on entry, and [n.nacks[:i]]
    at the end is the list of kept entries, in order. *)
Record loop : Set := mkLoop {
  kept : list nack;      (* n.nacks[:i] *)
  lastKF : Z;            (* n.kfSN *)
  askKF : bool;
  np : NackPair;
  nps : list NackPair
}.

Definition loopInit (n : nackQueue) : loop :=
  mkLoop [] (kfSN n) false (mkPair 0 0) [].

Definition exhausted (nck : nack) : bool := maxNackTimes <=? nacked nck.

Definition tooFresh (headSN : Z) (nck : nack) : bool :=
  u32 (headSN - 2) <=? sn nck.

(** One turn of [for _, nck := range n.nacks]. *)
Definition pairsStep (headSN : Z) (s : loop) (nck : nack) : loop :=
  if exhausted nck then
    if lastKF s <? sn nck
    then mkLoop (kept s) (sn nck) true (np s) (nps s)
    else s
  else if tooFresh headSN nck then
    mkLoop (kept s ++ [nck]) (lastKF s) (askKF s) (np s) (nps s)
  else
    let kept' := kept s ++ [mkNack (sn nck) (u8 (nacked nck + 1))] in
    if (PacketID (np s) =? 0) || (u16 (PacketID (np s) + 16) <? u16 (sn nck)) then
      let nps' := if negb (PacketID (np s) =? 0) then nps s ++ [np s] else nps s in
      mkLoop kept' (lastKF s) (askKF s) (mkPair (u16 (sn nck)) 0) nps'
    else
      let shift := u16 (u16 (sn nck) - PacketID (np s) - 1) in
      let np' := mkPair (PacketID (np s))
                        (Z.lor (LostPackets (np s)) (u16 (Z.shiftl 1 shift))) in
      mkLoop kept' (lastKF s) (askKF s) np' (nps s).

Definition pairsLoop (headSN : Z) (n : nackQueue) : loop :=
  fold_left (pairsStep headSN) (nacks n) (loopInit n).

Definition flush (s : loop) : list NackPair :=
  if negb (PacketID (np s) =? 0) then nps s ++ [np s] else nps s.

(** [pairs] returns the queue after the call, the NACK pairs and the
    keyframe flag. *)
Definition pairs (headSN : Z) (n : nackQueue) : nackQueue * (list NackPair * bool) :=
  if len (nacks n) =? 0 then (n, ([], false))
  else
    let s := pairsLoop headSN n in
    (mkQueue (kept s) (lastKF s), (flush s, askKF s)).

Definition pushAll (l : list Z) (n : nackQueue) : nackQueue :=
  fold_left (fun n extSN => push extSN n) l n.

(** The sequence numbers [from, from+1, ..., from+count-1]. *)
Definition upFrom (from : Z) (count : nat) : list Z :=
  map (fun k => from + Z.of_nat k) (seq 0 count).

(** *** What one call of [pairs] does with the entries it meets *)

Definition alive (nck : nack) : bool := negb (exhausted nck).

(** The entry written back for a kept one. *)
Definition bump (headSN : Z) (nck : nack) : nack :=
  if tooFresh headSN nck then nck
  else mkNack (sn nck) (u8 (nacked nck + 1)).

(** The sequence numbers that raise the keyframe flag while the loop runs
    over [l] with [n.kfSN = kf] on entry. *)
Fixpoint flagged (kf : Z) (l : list nack) : list Z :=
  match l with
  | [] => []
  | nck :: l' =>
      if exhausted nck && (kf <? sn nck)
      then sn nck :: flagged (sn nck) l'
      else flagged kf l'
  end.

(** Operations on the queue and the keyframe requests of a run. *)
Inductive op : Set :=
| Push (extSN : Z)
| Remove (extSN : Z)
| Pairs (headSN : Z).

Definition apply (o : op) (n : nackQueue) : nackQueue :=
  match o with
  | Push extSN => push extSN n
  | Remove extSN => remove extSN n
  | Pairs headSN => fst (pairs headSN n)
  end.

Definition requests (o : op) (n : nackQueue) : list Z :=
  match o with
  | Pairs _ => flagged (kfSN n) (nacks n)
  | _ => []
  end.

Fixpoint history (ops : list op) (n : nackQueue) : list Z :=
  match ops with
  | [] => []
  | o :: ops' => requests o n ++ history ops' (apply o n)
  end.

(** The emission part of the loop state does not look at the keyframe
    fields. *)
Definition sameEmission (s t : loop) : Prop :=
  kept s = kept t /\ np s = np t /\ nps s = nps t.

(** The sequence numbers a NACK pair asks for again (RFC 4585): the base,
    then [base + 1 + i] for every bit [i] of the bitmap that is set. *)
Definition asked (p : NackPair) : list Z :=
  PacketID p
  :: map (fun i => PacketID p + 1 + Z.of_nat i)
         (List.filter (fun i => Z.testbit (LostPackets p) (Z.of_nat i)) (seq 0 16)).

(** The 16-bit numbers of the entries a call of [pairs] emits: those neither
    exhausted nor too fresh. *)
Definition emitted (headSN : Z) (l : list nack) : list Z :=
  map (fun nck => u16 (sn nck))
      (List.filter (fun nck => alive nck && negb (tooFresh headSN nck)) l).

(** The grouping part of [pairsStep], on the pair being filled and the pairs
    already closed. *)
Definition groupStep (st : NackPair * list NackPair) (x : Z)
  : NackPair * list NackPair :=
  let cur := fst st in
  let closed := snd st in
  if (PacketID cur =? 0) || (u16 (PacketID cur + 16) <? x) then
    (mkPair x 0, if negb (PacketID cur =? 0) then closed ++ [cur] else closed)
  else
    (mkPair (PacketID cur)
       (Z.lor (LostPackets cur) (u16 (Z.shiftl 1 (u16 (x - PacketID cur - 1))))),
     closed).

(** State of the grouping after the numbers [xs], the last of them [y]: the
    open pair has a base [P] with [P <= y <= P + 16] and no bit at or above
    [y - P], and the closed pairs followed by the open one ask for exactly
    [xs]. *)
Definition grouped (st : NackPair * list NackPair) (xs : list Z) (y : Z) : Prop :=
  let cur := fst st in
  0 < PacketID cur <= 65519
  /\ PacketID cur <= y <= PacketID cur + 16
  /\ (forall i, y - PacketID cur <= i -> Z.testbit (LostPackets cur) i = false)
  /\ concat (map asked (snd st)) ++ asked cur = xs.

(** The queue after a run of operations. *)
Definition after (ops : list op) (n : nackQueue) : nackQueue :=
  fold_left (fun n o => apply o n) ops n.

(** The keyframe flags the [pairs] calls of a run return, in order. *)
Fixpoint flags (ops : list op) (n : nackQueue) : list bool :=
  match ops with
  | [] => []
  | o :: ops' =>
      match o with
      | Pairs headSN => [snd (snd (pairs headSN n))]
      | _ => []
      end ++ flags ops' (apply o n)
  end.

(** Number 9 is found missing and retried until it escalates; number 5 is
    found missing after that and retried in its turn. *)
Definition lateLoss : list op :=
  [Push 9; Pairs 20; Pairs 20; Pairs 20; Pairs 20;
   Push 5; Pairs 20; Pairs 20; Pairs 20; Pairs 20].

(** Numbers 5 and 9 are found missing together and retried together. *)
Definition twoLosses : list op :=
  [Push 5; Push 9; Pairs 20; Pairs 20; Pairs 20; Pairs 20].

End Nack.

(** ** Packet bucket (bucket.go) *)

Module Bucket.

Definition maxPktSize : Z := 1500.

(** [src] aliases [buf] and is never read by the methods below. *)
Record Bucket : Set := mkBucket {
  buf : list Z;
  init : bool;
  step : Z;
  headSN : Z;
  maxSteps : Z
}.

Definition set_buf v b := mkBucket v (init b) (step b) (headSN b) (maxSteps b).
Definition set_init v b := mkBucket (buf b) v (step b) (headSN b) (maxSteps b).
Definition set_step v b := mkBucket (buf b) (init b) v (headSN b) (maxSteps b).
Definition set_headSN v b := mkBucket (buf b) (init b) (step b) v (maxSteps b).

(** [math.Floor(float64(len)/float64(maxPktSize))] is the integer quotient
    for every length a slice can have. *)
Definition NewBucket (bytes : list Z) : Bucket :=
  mkBucket bytes false 0 0 (len bytes / maxPktSize - 1).

(** What [AddPacket], [set] and [push] hand back: the bucket after the
    call, the stored bytes (a view into [buf]; [None] is nil) and the
    error. *)
Definition stored : Set := (Bucket * (option (list Z) * option error))%type.

Definition push (pkt : list Z) (b : Bucket) : flow stored stored :=
  buf1 <- be_put_uint16 (buf b) (step b * maxPktSize) (u16 (len pkt)) ;;
  let off := step b * maxPktSize + 2 in
  buf2 <- copy_at buf1 off pkt ;;
  let step1 := step b + 1 in
  let step2 := if maxSteps b <? step1 then 0 else step1 in
  out <- slice buf2 off (off + len pkt) ;;
  Cont (set_step step2 (set_buf buf2 b), (Some out, None)).

(** The slot [get] looks at, unless it gives up first. *)
Definition getPos (sn : Z) (b : Bucket) : flow (option (list Z)) Z :=
  let pos := step b - u16 (headSN b - sn + 1) in
  if pos <? 0 then
    when maxSteps b + 1 <? pos * -1 ret None ;;
    Cont (maxSteps b + pos + 1)
  else Cont pos.

Definition get (sn : Z) (b : Bucket) : flow (option (list Z)) (option (list Z)) :=
  pos <- getPos sn b ;;
  let off := pos * maxPktSize in
  when len (buf b) <? off ret None ;;
  seen <- be_uint16 (buf b) (off + 4) ;;
  when negb (seen =? sn) ret None ;;
  sz <- be_uint16 (buf b) off ;;
  out <- slice (buf b) (off + 2) (off + 2 + sz) ;;
  Cont (Some out).

(** The slot [set] writes to, unless the packet is too old. *)
Definition setPos (sn : Z) (b : Bucket) : flow stored Z :=
  when u16 (maxSteps b + 1) <=? u16 (headSN b - sn)
    ret (b, (None, Some errPacketTooOld)) ;;
  let pos := step b - u16 (headSN b - sn + 1) in
  Cont (if pos <? 0 then maxSteps b + pos + 1 else pos).

Definition set (sn : Z) (pkt : list Z) (b : Bucket) : flow stored stored :=
  pos <- setPos sn b ;;
  let off := pos * maxPktSize in
  when (len (buf b) <? off) || (off <? 0)
    ret (b, (None, Some errPacketTooOld)) ;;
  seen <- be_uint16 (buf b) (off + 4) ;;
  when seen =? sn ret (b, (None, Some errRTXPacket)) ;;
  buf1 <- be_put_uint16 (buf b) off (u16 (len pkt)) ;;
  buf2 <- copy_at buf1 (off + 2) pkt ;;
  out <- slice buf2 (off + 2) (off + 2 + len pkt) ;;
  Cont (set_buf buf2 b, (Some out, None)).

(** One turn of the loop that skips the slots of the packets not yet
    seen. *)
Definition skipSlot (maxSteps step : Z) : Z :=
  let step1 := step + 1 in
  if maxSteps <=? step1 then 0 else step1.

Definition AddPacket (pkt : list Z) (sn : Z) (latest : bool) (b : Bucket)
  : result stored :=
  let b := if negb (init b) then set_init true (set_headSN (u16 (sn - 1)) b) else b in
  if negb latest then run (set sn pkt b)
  else
    let diff := u16 (sn - headSN b) in
    let b := set_headSN sn b in
    let b := set_step (Nat.iter (Z.to_nat (diff - 1)) (skipSlot (maxSteps b)) (step b)) b in
    run (push pkt b).

(** [GetPacket(buf, sn)] with the caller's slice given by its bytes and
    its capacity; returns the caller's bytes after the call, the length [i]
    and the error. *)
Definition GetPacket (dst : list Z) (dstCap : Z) (sn : Z) (b : Bucket)
  : result (list Z * Z * option error) :=
  match run (get sn b) with
  | Panic => Panic
  | Ok None => Ok (dst, 0, Some errPacketNotFound)
  | Ok (Some p) =>
      let i := len p in
      if dstCap <? i then Ok (dst, i, Some errBufferTooSmall)
      else
        let dst1 := if len dst <? i
                    then dst ++ repeat 0 (Z.to_nat (i - len dst)) else dst in
        Ok (Nack.copy dst1 p, i, None)
  end.

(** Bytes 2 and 3 of an RTP packet: its sequence number. *)
Definition seqOf (pkt : list Z) : option Z :=
  match pkt with
  | _ :: _ :: hi :: lo :: _ => Some (hi * 256 + lo)
  | _ => None
  end.

(** *** Well-formed buckets *)

(** What [NewBucket] establishes for a buffer of at least one slot and
    what [AddPacket] keeps: [step] is a slot index, the buffer holds the
    [maxSteps + 1] slots, and the slot count fits the 16-bit comparison made
    by [set]. *)
Record wf (b : Bucket) : Prop := mkWf {
  wf_maxSteps : 0 <= maxSteps b /\ maxSteps b + 1 < 2 ^ 16;
  wf_step : 0 <= step b <= maxSteps b;
  wf_buf : (maxSteps b + 1) * maxPktSize <= len (buf b);
  wf_headSN : 0 <= headSN b < 2 ^ 16
}.

(** The sequence number found in a slot: bytes 4 and 5 of the slot are
    bytes 2 and 3 of the packet stored after the 2-byte length. *)
Definition slotSeq (b : Bucket) (pos : Z) : Z :=
  nth (Z.to_nat (pos * maxPktSize + 4)) (buf b) 0 * 256
  + nth (Z.to_nat (pos * maxPktSize + 5)) (buf b) 0.

(** The length stored in front of a slot; a slot that was never written has
    length 0. *)
Definition slotLen (b : Bucket) (pos : Z) : Z :=
  nth (Z.to_nat (pos * maxPktSize)) (buf b) 0 * 256
  + nth (Z.to_nat (pos * maxPktSize + 1)) (buf b) 0.

(** The slot of [sn]: [step - (headSN - sn + 1)], the difference taken in
    16 bits, reduced modulo the number of slots. *)
Definition slotOf (b : Bucket) (sn : Z) : Z :=
  (step b - u16 (headSN b - sn + 1)) mod (maxSteps b + 1).

Definition zeros (n : Z) : list Z := repeat 0 (Z.to_nat n).

(** [src] written over [dst] from offset [off] on. *)
Definition copy_bytes (off : Z) (src dst : list Z) : list Z :=
  firstn (Z.to_nat off) dst ++ src ++ skipn (Z.to_nat off + length src) dst.

(** A 13-byte RTP packet carrying sequence number [sn]. *)
Definition rtp (sn : Z) : list Z :=
  [128; 96; sn / 256; sn mod 256; 0; 0; 0; 1; 0; 0; 0; 9; 42].

(** The bucket after a first, in-order packet with sequence number 1. *)
Definition afterFirst : Bucket :=
  mkBucket (copy_bytes 0 (0 :: 13 :: rtp 1) (zeros 6000)) true 1 1 3.

(** The buffer after a packet is stored at offset [off]: its length in two
    bytes, then its bytes ([PutUint16] and [copy] of [push] and [set]). *)
Definition written (off : Z) (pkt buf : list Z) : list Z :=
  copy_bytes (off + 2) pkt
    (copy_bytes off [u8 (Z.shiftr (u16 (len pkt)) 8); u8 (u16 (len pkt))] buf).

(** [b.step++] of [push], back to 0 past the last slot. *)
Definition nextStep (b : Bucket) : Z :=
  if maxSteps b <? step b + 1 then 0 else step b + 1.

(** The bucket after the in-order packets 1 and 3: number 2 is missing. *)
Definition afterGap : Bucket :=
  match AddPacket (rtp 3) 3 true afterFirst with
  | Ok (b, _) => b
  | Panic => afterFirst
  end.

End Bucket.

(** ** Transport-wide congestion control responder (twcc.go) *)

Module Twcc.

(** Constants of [github.com/pion/rtcp] used by the responder. *)
Definition TypeTCCPacketNotReceived : Z := 0.
Definition TypeTCCPacketReceivedSmallDelta : Z := 1.
Definition TypeTCCPacketReceivedLargeDelta : Z := 2.
Definition TypeTCCPacketReceivedWithoutDelta : Z := 3.
Definition TypeTCCSymbolSizeOneBit : Z := 0.
Definition TypeTCCSymbolSizeTwoBit : Z := 1.
Definition FormatTCC : Z := 15.
Definition TypeTransportSpecificFeedback : Z := 205.

Definition baseSequenceNumberOffset : Z := 8.
Definition packetStatusCountOffset : Z := 10.
Definition referenceTimeOffset : Z := 12.
Definition tccReportDelta : Z := 100000000.
Definition tccReportDeltaAfterMark : Z := 50000000.

Record rtpExtInfo : Set := mkInfo { ExtTSN : Z; Timestamp : Z }.

(** The responder without its mutex and callback; [lastExtInfo] is never
    read or written. *)
Record Responder : Set := mkResponder {
  extInfo : list rtpExtInfo;
  lastReport : Z;
  cycles : Z;
  lastExtSN : Z;
  pktCtn : Z;
  lastSn : Z;
  mSSRC : Z;
  sSSRC : Z;
  plen : Z;             (* the field [len] *)
  deltaLen : Z;
  payload : list Z;     (* [100]byte *)
  deltas : list Z;      (* [200]byte *)
  chunk : Z
}.

Definition NewTransportWideCCResponder (ssrc sender : Z) : Responder :=
  mkResponder [] 0 0 0 0 0 ssrc sender 0 0 (repeat 0 100%nat) (repeat 0 200%nat) 0.

Definition set_extInfo v t :=
  mkResponder v (lastReport t) (cycles t) (lastExtSN t) (pktCtn t) (lastSn t)
    (mSSRC t) (sSSRC t) (plen t) (deltaLen t) (payload t) (deltas t) (chunk t).
Definition set_lastReport v t :=
  mkResponder (extInfo t) v (cycles t) (lastExtSN t) (pktCtn t) (lastSn t)
    (mSSRC t) (sSSRC t) (plen t) (deltaLen t) (payload t) (deltas t) (chunk t).
Definition set_cycles v t :=
  mkResponder (extInfo t) (lastReport t) v (lastExtSN t) (pktCtn t) (lastSn t)
    (mSSRC t) (sSSRC t) (plen t) (deltaLen t) (payload t) (deltas t) (chunk t).
Definition set_lastExtSN v t :=
  mkResponder (extInfo t) (lastReport t) (cycles t) v (pktCtn t) (lastSn t)
    (mSSRC t) (sSSRC t) (plen t) (deltaLen t) (payload t) (deltas t) (chunk t).
Definition set_pktCtn v t :=
  mkResponder (extInfo t) (lastReport t) (cycles t) (lastExtSN t) v (lastSn t)
    (mSSRC t) (sSSRC t) (plen t) (deltaLen t) (payload t) (deltas t) (chunk t).
Definition set_lastSn v t :=
  mkResponder (extInfo t) (lastReport t) (cycles t) (lastExtSN t) (pktCtn t) v
    (mSSRC t) (sSSRC t) (plen t) (deltaLen t) (payload t) (deltas t) (chunk t).
Definition set_plen v t :=
  mkResponder (extInfo t) (lastReport t) (cycles t) (lastExtSN t) (pktCtn t) (lastSn t)
    (mSSRC t) (sSSRC t) v (deltaLen t) (payload t) (deltas t) (chunk t).
Definition set_deltaLen v t :=
  mkResponder (extInfo t) (lastReport t) (cycles t) (lastExtSN t) (pktCtn t) (lastSn t)
    (mSSRC t) (sSSRC t) (plen t) v (payload t) (deltas t) (chunk t).
Definition set_payload v t :=
  mkResponder (extInfo t) (lastReport t) (cycles t) (lastExtSN t) (pktCtn t) (lastSn t)
    (mSSRC t) (sSSRC t) (plen t) (deltaLen t) v (deltas t) (chunk t).
Definition set_deltas v t :=
  mkResponder (extInfo t) (lastReport t) (cycles t) (lastExtSN t) (pktCtn t) (lastSn t)
    (mSSRC t) (sSSRC t) (plen t) (deltaLen t) (payload t) v (chunk t).
Definition set_chunk v t :=
  mkResponder (extInfo t) (lastReport t) (cycles t) (lastExtSN t) (pktCtn t) (lastSn t)
    (mSSRC t) (sSSRC t) (plen t) (deltaLen t) (payload t) (deltas t) v.

Section Writers.
Context {R : Type}.

Definition writeHeader (bSN packetCount refTime : Z) (t : Responder) : flow R Responder :=
  p <- be_put_uint32 (payload t) 0 (sSSRC t) ;;
  p <- be_put_uint32 p 4 (mSSRC t) ;;
  p <- be_put_uint16 p baseSequenceNumberOffset bSN ;;
  p <- be_put_uint16 p packetStatusCountOffset packetCount ;;
  p <- be_put_uint32 p referenceTimeOffset
         (Z.lor (u32 (Z.shiftl refTime 8)) (pktCtn t)) ;;
  Cont (set_plen 16 (set_payload p t)).

Definition writeRunLengthChunk (symbol runLength : Z) (t : Responder) : flow R Responder :=
  p <- be_put_uint16 (payload t) (plen t)
         (Z.lor (u16 (Z.shiftl symbol 13)) runLength) ;;
  Cont (set_plen (u16 (plen t + 2)) (set_payload p t)).

Definition setNBitsOfUint16 (src size startIndex val : Z) : Z :=
  if 16 <? u16 (startIndex + size) then 0
  else
    let val := Z.land val (u16 (u16 (Z.shiftl 1 size) - 1)) in
    Z.lor src (u16 (Z.shiftl val (u16 (u16 (16 - size) - startIndex)))).

Definition createStatusSymbolChunk (symbolSize symbol i : Z) (t : Responder) : Responder :=
  let numOfBits := u16 (symbolSize + 1) in
  set_chunk (setNBitsOfUint16 (chunk t) numOfBits
               (u16 (u16 (numOfBits * u16 i) + 2)) symbol) t.

Definition writeStatusSymbolChunk (symbolSize : Z) (t : Responder) : flow R Responder :=
  let c := setNBitsOfUint16 (chunk t) 1 0 1 in
  let c := setNBitsOfUint16 c 1 1 symbolSize in
  p <- be_put_uint16 (payload t) (plen t) c ;;
  Cont (set_plen (u16 (plen t + 2)) (set_chunk 0 (set_payload p t))).

(** [t.deltas[t.deltaLen] = byte(delta)]. *)
Definition put_byte (s : list Z) (i : Z) (v : Z) : flow R (list Z) :=
  if (0 <=? i) && (i <? len s) then copy_at s i [u8 v] else Crash.

Definition writeDelta (deltaType delta : Z) (t : Responder) : flow R Responder :=
  if deltaType =? TypeTCCPacketReceivedSmallDelta then
    d <- put_byte (deltas t) (deltaLen t) delta ;;
    Cont (set_deltaLen (u16 (deltaLen t + 1)) (set_deltas d t))
  else
    d <- be_put_uint16 (deltas t) (deltaLen t) delta ;;
    Cont (set_deltaLen (u16 (deltaLen t + 2)) (set_deltas d t)).

End Writers.

(** [sort.Slice] by [ExtTSN]; entries with equal numbers, which the
    library may leave in any order, are kept in arrival order. *)
Fixpoint insertInfo (x : rtpExtInfo) (l : list rtpExtInfo) : list rtpExtInfo :=
  match l with
  | [] => [x]
  | y :: l' => if ExtTSN x <? ExtTSN y then x :: l else y :: insertInfo x l'
  end.

Definition sortInfo (l : list rtpExtInfo) : list rtpExtInfo :=
  fold_left (fun acc x => insertInfo x acc) l [].

(** The not-received entries [from, from+1, ..., to-1]. *)
Definition lostBetween (from to : Z) : list rtpExtInfo :=
  map (fun k => mkInfo (from + Z.of_nat k) 0) (seq 0 (Z.to_nat (to - from))).

(** One turn of the loop building [tccPkts]; the state is [t.lastExtSN] and
    the packets gathered so far. *)
Definition gatherStep (st : Z * list rtpExtInfo) (e : rtpExtInfo)
  : Z * list rtpExtInfo :=
  let last := fst st in
  let acc := snd st in
  if ExtTSN e <? last then st
  else
    let acc := if negb (last =? 0)
               then acc ++ lostBetween (u32 (last + 1)) (ExtTSN e) else acc in
    (ExtTSN e, acc ++ [e]).

Definition gather (last : Z) (sorted : list rtpExtInfo) : Z * list rtpExtInfo :=
  fold_left gatherStep sorted (last, []).

(** Local variables of the status loop, with the responder they write to. *)
Record encoder : Set := mkEncoder {
  resp : Responder;
  firstRecv : bool;
  same : bool;
  timestamp : Z;
  lastStatus : Z;
  maxStatus : Z;
  statusList : list Z       (* the deque, front first *)
}.

Section Build.
Context {R : Type}.

(** [for i := 0; i < n; i++ { createStatusSymbolChunk(size, PopFront(), i) }];
    [PopFront] panics on an empty deque. *)
Fixpoint popSymbols (size : Z) (n : nat) (i : Z) (l : list Z) (t : Responder)
  : flow R (list Z * Responder) :=
  match n with
  | O => Cont (l, t)
  | S n' =>
      match l with
      | [] => Crash
      | x :: l' => popSymbols size n' (i + 1) l' (createStatusSymbolChunk size x i t)
      end
  end.

(** [for i := 0; i < statusList.Len(); i++ { ...PopFront()... }]: the bound is
    read again on every turn, after the pop of the turn before. *)
Fixpoint popWhileBelowLen (size : Z) (turns : nat) (i : Z) (l : list Z) (t : Responder)
  : list Z * Responder :=
  match turns with
  | O => (l, t)
  | S turns' =>
      if i <? len l then
        match l with
        | [] => (l, t)
        | x :: l' => popWhileBelowLen size turns' (i + 1) l' (createStatusSymbolChunk size x i t)
        end
      else (l, t)
  end.

(** The loop that looks again at what is left in the deque after a two-bit
    chunk: state [(maxStatus, same, lastStatus)]. *)
Definition rescanStep (st : Z * bool * Z) (status : Z) : Z * bool * Z :=
  let '(mx, sm, lst) := st in
  let mx := if mx <? status then status else mx in
  let sm := if sm && negb (lst =? TypeTCCPacketReceivedWithoutDelta)
                  && negb (status =? lst) then false else sm in
  (mx, sm, status).

(** The arrival-time part of one turn: header on the first received packet,
    then the delta. Returns the responder, [firstRecv], [timestamp] and the
    status. *)
Definition recordArrival (bSN count : Z) (s : encoder) (stat : rtpExtInfo)
  : flow R (Responder * bool * Z * Z) :=
  if Timestamp stat =? 0 then
    Cont (resp s, firstRecv s, timestamp s, TypeTCCPacketNotReceived)
  else
    st <- (if negb (firstRecv s) then
             let refTime := Z.quot (Timestamp stat) 64000 in
             t <- writeHeader (u16 bSN) (u16 count) (u32 refTime) (resp s) ;;
             Cont (set_pktCtn (u8 (pktCtn t + 1)) t, refTime * 64000)
           else Cont (resp s, timestamp s)) ;;
    let t := fst st in
    let ts := snd st in
    let delta := Z.quot (swrap 64 (Timestamp stat - ts)) 250 in
    if (delta <? 0) || (255 <? delta) then
      let rDelta := swrap 16 delta in
      let rDelta := if negb (rDelta =? delta)
                    then (if 0 <? rDelta then 32767 else -32768) else rDelta in
      t <- writeDelta TypeTCCPacketReceivedLargeDelta (u16 rDelta) t ;;
      Cont (t, true, Timestamp stat, TypeTCCPacketReceivedLargeDelta)
    else
      t <- writeDelta TypeTCCPacketReceivedSmallDelta (u16 delta) t ;;
      Cont (t, true, Timestamp stat, TypeTCCPacketReceivedSmallDelta).

(** One turn of [for _, stat := range tccPkts]. *)
Definition encodeStep (bSN count : Z) (s : encoder) (stat : rtpExtInfo)
  : flow R encoder :=
  a <- recordArrival bSN count s stat ;;
  let '(t, first, ts, status) := a in
  (* run ended by a change of status *)
  b <- (if same s && negb (status =? lastStatus s)
            && negb (lastStatus s =? TypeTCCPacketReceivedWithoutDelta) then
          if 7 <? len (statusList s) then
            t <- writeRunLengthChunk (lastStatus s) (u16 (len (statusList s))) t ;;
            Cont (t, [], TypeTCCPacketReceivedWithoutDelta,
                  TypeTCCPacketNotReceived, true)
          else Cont (t, statusList s, lastStatus s, maxStatus s, false)
        else Cont (t, statusList s, lastStatus s, maxStatus s, same s)) ;;
  let '(t, l, lst, mx, sm) := b in
  let l := l ++ [status] in
  let mx := if mx <? status then status else mx in
  let lst := status in
  if negb sm && (mx =? TypeTCCPacketReceivedLargeDelta) && (6 <? len l) then
    r <- popSymbols TypeTCCSymbolSizeTwoBit 7 0 l t ;;
    t <- writeStatusSymbolChunk TypeTCCSymbolSizeTwoBit (snd r) ;;
    let '(mx, sm, lst) :=
      fold_left rescanStep (fst r)
        (TypeTCCPacketNotReceived, true, TypeTCCPacketReceivedWithoutDelta) in
    Cont (mkEncoder t first sm ts lst mx (fst r))
  else if negb sm && (13 <? len l) then
    r <- popSymbols TypeTCCSymbolSizeOneBit 14 0 l t ;;
    t <- writeStatusSymbolChunk TypeTCCSymbolSizeOneBit (snd r) ;;
    Cont (mkEncoder t first true ts TypeTCCPacketReceivedWithoutDelta
            TypeTCCPacketNotReceived (fst r))
  else Cont (mkEncoder t first sm ts lst mx l).

Fixpoint encodeAll (bSN count : Z) (s : encoder) (pkts : list rtpExtInfo)
  : flow R encoder :=
  match pkts with
  | [] => Cont s
  | stat :: pkts' =>
      s <- encodeStep bSN count s stat ;;
      encodeAll bSN count s pkts'
  end.

(** What is left in the deque when the loop is over. *)
Definition flushStatus (s : encoder) : flow R Responder :=
  if 0 <? len (statusList s) then
    if same s then
      writeRunLengthChunk (lastStatus s) (u16 (len (statusList s))) (resp s)
    else
      let size := if maxStatus s =? TypeTCCPacketReceivedLargeDelta
                  then TypeTCCSymbolSizeTwoBit else TypeTCCSymbolSizeOneBit in
      let r := popWhileBelowLen size (length (statusList s)) 0 (statusList s) (resp s) in
      writeStatusSymbolChunk size (snd r)
  else Cont (resp s).

(** [rtcp.Header.Marshal] for a transport feedback header. *)
Definition marshalHeader (padding : bool) (count type length : Z) : list Z :=
  [Z.lor (Z.lor 128 (if padding then 32 else 0)) count; u8 type;
   u8 (Z.shiftr length 8); u8 length].

(** The RTCP packet: header, payload, deltas and padding. *)
Definition assemble (t : Responder) : flow R (list Z) :=
  let pLen := u16 (u16 (plen t + deltaLen t) + 4) in
  let pad := negb (pLen mod 4 =? 0) in
  let padSize := (4 - pLen mod 4) mod 4 in
  let pLen := u16 (pLen + padSize) in
  let hb := marshalHeader pad FormatTCC TypeTransportSpecificFeedback
              (u16 (pLen / 4 - 1)) in
  let pkt := repeat 0 (Z.to_nat pLen) in
  let pkt := Nack.copy pkt hb in
  body <- slice (payload t) 0 (plen t) ;;
  pkt <- copy_at pkt 4 body ;;
  ds <- slice (deltas t) 0 (deltaLen t) ;;
  pkt <- copy_at pkt (4 + plen t) ds ;;
  if pad then put_byte pkt (len pkt - 1) padSize else Cont pkt.

End Build.

Definition feedback : Set := (Responder * option (list Z))%type.

(** [buildTransportCCPacket] past its first test: nothing in there returns
    early, so the block is typed with an empty return type. *)
Definition buildBody (t : Responder) : flow Empty_set (Responder * list Z) :=
  let sorted := sortInfo (extInfo t) in
  let g := gather (lastExtSN t) sorted in
  let tccPkts := snd g in
  let t := set_extInfo [] (set_lastExtSN (fst g) t) in
  let bSN := match tccPkts with [] => 0 | first :: _ => ExtTSN first end in
  let s0 := mkEncoder t false true 0 TypeTCCPacketReceivedWithoutDelta
              TypeTCCPacketNotReceived [] in
  s <- encodeAll bSN (len tccPkts) s0 tccPkts ;;
  t <- flushStatus s ;;
  pkt <- assemble t ;;
  Cont (set_deltaLen 0 t, pkt).

(** [buildTransportCCPacket]: the responder after the call and the packet
    ([None] is nil). *)
Definition buildTransportCCPacket (t : Responder) : result feedback :=
  if len (extInfo t) =? 0 then Ok (t, None)
  else match buildBody t with
       | Cont (t', pkt) => Ok (t', Some pkt)
       | Ret r => match r with end
       | Crash => Panic
       end.

(** [Push]; a feedback packet, when one is built, is what [onFeedback]
    receives. *)
Definition Push (sn timeNS : Z) (marker : bool) (t : Responder) : result feedback :=
  let t := if (sn <? 0x0fff) && (0xf000 <? Z.land (lastSn t) 0xffff)
           then set_cycles (u32 (cycles t + Z.shiftl 1 16)) t else t in
  let t := set_extInfo
             (extInfo t ++ [mkInfo (Z.lor (cycles t) sn) (Z.quot timeNS 1000)]) t in
  let t := if lastReport t =? 0 then set_lastReport timeNS t else t in
  let t := set_lastSn sn t in
  let delta := swrap 64 (timeNS - lastReport t) in
  if (20 <? len (extInfo t)) && negb (mSSRC t =? 0)
     && ((tccReportDelta <=? delta) || (100 <? len (extInfo t))
         || (marker && (tccReportDeltaAfterMark <=? delta)))
  then
    match buildTransportCCPacket t with
    | Ok (t, pkt) => Ok (set_lastReport timeNS t, pkt)
    | Panic => Panic
    end
  else Ok (t, None).

(** A run of [Push] calls; the packets handed to [onFeedback], in order. *)
Fixpoint pushAll (calls : list (Z * Z * bool)) (t : Responder)
  : result (Responder * list (list Z)) :=
  match calls with
  | [] => Ok (t, [])
  | (sn, timeNS, marker) :: calls' =>
      match Push sn timeNS marker t with
      | Panic => Panic
      | Ok (t, out) =>
          match pushAll calls' t with
          | Panic => Panic
          | Ok (t, outs) =>
              Ok (t, match out with Some p => p :: outs | None => outs end)
          end
      end
  end.

(** *** When [Push] reports *)

(** The test made by [Push], on the number [n] of entries buffered once the
    new one is recorded, the time [elapsed] since the last report, the marker
    bit and the media SSRC. *)
Definition due (n elapsed : Z) (marker : bool) (ssrc : Z) : bool :=
  (20 <? n) && negb (ssrc =? 0)
  && ((tccReportDelta <=? elapsed) || (100 <? n)
      || (marker && (tccReportDeltaAfterMark <=? elapsed))).

(** The same test as C5 words it: at least 20 entries, no word of the SSRC. *)
Definition dueAsStated (n elapsed : Z) (marker : bool) : bool :=
  (20 <=? n)
  && ((tccReportDelta <=? elapsed) || (100 <? n)
      || (marker && (tccReportDeltaAfterMark <=? elapsed))).

(** The test as the doc comment of [Push] words it ("20 packets or more have
    accumulated", "the media SSRC is set"): at least 20 entries, a media
    SSRC, and one of the three reasons to report. It differs from [due] at
    exactly 20 entries. *)
Definition dueByDesign (n elapsed : Z) (marker : bool) (ssrc : Z) : bool :=
  (20 <=? n) && negb (ssrc =? 0)
  && ((tccReportDelta <=? elapsed) || (100 <? n)
      || (marker && (tccReportDeltaAfterMark <=? elapsed))).

(** The responder once [Push] has recorded the entry, before it decides. *)
Definition recorded (sn timeNS : Z) (t : Responder) : Responder :=
  let cycles' := if (sn <? 0x0fff) && (0xf000 <? lastSn t)
                 then u32 (cycles t + 2 ^ 16) else cycles t in
  let since := if lastReport t =? 0 then timeNS else lastReport t in
  mkResponder (extInfo t ++ [mkInfo (Z.lor cycles' sn) (Z.quot timeNS 1000)])
    since cycles' (lastExtSN t) (pktCtn t) sn (mSSRC t) (sSSRC t)
    (plen t) (deltaLen t) (payload t) (deltas t) (chunk t).

(** A responder holding [k] entries, numbers 1 to [k], one every 5 ms from
    the second 1000 on, the last report made at second 1000. *)
Definition startNS : Z := 1000000000000.

Definition arrivals (seqs : list Z) : list (Z * Z * bool) :=
  map (fun p => (snd p, startNS + 5000000 * Z.of_nat (fst p), false))
      (combine (seq 0 (length seqs)) seqs).

Definition buffered (k : nat) (ssrc : Z) : Responder :=
  mkResponder
    (map (fun c => mkInfo (fst (fst c)) (Z.quot (snd (fst c)) 1000))
         (arrivals (Nack.upFrom 1 k)))
    startNS 0 0 0 (Z.of_nat k) ssrc 9 0 0 (repeat 0 100%nat) (repeat 0 200%nat) 0.

(** One hundred and one arrivals 0.4 ms apart that come in reverse order,
    numbered 200 down to 100. *)
Definition reversedRun : list (Z * Z * bool) :=
  map (fun k => (200 - Z.of_nat k, startNS + 400000 * Z.of_nat k, false))
      (seq 0 101).

(** *** What the receiver of a feedback packet reads

    The packet status chunks as the sender of the media decodes them
    (draft-holmer-rmcat-transport-wide-cc-extensions-01, section 3.1): a
    run-length chunk repeats one 2-bit symbol, a status vector chunk lists
    fourteen 1-bit or seven 2-bit symbols; the status count of the header
    says how many symbols are meant. *)
Definition chunkSymbols (c : Z) : list Z :=
  if Z.testbit c 15 then
    if Z.testbit c 14
    then map (fun k => Z.land (Z.shiftr c (12 - 2 * Z.of_nat k)) 3) (seq 0 7)
    else map (fun k => Z.land (Z.shiftr c (13 - Z.of_nat k)) 1) (seq 0 14)
  else repeat (Z.land (Z.shiftr c 13) 3) (Z.to_nat (Z.land c 0x1fff)).

Fixpoint readChunks (turns count : nat) (bytes : list Z) : list Z :=
  match turns, count, bytes with
  | S turns', S _, hi :: lo :: rest =>
      let syms := firstn count (chunkSymbols (hi * 256 + lo)) in
      syms ++ readChunks turns' (count - length syms) rest
  | _, _, _ => []
  end.

(** Base sequence number and statuses read from an RTCP feedback packet:
    4 bytes of RTCP header, two SSRCs, base, count, reference time and
    feedback count, then the chunks. *)
Definition baseRead (pkt : list Z) : Z :=
  nth 12 pkt 0 * 256 + nth 13 pkt 0.

Definition statusesRead (pkt : list Z) : list Z :=
  readChunks (length pkt) (Z.to_nat (nth 14 pkt 0 * 256 + nth 15 pkt 0))
    (skipn 20 pkt).

(** The statuses of the numbers [base, base+1, ...] as the run of [Push]
    calls had them: 1 for a number that arrived, 0 for one that did not. *)
Definition statusesPushed (calls : list (Z * Z * bool)) (base : Z) (count : nat)
  : list Z :=
  map (fun sn => if existsb (fun c => fst (fst c) =? sn) calls then 1 else 0)
      (Nack.upFrom base count).

(** Twenty-one arrivals, 5 ms apart: numbers 1, 3 to 16 and 18 to 23; 2 and
    17 are lost. *)
Definition lossyRun : list (Z * Z * bool) :=
  arrivals ([1] ++ Nack.upFrom 3 14 ++ Nack.upFrom 18 6).

(** The packets a run handed to [onFeedback]. *)
Definition sent (r : result (Responder * list (list Z))) : option (list (list Z)) :=
  match r with
  | Ok (_, packets) => Some packets
  | Panic => None
  end.

(** The feedback packet built by the twenty-first [Push] of [lossyRun]. *)
Definition lossyFeedback : list Z :=
  [175; 205; 0; 11;                 (* V=2, P=1, FMT=15; PT=205; length 11 *)
   0; 0; 0; 9;  0; 0; 0; 7;         (* sender SSRC, media SSRC *)
   0; 1;  0; 23;                    (* base 1, 23 statuses *)
   0; 61; 9;  0;                    (* reference time 15625, feedback count 0 *)
   175; 255;                        (* 14 one-bit symbols: 1 0 1 1 1 1 1 1 1 1 1 1 1 1 *)
   182; 0]                          (* 14 one-bit symbols: 1 1 0 1 1 0 0 0 0 ... *)
  ++ 0 :: repeat 20 20%nat          (* 21 deltas *)
  ++ [0; 0; 3].                     (* padding *)

(** The packet of a [buildTransportCCPacket] result. *)
Definition packetOf (r : result feedback) : option (list Z) :=
  match r with
  | Ok (_, pkt) => pkt
  | Panic => None
  end.

(** A responder holding two arrivals, ten seconds apart. *)
Definition tenSecondsApart : Responder :=
  set_extInfo [mkInfo 1 1000000000; mkInfo 2 1010000000]
    (NewTransportWideCCResponder 7 9).

(** The numbers [from, from+1, ..., to]. *)
Definition fromTo (from to : Z) : list Z :=
  Nack.upFrom from (Z.to_nat (to - from + 1)).

(** The 16-bit word at offset [off], most significant byte first. *)
Definition word16 (s : list Z) (off : Z) : Z :=
  nth (Z.to_nat off) s 0 * 256 + nth (Z.to_nat (off + 1)) s 0.

(** Every list of [n] symbols taken from [alphabet]. *)
Fixpoint words (n : nat) (alphabet : list Z) : list (list Z) :=
  match n with
  | O => [[]]
  | S n' => flat_map (fun x => map (cons x) (words n' alphabet)) alphabet
  end.

Fixpoint eqbList (a b : list Z) : bool :=
  match a, b with
  | [], [] => true
  | x :: a', y :: b' => (x =? y) && eqbList a' b'
  | _, _ => false
  end.

(** [t.chunk] after [createStatusSymbolChunk] has set the symbols [syms] at
    the indices [i, i+1, ...]. *)
Fixpoint packed (size i : Z) (syms : list Z) (c : Z) : Z :=
  match syms with
  | [] => c
  | x :: rest =>
      packed size (i + 1) rest
        (setNBitsOfUint16 c (u16 (size + 1))
           (u16 (u16 (u16 (size + 1) * u16 i) + 2)) x)
  end.

(** The word [writeStatusSymbolChunk] writes for the chunk [c]. *)
Definition vectorWord (size c : Z) : Z :=
  setNBitsOfUint16 (setNBitsOfUint16 c 1 0 1) 1 1 size.

(** The digits [syms], most significant first, read in base [base]. *)
Definition positional (base : Z) (syms : list Z) : Z :=
  fold_left (fun acc x => acc * base + x) syms 0.

(** A status vector chunk of symbol size [size] filled with [syms]: the word
    is in 16 bits, has the layout of the draft and decodes to [syms]. *)
Definition vectorOk (size : Z) (syms : list Z) : bool :=
  let c := vectorWord size (packed size 0 syms 0) in
  (0 <=? c) && (c <? 2 ^ 16)
  && (c =? 2 ^ 15 + size * 2 ^ 14 + positional (2 ^ (size + 1)) syms)
  && eqbList (chunkSymbols c) syms.

(** The 32-bit word at offset [off], most significant byte first. *)
Definition word32 (s : list Z) (off : Z) : Z :=
  word16 s off * 2 ^ 16 + word16 s (off + 2).

(** RTCP padding of [n] bytes: zeros, then the count itself. *)
Definition padding (n : Z) : list Z :=
  if n =? 0 then [] else repeat 0 (Z.to_nat (n - 1)) ++ [n].

(** The fields the writers of the packet never touch. *)
Definition book (t : Responder) : list rtpExtInfo * Z * Z * Z * Z * Z * Z * Z :=
  (extInfo t, lastReport t, cycles t, lastExtSN t, lastSn t, mSSRC t, sSSRC t,
   pktCtn t).

(** Through one turn of the status loop the feedback packet count moves
    once, when the first received packet writes the header. *)
Definition counted (c0 : Z) (s : encoder) : Prop :=
  pktCtn (resp s) = if firstRecv s then u8 (c0 + 1) else c0.

Definition sameBook (t0 t : Responder) : Prop :=
  extInfo t = extInfo t0 /\ lastReport t = lastReport t0 /\ cycles t = cycles t0
  /\ lastExtSN t = lastExtSN t0 /\ lastSn t = lastSn t0
  /\ mSSRC t = mSSRC t0 /\ sSSRC t = sSSRC t0.

End Twcc.

(** ** Session registry of the SFU (sfu.go) *)

Module Sfu.

(** A [Session] value is a pointer to a [SessionLocal]; two sessions are the
    same session when the pointers are equal. *)
Definition ptr : Set := nat.

(** Modelled from the spec: the session object of session.go, which is not
    among the sources. Of a session the registry needs its id and the handler
    registered with [OnClose]; the handler that [newSession] registers is the
    closure [delete(s.sessions, id)], kept here as the id it captures. *)
Record SessionLocal : Set := mkSession {
  id : string;
  onCloseHandler : option string
}.

(** The SFU with the sessions it has allocated; [next] is the address the
    next allocation returns. *)
Record SFU : Type := mkSFU {
  sessions : gmap string ptr;
  heap : gmap ptr SessionLocal;
  next : ptr
}.

Definition NewSFU : SFU := mkSFU ∅ ∅ 0%nat.

(** Modelled from the spec: [NewSession(id, ...)] of session.go allocates a
    session that no one else holds. *)
Definition NewSession (sid : string) (s : SFU) : ptr * SFU :=
  (next s,
   mkSFU (sessions s) (<[next s := mkSession sid None]> (heap s)) (S (next s))).

(** [session.OnClose(f)] with [f] the closure of [newSession]. *)
Definition OnClose (p : ptr) (sid : string) (s : SFU) : SFU :=
  mkSFU (sessions s)
        (alter (fun o => mkSession (id o) (Some sid)) p (heap s))
        (next s).

Definition newSession (sid : string) (s : SFU) : ptr * SFU :=
  let session := fst (NewSession sid s) in
  let s := snd (NewSession sid s) in
  let s := OnClose session sid s in
  (session, mkSFU (<[sid := session]> (sessions s)) (heap s) (next s)).

(** [nil] is [None]. *)
Definition getSession (sid : string) (s : SFU) : option ptr := sessions s !! sid.

Definition GetSession (sid : string) (s : SFU) : ptr * SFU :=
  match getSession sid s with
  | Some session => (session, s)
  | None => newSession sid s
  end.

(** Modelled from the spec: "Session close: fires when peer count drops to
    zero; Session removes itself from SFU registry" - closing a session runs
    the handler registered with [OnClose]. *)
Definition Close (p : ptr) (s : SFU) : SFU :=
  match heap s !! p with
  | Some o =>
      match onCloseHandler o with
      | Some sid => mkSFU (delete sid (sessions s)) (heap s) (next s)
      | None => s
      end
  | None => s
  end.

(** What [NewSFU] establishes and the operations keep: allocated addresses
    are below [next], and a registered session was allocated for the id it is
    registered under and carries the handler of [newSession]. *)
Record wf (s : SFU) : Prop := mkWf {
  wf_heap : forall p o, heap s !! p = Some o -> (p < next s)%nat;
  wf_sessions : forall sid p,
    sessions s !! sid = Some p -> heap s !! p = Some (mkSession sid (Some sid))
}.

(** [GetSessions]: the sessions of the registry, in the order the map is
    ranged over; Go leaves that order open, the properties below do not
    depend on it. *)
Definition GetSessions (s : SFU) : list ptr :=
  map snd (map_to_list (sessions s)).

(** Calls made on an SFU and its sessions. *)
Inductive op : Set :=
| OpGetSession (sid : string)
| OpClose (p : ptr).

Definition exec (o : op) (s : SFU) : SFU :=
  match o with
  | OpGetSession sid => snd (GetSession sid s)
  | OpClose p => Close p s
  end.

Definition execAll (ops : list op) (s : SFU) : SFU :=
  fold_left (fun s o => exec o s) ops s.

End Sfu.

(** ** RTCP readers and the buffer factory (rtcpreader.go, factory.go) *)

Module Rtcp.

(** A [*RTCPReader]: an address in the store of readers. *)
Definition ptr : Set := nat.

(** The [func()] values given to [OnClose]: the closure [GetOrNew] builds,
    which deletes [f.rtcpReaders[ssrc]] for the [ssrc] it captured, or a
    function of the caller, known by a tag. *)
Inductive closer : Set :=
| Unregister (ssrc : Z)
| Custom (tag : nat).

(** [onPacket] holds a [func([]byte)] of the caller, known by a tag, once
    [OnPacket] was called. *)
Record RTCPReader : Set := mkReader {
  ssrc : Z;
  closed : bool;
  onPacket : option nat;
  onClose : option closer
}.

(** What the caller's functions were called with, latest first. *)
Inductive event : Set :=
| Delivered (r : ptr) (tag : nat) (p : list Z)
| Ran (tag : nat).

Inductive ioError : Set := EOF.

(** The factory with the readers allocated so far; [next] is the address
    the next allocation returns.  The RTP side ([rtpBuffers], the pools) is
    left out: [Buffer] is not among the sources, and the RTCP branch never
    touches it. *)
Record Factory : Type := mkFactory {
  rtcpReaders : gmap Z ptr;
  store : gmap ptr RTCPReader;
  next : ptr;
  trace : list event
}.

Definition NewBufferFactory : Factory := mkFactory ∅ ∅ 0%nat [].

Definition NewRTCPReader (sc : Z) (f : Factory) : ptr * Factory :=
  (next f,
   mkFactory (rtcpReaders f) (<[next f := mkReader sc false None None]> (store f))
             (S (next f)) (trace f)).

(** [r.Write(p)]: the named results [n] and [err]; [n] is never assigned. *)
Definition Write (r : ptr) (p : list Z) (f : Factory)
  : result (Z * option ioError * Factory) :=
  match store f !! r with
  | None => Panic
  | Some o =>
      if closed o then Ok (0, Some EOF, f)
      else
        match onPacket o with
        | Some tag =>
            Ok (0, None,
                mkFactory (rtcpReaders f) (store f) (next f)
                          (Delivered r tag p :: trace f))
        | None => Ok (0, None, f)
        end
  end.

Definition OnClose (r : ptr) (fn : closer) (f : Factory) : result Factory :=
  match store f !! r with
  | None => Panic
  | Some o =>
      Ok (mkFactory (rtcpReaders f)
            (<[r := mkReader (ssrc o) (closed o) (onPacket o) (Some fn)]> (store f))
            (next f) (trace f))
  end.

Definition OnPacket (r : ptr) (tag : nat) (f : Factory) : result Factory :=
  match store f !! r with
  | None => Panic
  | Some o =>
      Ok (mkFactory (rtcpReaders f)
            (<[r := mkReader (ssrc o) (closed o) (Some tag) (onClose o)]> (store f))
            (next f) (trace f))
  end.

(** [r.Close()]: calling a nil [onClose] panics. *)
Definition Close (r : ptr) (f : Factory) : result Factory :=
  match store f !! r with
  | None => Panic
  | Some o =>
      let st := <[r := mkReader (ssrc o) true (onPacket o) (onClose o)]> (store f) in
      match onClose o with
      | None => Panic
      | Some (Unregister sc) =>
          Ok (mkFactory (delete sc (rtcpReaders f)) st (next f) (trace f))
      | Some (Custom tag) =>
          Ok (mkFactory (rtcpReaders f) st (next f) (Ran tag :: trace f))
      end
  end.

(** [f.GetOrNew(packetio.RTCPBufferPacket, ssrc)]. *)
Definition GetOrNew (sc : Z) (f : Factory) : result (ptr * Factory) :=
  match rtcpReaders f !! sc with
  | Some reader => Ok (reader, f)
  | None =>
      let reader := fst (NewRTCPReader sc f) in
      let f := snd (NewRTCPReader sc f) in
      let f := mkFactory (<[sc := reader]> (rtcpReaders f)) (store f) (next f) (trace f) in
      match OnClose reader (Unregister sc) f with
      | Ok f => Ok (reader, f)
      | Panic => Panic
      end
  end.


(** What [NewBufferFactory] establishes and [GetOrNew], [Write], [OnPacket]
    and [Close] keep: allocated addresses are below [next], and the reader
    registered for an SSRC was made for it, is open and carries the closure
    of [GetOrNew]. *)
Record wf (f : Factory) : Prop := mkWf {
  wf_store : forall p o, store f !! p = Some o -> (p < next f)%nat;
  wf_readers : forall sc p,
    rtcpReaders f !! sc = Some p ->
    exists tag, store f !! p = Some (mkReader sc false tag (Some (Unregister sc)))
}.

(** Calls made on a factory and its readers. *)
Inductive op : Type :=
| OpGetOrNew (sc : Z)
| OpWrite (r : ptr) (p : list Z)
| OpOnPacket (r : ptr) (tag : nat)
| OpOnClose (r : ptr) (fn : closer)
| OpClose (r : ptr).

Definition exec (o : op) (f : Factory) : result Factory :=
  match o with
  | OpGetOrNew sc =>
      match GetOrNew sc f with Ok (_, f) => Ok f | Panic => Panic end
  | OpWrite r p =>
      match Write r p f with Ok (_, f) => Ok f | Panic => Panic end
  | OpOnPacket r tag => OnPacket r tag f
  | OpOnClose r fn => OnClose r fn f
  | OpClose r => Close r f
  end.

Fixpoint execAll (ops : list op) (f : Factory) : result Factory :=
  match ops with
  | [] => Ok f
  | o :: ops' =>
      match exec o f with
      | Ok f => execAll ops' f
      | Panic => Panic
      end
  end.

(** The packets handed to the [onPacket] function of reader [r]. *)
Definition deliveries (r : ptr) (t : list event) : list (list Z) :=
  flat_map (fun e => match e with
                     | Delivered r' _ p => if Nat.eqb r' r then [p] else []
                     | Ran _ => []
                     end) t.

Definition isClosed (r : ptr) (f : Factory) : Prop :=
  exists o, store f !! r = Some o /\ closed o = true.

(** Allocated addresses are below [next]. *)
Definition allocated (f : Factory) : Prop :=
  forall p o, store f !! p = Some o -> (p < next f)%nat.

End Rtcp.

(** * Properties *)

(** ** VP8 payload descriptor *)

Module Vp8Facts.
Import Vp8.

(** *** Totality and memory safety of [Unmarshal] *)

Lemma index_in_bounds {R} (s : list Z) (i : Z) :
  0 <= i < len s -> exists b, @index R s i = Cont b.
Proof.
  intros Hi. unfold index, len in *.
  replace ((0 <=? i) && (i <? Z.of_nat (length s))) with true
    by (symmetry; apply andb_true_iff; split; [apply Z.leb_le | apply Z.ltb_lt]; lia).
  destruct (nth_error s (Z.to_nat i)) as [b|] eqn:E; [eauto|].
  apply nth_error_None in E. lia.
Qed.

Ltac read_ok :=
  match goal with
  | |- context [@index ?R ?s ?i] =>
      let b := fresh "b" in
      let E := fresh "E" in
      destruct (@index_in_bounds R s i ltac:(lia)) as [b E];
      rewrite E; cbn [bind]
  end.

Ltac split_guard :=
  match goal with
  | |- context [if ?c then _ else _] =>
      match c with
      | ?a <? ?b => destruct (Z.ltb_spec a b)
      | ?a <=? ?b => destruct (Z.leb_spec a b)
      end; cbn [bind snd]
  end.

Lemma readPictureID_ok payload p idx :
  0 <= idx < len payload ->
  block_ok payload (readPictureID payload (len payload) p idx).
Proof.
  intros Hi. unfold readPictureID.
  read_ok. destruct (bit b 0x80); cbn; [|lia].
  split_guard; [reflexivity|].
  read_ok. destruct (bit b0 0x80); cbn; [|lia].
  split_guard; [reflexivity|].
  read_ok. cbn. lia.
Qed.

Lemma readTL0PICIDX_ok payload L p idx :
  0 <= idx < len payload ->
  block_ok payload (readTL0PICIDX payload (len payload) L p idx).
Proof.
  intros Hi. unfold readTL0PICIDX.
  destruct L; cbn; [|lia].
  split_guard; [reflexivity|]. split_guard; [reflexivity|].
  read_ok. cbn. lia.
Qed.

Lemma readTID_ok payload K p idx :
  0 <= idx < len payload ->
  block_ok payload (readTID payload (len payload) K p idx).
Proof.
  intros Hi. unfold readTID.
  destruct (TemporalSupported p || K); cbn; [|lia].
  split_guard; [reflexivity|].
  read_ok. cbn. lia.
Qed.

Lemma UnmarshalBody_ok p payload :
  exists p' e, run (UnmarshalBody p payload) = Ok (p', e)
               /\ (e = None \/ e = Some errShortPacket).
Proof.
  unfold UnmarshalBody.
  split_guard; [cbn; eauto|].
  read_ok. destruct (bit b 0x80).
  - split_guard; [cbn; eauto|].
    read_ok.
    pose proof (readPictureID_ok payload (set_TemporalSupported (bit b0 32) p)
                  (0 + 1) ltac:(lia)) as H1.
    destruct (readPictureID _ _ _ _) as [[p1 i1]|[p1 e1]|]; cbn in H1;
      [ | cbn; subst; eauto | contradiction ].
    cbn [bind fst snd].
    pose proof (readTL0PICIDX_ok payload (bit b0 64) p1 i1 H1) as H2.
    destruct (readTL0PICIDX _ _ _ _ _) as [[p2 i2]|[p2 e2]|]; cbn in H2;
      [ | cbn; subst; eauto | contradiction ].
    cbn [bind fst snd].
    pose proof (readTID_ok payload (bit b0 16) p2 i2 H2) as H3.
    destruct (readTID _ _ _ _ _) as [[p3 i3]|[p3 e3]|]; cbn in H3;
      [ | cbn; subst; eauto | contradiction ].
    cbn [bind fst snd].
    split_guard; [cbn; eauto|]. split_guard; [cbn; eauto|].
    read_ok. cbn. eauto.
  - split_guard; [cbn; eauto|].
    read_ok. cbn. eauto.
Qed.

Lemma index_at {R} (s : list Z) (i : Z) :
  0 <= i < len s -> @index R s i = Cont (nth (Z.to_nat i) s 0).
Proof.
  intros Hi. unfold index, len in *.
  replace ((0 <=? i) && (i <? Z.of_nat (length s))) with true
    by (symmetry; apply andb_true_iff; split; [apply Z.leb_le | apply Z.ltb_lt]; lia).
  destruct (nth_error s (Z.to_nat i)) as [b|] eqn:E.
  - now rewrite (nth_error_nth _ _ _ E).
  - apply nth_error_None in E. lia.
Qed.

Ltac to_nat_literals :=
  repeat match goal with
  | |- context [Z.to_nat ?e] =>
      let v := eval cbv in (Z.to_nat e) in
      progress change (Z.to_nat e) with v
  end.

Ltac descriptor_step :=
  first
  [ match goal with
    | |- context [if ?a <? ?b then Ret _ else _] =>
        destruct (Z.ltb_spec a b);
        [solve [cbn; eauto] || (exfalso; lia) | try (exfalso; lia)]
    | |- context [if ?a <=? ?b then Ret _ else _] =>
        destruct (Z.leb_spec a b);
        [solve [cbn; eauto] || (exfalso; lia) | try (exfalso; lia)]
    end
  | rewrite index_at by lia; to_nat_literals; cbn [bind fst snd]
  | match goal with
    | H : bit ?b ?m = _ |- context [bit ?b ?m] => rewrite H
    end; cbn [bind fst snd orb TemporalSupported set_TemporalSupported
              set_PicIDIdx set_MBit set_PictureID set_TlzIdx set_TL0PICIDX set_TID]
  ].

(** The descriptor followed byte by byte: a payload longer than its
    descriptor is parsed to the end, a shorter one stops at
    [errShortPacket]. *)
Lemma Unmarshal_descriptor (p : VP8) (payload : list Z) :
  if descriptorLen payload <? len payload then
    exists p', Unmarshal p (Some payload) = Ok (p', None) /\ populated payload p'
  else
    exists p', Unmarshal p (Some payload) = Ok (p', Some errShortPacket).
Proof.
  unfold populated, descriptorLen, tidIndex, tl0Index, pidLen,
    hasX, hasI, hasL, hasT, hasK, hasM.
  destruct (bit (nth 0 payload 0) 128) eqn:EX;
  destruct (bit (nth 1 payload 0) 128) eqn:EI;
  destruct (bit (nth 2 payload 0) 128) eqn:EM;
  destruct (bit (nth 1 payload 0) 64) eqn:EL;
  destruct (bit (nth 1 payload 0) 32) eqn:ET;
  destruct (bit (nth 1 payload 0) 16) eqn:EK;
  cbn [orb Z.add Pos.add Pos.succ];
  match goal with |- if ?a <? ?b then _ else _ => destruct (Z.ltb_spec a b) end;
  cbn [Unmarshal]; unfold UnmarshalBody, readPictureID, readTL0PICIDX, readTID;
  repeat descriptor_step.
  all: cbn [run]; eexists; split; [reflexivity|].
  all: cbn [IsKeyFrame TemporalSupported PicIDIdx PictureID MBit TlzIdx TL0PICIDX TID
            set_IsKeyFrame set_TemporalSupported
            set_PicIDIdx set_MBit set_PictureID set_TlzIdx set_TL0PICIDX set_TID].
  all: to_nat_literals.
  all: repeat split; intros; try reflexivity; try discriminate.
Qed.

(** [Unmarshal] follows the descriptor: it returns nil exactly when the
    payload is longer than its descriptor, and then the key-frame flag comes
    from the first byte after the descriptor (frame start and P bit clear)
    and every optional field present is read from its place; a payload that
    ends inside its descriptor, or right after it, gives
    [errShortPacket]. *)
Theorem Unmarshal_reads_descriptor (p : VP8) (payload : list Z) :
  let n := descriptorLen payload in
  if n <? len payload then
    exists p',
      Unmarshal p (Some payload) = Ok (p', None)
      /\ IsKeyFrame p'
         = (Z.land (nth (Z.to_nat n) payload 0) 0x01 =? 0) && bit (nth 0 payload 0) 0x10
      /\ (hasX payload = true ->
          TemporalSupported p' = hasT payload
          /\ (hasI payload = true ->
              PicIDIdx p' = 2
              /\ PictureID p'
                 = (if hasM payload
                    then Z.land (nth 2 payload 0) 0x7f * 256 + nth 3 payload 0
                    else Z.land (nth 2 payload 0) 0x7f)
              /\ (hasM payload = true -> MBit p' = true))
          /\ (hasL payload = true ->
              TlzIdx p' = tl0Index payload
              /\ TL0PICIDX p' = nth (Z.to_nat (tl0Index payload)) payload 0)
          /\ (hasT payload || hasK payload = true ->
              TID p' = Z.shiftr (Z.land (nth (Z.to_nat (tidIndex payload)) payload 0) 0xc0) 6))
  else
    exists p', Unmarshal p (Some payload) = Ok (p', Some errShortPacket).
Proof. exact (Unmarshal_descriptor p payload). Qed.

(** C10. For every byte slice, nil, empty and truncated ones included,
    [VP8.Unmarshal] returns: it never panics on an out-of-range index, and
    what it returns is either [nil] or one of the two errors [errNilPacket]
    and [errShortPacket]; a nil slice gives [errNilPacket] and an empty one
    [errShortPacket], both leaving the receiver as it was. For a slice it
    returns [nil] exactly when the slice is longer than its descriptor, and
    then the fields are populated: the key-frame flag from the first byte
    after the descriptor and every optional field present from its place;
    any other slice gives [errShortPacket]. *)
Theorem Unmarshal_total_in_bounds (p : VP8) (payload : option (list Z)) :
  exists p' e,
    Unmarshal p payload = Ok (p', e)
    /\ errs e
    /\ (payload = None -> p' = p /\ e = Some errNilPacket)
    /\ (payload = Some [] -> p' = p /\ e = Some errShortPacket)
    /\ (forall bytes, payload = Some bytes ->
          (e = None <-> descriptorLen bytes < len bytes)
          /\ (e = None -> populated bytes p')
          /\ (e <> None -> e = Some errShortPacket)).
Proof.
  destruct payload as [bytes|].
  - pose proof (Unmarshal_descriptor p bytes) as H.
    destruct (Z.ltb_spec (descriptorLen bytes) (len bytes)) as [Hlt|Hge].
    + destruct H as (p' & Hrun & Hpop).
      exists p', None. unfold errs.
      split; [exact Hrun|]. split; [tauto|]. split; [discriminate|].
      split.
      * intros Hnil. injection Hnil as ->. cbn in Hrun. discriminate.
      * intros bytes' Hb. injection Hb as <-.
        split; [tauto|]. split; [intros _; exact Hpop | congruence].
    + destruct H as (p' & Hrun).
      exists p', (Some errShortPacket). unfold errs.
      split; [exact Hrun|]. split; [tauto|]. split; [discriminate|].
      split.
      * intros Hnil. injection Hnil as ->. cbn in Hrun.
        injection Hrun as <-. auto.
      * intros bytes' Hb. injection Hb as <-.
        split; [split; [discriminate | lia]|]. split; [discriminate | reflexivity].
  - exists p, (Some errNilPacket). unfold errs.
    split; [reflexivity|]. split; [tauto|]. split; [auto|].
    split; [discriminate | intros bytes Hb; discriminate].
Qed.

End Vp8Facts.

(** ** NACK queue *)

Module NackFacts.
Import Nack.

Lemma last_cons {A} (x d : A) (l : list A) :
  List.last (x :: l) d = List.last l x.
Proof.
  revert x d. induction l as [|y l IH]; intros x d; [reflexivity|].
  change (List.last (y :: l) d = List.last (y :: l) x).
  now rewrite !IH.
Qed.

Section Loop.
Variable headSN : Z.

Let step := pairsStep headSN.

Lemma step_exhausted s nck :
  exhausted nck = true ->
  kept (step s nck) = kept s /\ np (step s nck) = np s /\ nps (step s nck) = nps s
  /\ askKF (step s nck) = askKF s || (lastKF s <? sn nck)
  /\ lastKF (step s nck) = Z.max (lastKF s) (sn nck).
Proof.
  intros He. unfold step, pairsStep. rewrite He.
  destruct (Z.ltb_spec (lastKF s) (sn nck)); cbn.
  - repeat split; auto using orb_true_r. lia.
  - repeat split; auto using orb_false_r. lia.
Qed.

Lemma step_alive s nck :
  exhausted nck = false ->
  kept (step s nck) = kept s ++ [bump headSN nck]
  /\ askKF (step s nck) = askKF s /\ lastKF (step s nck) = lastKF s.
Proof.
  intros He. unfold step, pairsStep, bump. rewrite He.
  destruct (tooFresh headSN nck); cbn; [auto|].
  destruct (_ || _); cbn; auto.
Qed.

Lemma step_sameEmission s t nck :
  sameEmission s t -> sameEmission (step s nck) (step t nck).
Proof.
  intros (Hk & Hp & Hs). unfold step, pairsStep, sameEmission.
  destruct (exhausted nck).
  - destruct (_ <? _), (_ <? _); cbn; auto.
  - destruct (tooFresh headSN nck); cbn; [rewrite Hk; auto|].
    rewrite Hk, Hp, Hs.
    destruct (_ || _); cbn; auto.
Qed.

Lemma fold_sameEmission l : forall s t,
  sameEmission s t ->
  sameEmission (fold_left step l s) (fold_left step (List.filter alive l) t).
Proof.
  induction l as [|nck l IH]; intros s t Hst; cbn; [exact Hst|].
  unfold alive at 1. destruct (exhausted nck) eqn:He; cbn.
  - apply IH. destruct (step_exhausted s nck He) as (Hk & Hp & Hs & _).
    destruct Hst as (Hk' & Hp' & Hs'). unfold sameEmission. fold step.
    repeat split; congruence.
  - apply IH. apply step_sameEmission, Hst.
Qed.

Lemma fold_kept l : forall s,
  kept (fold_left step l s) = kept s ++ map (bump headSN) (List.filter alive l).
Proof.
  induction l as [|nck l IH]; intros s; cbn; [now rewrite app_nil_r|].
  rewrite IH. unfold alive at 2. destruct (exhausted nck) eqn:He; cbn.
  - now destruct (step_exhausted s nck He) as (-> & _).
  - destruct (step_alive s nck He) as (-> & _). now rewrite <- app_assoc.
Qed.

Lemma fold_lastKF l : forall s,
  lastKF (fold_left step l s) = List.last (flagged (lastKF s) l) (lastKF s).
Proof.
  induction l as [|nck l IH]; intros s; cbn; [reflexivity|].
  rewrite IH. destruct (exhausted nck) eqn:He; cbn.
  - destruct (step_exhausted s nck He) as (_ & _ & _ & _ & ->).
    destruct (Z.ltb_spec (lastKF s) (sn nck)).
    + rewrite Z.max_r by lia. now rewrite last_cons.
    + now rewrite Z.max_l by lia.
  - now destruct (step_alive s nck He) as (_ & _ & ->).
Qed.

Lemma fold_askKF l : forall s,
  askKF (fold_left step l s)
  = askKF s || existsb (fun _ => true) (flagged (lastKF s) l).
Proof.
  induction l as [|nck l IH]; intros s; cbn; [now rewrite orb_false_r|].
  rewrite IH. destruct (exhausted nck) eqn:He; cbn.
  - destruct (step_exhausted s nck He) as (_ & _ & _ & -> & ->).
    destruct (Z.ltb_spec (lastKF s) (sn nck)); cbn.
    + now rewrite !orb_true_r.
    + rewrite Z.max_l by lia. now rewrite orb_false_r.
  - now destruct (step_alive s nck He) as (_ & -> & ->).
Qed.

End Loop.


Lemma flagged_app kf l1 l2 :
  flagged kf (l1 ++ l2)
  = flagged kf l1 ++ flagged (List.last (flagged kf l1) kf) l2.
Proof.
  revert kf. induction l1 as [|nck l1 IH]; intros kf; [reflexivity|].
  cbn [app flagged].
  destruct (exhausted nck && (kf <? sn nck)); [|apply IH].
  now rewrite last_cons, IH.
Qed.

(** Every flagged number is beyond the keyframe number on entry, and they
    come in strictly increasing order. *)
Lemma flagged_above kf l : Forall (fun x => kf < x) (flagged kf l).
Proof.
  revert kf. induction l as [|nck l IH]; intros kf; cbn; [constructor|].
  destruct (exhausted nck); cbn; [|apply IH].
  destruct (Z.ltb_spec kf (sn nck)); [|apply IH].
  constructor; [assumption|].
  eapply List.Forall_impl; [|apply IH]. cbn. intros; lia.
Qed.

Lemma flagged_sorted kf l : StronglySorted Z.lt (flagged kf l).
Proof.
  revert kf. induction l as [|nck l IH]; intros kf; cbn; [constructor|].
  destruct (exhausted nck && (kf <? sn nck)); [|apply IH].
  constructor; [apply IH | apply flagged_above].
Qed.

Lemma flagged_last_ge kf l : kf <= List.last (flagged kf l) kf.
Proof.
  revert kf. induction l as [|nck l IH]; intros kf; [cbn; lia|].
  cbn [flagged]. destruct (exhausted nck); cbn [andb]; [|apply IH].
  destruct (Z.ltb_spec kf (sn nck)); [|apply IH].
  rewrite last_cons. specialize (IH (sn nck)). lia.
Qed.

Lemma flagged_covers kf l nck :
  In nck l -> exhausted nck = true -> sn nck <= List.last (flagged kf l) kf.
Proof.
  intros Hin He. revert kf.
  induction l as [|e l IH]; intros kf; [contradiction|].
  cbn [flagged].
  destruct (exhausted e && (kf <? sn e)) eqn:Hc.
  - rewrite last_cons. destruct Hin as [->|Hin].
    + apply flagged_last_ge.
    + now apply IH.
  - destruct Hin as [->|Hin]; [|now apply IH].
    rewrite He in Hc. cbn in Hc. apply Z.ltb_ge in Hc.
    pose proof (flagged_last_ge kf l). lia.
Qed.

Lemma sorted_below_last (l : list Z) (d : Z) :
  StronglySorted Z.lt l -> Forall (fun x => x <= List.last l d) l.
Proof.
  intros Hs. revert d. induction Hs as [|x l Hs IH Hx]; intros d; [constructor|].
  rewrite last_cons. constructor.
  - destruct l as [|y t]; [cbn; lia|].
    specialize (IH x). rewrite List.Forall_forall in Hx, IH.
    assert (Hy : In (List.last (y :: t) x) (y :: t)).
    { clear. generalize x. revert y.
      induction t as [|z t IHt]; intros y d; [now left|].
      right. rewrite last_cons. apply IHt. }
    specialize (Hx _ Hy). lia.
  - apply IH.
Qed.

Lemma sorted_app (l1 l2 : list Z) :
  StronglySorted Z.lt l1 -> StronglySorted Z.lt l2 ->
  (forall x y, In x l1 -> In y l2 -> x < y) ->
  StronglySorted Z.lt (l1 ++ l2).
Proof.
  intros H1 H2 H12. induction H1 as [|x l1 H1 IH Hx]; [exact H2|].
  cbn. constructor.
  - apply IH. intros a b Ha Hb. apply H12; [now right | exact Hb].
  - apply Forall_app. split; [exact Hx|].
    apply List.Forall_forall. intros y Hy. apply H12; [now left | exact Hy].
Qed.

Lemma push_kfSN extSN n : kfSN (push extSN n) = kfSN n.
Proof. unfold push. now destruct (_ && _). Qed.

Lemma remove_kfSN extSN n : kfSN (remove extSN n) = kfSN n.
Proof. unfold remove. now destruct (_ || _). Qed.

Lemma pairs_queue headSN n :
  fst (pairs headSN n)
  = mkQueue (map (bump headSN) (List.filter alive (nacks n)))
            (List.last (flagged (kfSN n) (nacks n)) (kfSN n)).
Proof.
  unfold pairs, len. destruct n as [l kf]. cbn [nacks kfSN].
  destruct l as [|nck l]; [reflexivity|].
  cbn [length fst]. replace (Z.of_nat (S (length l)) =? 0) with false
    by (symmetry; apply Z.eqb_neq; lia).
  cbn [fst]. unfold pairsLoop.
  now rewrite fold_kept, fold_lastKF.
Qed.

Lemma pairs_flag headSN n :
  snd (snd (pairs headSN n)) = existsb (fun _ => true) (flagged (kfSN n) (nacks n)).
Proof.
  unfold pairs, len. destruct n as [l kf]. cbn [nacks kfSN].
  destruct l as [|nck l]; [reflexivity|].
  cbn [length]. replace (Z.of_nat (S (length l)) =? 0) with false
    by (symmetry; apply Z.eqb_neq; lia).
  cbn [snd]. unfold pairsLoop. now rewrite fold_askKF.
Qed.

Lemma pairs_emission headSN n :
  fst (snd (pairs headSN n))
  = fst (snd (pairs headSN (mkQueue (List.filter alive (nacks n)) (kfSN n)))).
Proof.
  assert (Hfl : forall l kf,
    flush (fold_left (pairsStep headSN) l (loopInit (mkQueue l kf)))
    = flush (fold_left (pairsStep headSN) (List.filter alive l)
               (loopInit (mkQueue (List.filter alive l) kf)))).
  { intros l kf.
    destruct (fold_sameEmission headSN l (loopInit (mkQueue l kf))
                (loopInit (mkQueue (List.filter alive l) kf)))
      as (_ & Hp & Hs); [now repeat split|].
    unfold flush. now rewrite Hp, Hs. }
  unfold pairs, len. destruct n as [l kf]. cbn [nacks kfSN].
  destruct (Z.eqb_spec (Z.of_nat (length l)) 0) as [E|E].
  - destruct l; [reflexivity | cbn in E; lia].
  - cbn [fst snd]. unfold pairsLoop. cbn [nacks]. rewrite Hfl.
    destruct (Z.eqb_spec (Z.of_nat (length (List.filter alive l))) 0) as [E'|E'];
      [|reflexivity].
    destruct (List.filter alive l); [reflexivity | cbn in E'; lia].
Qed.

Lemma apply_kfSN o n :
  kfSN (apply o n) = List.last (requests o n) (kfSN n).
Proof.
  destruct o; cbn [apply requests List.last].
  - apply push_kfSN.
  - apply remove_kfSN.
  - now rewrite pairs_queue.
Qed.

Lemma requests_sorted o n :
  StronglySorted Z.lt (requests o n) /\ Forall (fun x => kfSN n < x) (requests o n).
Proof.
  destruct o; cbn; try (split; constructor).
  split; [apply flagged_sorted | apply flagged_above].
Qed.

(** Keyframe requests of a whole run come out in strictly increasing order
    of sequence number, all beyond the keyframe number the run started
    with. *)
Lemma history_sorted ops : forall n,
  StronglySorted Z.lt (history ops n) /\ Forall (fun x => kfSN n < x) (history ops n).
Proof.
  induction ops as [|o ops IH]; intros n; cbn [history]; [split; constructor|].
  destruct (requests_sorted o n) as [Hs Ha].
  destruct (IH (apply o n)) as [Hs' Ha'].
  rewrite apply_kfSN in Ha'.
  pose proof (sorted_below_last _ (kfSN n) Hs) as Hb.
  assert (Hge : kfSN n <= List.last (requests o n) (kfSN n)).
  { destruct (requests o n) as [|x t]; [cbn; lia|].
    rewrite List.Forall_forall in Ha, Hb.
    assert (In x (x :: t)) as Hx by now left.
    specialize (Ha _ Hx). specialize (Hb _ Hx). lia. }
  rewrite List.Forall_forall in Ha, Ha', Hb.
  split.
  - apply sorted_app; [exact Hs | exact Hs' |].
    intros x y Hx Hy. specialize (Hb _ Hx). specialize (Ha' _ Hy). lia.
  - apply List.Forall_forall. intros x Hx. apply in_app_or in Hx as [Hx|Hx].
    + now apply Ha.
    + specialize (Ha' _ Hx). lia.
Qed.

Lemma sorted_NoDup (l : list Z) : StronglySorted Z.lt l -> List.NoDup l.
Proof.
  induction 1 as [|x l Hs IH Hx]; constructor; [|exact IH].
  intros Hin. rewrite List.Forall_forall in Hx. specialize (Hx _ Hin). lia.
Qed.

(** C2 (amended). An entry of the NACK queue whose count has reached
    [maxNackTimes] = 3 is, in the next call of [pairs]: left out of the
    emitted NACK pairs, not written back to the queue, and raises the
    keyframe flag if and only if its sequence number is beyond [kfSN], the
    last number a keyframe was asked for, which then becomes this number.
    After the call [kfSN] is at least this number, so whatever is pushed,
    removed or paired later, the same sequence number never asks for a
    keyframe again: over a whole run every sequence number accounts for at
    most one keyframe request, and for exactly one when it was beyond
    [kfSN]; the flag the call returns is set exactly when some number
    asked in it. *)
Theorem pairs_escalates_once
    (headSN : Z) (n : nackQueue) (before after : list nack) (nck : nack)
    (later : list op) :
  nacks n = before ++ nck :: after ->
  maxNackTimes <= nacked nck ->
  let s := fold_left (pairsStep headSN) before (loopInit n) in
  let s' := pairsStep headSN s nck in
  let n' := fst (pairs headSN n) in
  let emitted := fst (snd (pairs headSN n)) in
  let askKeyframe := snd (snd (pairs headSN n)) in
  (* left out of the emission *)
  (np s' = np s /\ nps s' = nps s
   /\ emitted = fst (snd (pairs headSN (mkQueue (List.filter alive (nacks n)) (kfSN n)))))
  (* removed from the queue *)
  /\ (kept s' = kept s
      /\ nacks n' = map (bump headSN) (List.filter alive (nacks n)))
  (* flags a keyframe exactly when beyond the last keyframe number *)
  /\ (askKF s' = askKF s || (lastKF s <? sn nck)
      /\ lastKF s' = Z.max (lastKF s) (sn nck)
      /\ requests (Pairs headSN) n
         = flagged (kfSN n) before
             ++ (if lastKF s <? sn nck then [sn nck] else [])
             ++ flagged (lastKF s') after
      /\ (askKeyframe = true <-> requests (Pairs headSN) n <> []))
  (* and never again *)
  /\ (sn nck <= kfSN n'
      /\ ~ In (sn nck) (history later n')
      /\ List.NoDup (history (Pairs headSN :: later) n)).
Proof.
  intros Hsplit Hcnt s s' n' emitted askKeyframe.
  assert (He : exhausted nck = true) by (apply Z.leb_le; exact Hcnt).
  destruct (step_exhausted headSN s nck He) as (Hk & Hp & Hs & Ha & Hl).
  assert (Hcov : sn nck <= kfSN n').
  { unfold n'. rewrite pairs_queue. cbn [kfSN].
    apply flagged_covers; [|exact He].
    rewrite Hsplit. apply in_or_app. right. now left. }
  split; [|split; [|split]].
  - repeat split; [exact Hp | exact Hs | apply pairs_emission].
  - split; [exact Hk|]. unfold n'. now rewrite pairs_queue.
  - repeat split; try assumption.
    + cbn [requests]. rewrite Hsplit, flagged_app. f_equal.
      cbn [flagged]. rewrite He. cbn [andb]. fold s' in Hl. rewrite Hl.
      unfold s. rewrite fold_lastKF. cbn [loopInit lastKF].
      destruct (Z.ltb_spec (List.last (flagged (kfSN n) before) (kfSN n)) (sn nck)).
      * now rewrite Z.max_r by lia.
      * now rewrite Z.max_l by lia.
    + intros Hkf. unfold askKeyframe in Hkf. rewrite pairs_flag in Hkf.
      cbn [requests]. destruct (flagged _ _); [discriminate|discriminate].
    + intros Hne. unfold askKeyframe. rewrite pairs_flag.
      cbn [requests] in Hne. destruct (flagged _ _); [contradiction|reflexivity].
  - split; [exact Hcov|]. split.
    + intros Hin. destruct (history_sorted later n') as [_ Hab].
      rewrite List.Forall_forall in Hab. specialize (Hab _ Hin). lia.
    + apply sorted_NoDup, history_sorted.
Qed.

Lemma pairs_escalates_once_witness :
  sn (mkNack 7 3)
  <= kfSN (fst (pairs 20 (mkQueue [mkNack 5 1; mkNack 7 3; mkNack 9 0] 0))).
Proof.
  assert (Hcnt : maxNackTimes <= nacked (mkNack 7 3))
    by (unfold maxNackTimes; simpl; lia).
  exact (proj1 (proj2 (proj2 (proj2
    (pairs_escalates_once 20 (mkQueue [mkNack 5 1; mkNack 7 3; mkNack 9 0] 0)
       [mkNack 5 1] [mkNack 9 0] (mkNack 7 3) [Pairs 21; Push 7; Pairs 30]
       eq_refl Hcnt))))).
Defined.

(** C2 (as stated, refuted). Not every sequence number that reaches three
    NACKs gets a keyframe request of its own. In [lateLoss] number 9
    escalates in the fourth call of [pairs]; number 5, pushed afterwards, is
    counted to 3 by the next three calls and dropped by the fourth without
    any flag, 9 being the last number a keyframe was asked for: eight calls,
    one flag, and no request for 5. In [twoLosses] numbers 5 and 9 escalate
    in the same call, which returns its one flag for the two of them. *)
Lemma escalation_not_one_per_number :
  (flags lateLoss newNACKQueue
   = [false; false; false; true; false; false; false; false]
   /\ history lateLoss newNACKQueue = [9]
   /\ after (firstn 9 lateLoss) newNACKQueue = mkQueue [mkNack 5 3] 9
   /\ after lateLoss newNACKQueue = mkQueue [] 9)
  /\ (flags twoLosses newNACKQueue = [false; false; false; true]
      /\ history twoLosses newNACKQueue = [5; 9]
      /\ after twoLosses newNACKQueue = mkQueue [] 9).
Proof. vm_compute. repeat split; reflexivity. Qed.

(** The flags returned over a run and the requests counted over it agree:
    some call returns a set flag exactly when some number asks, and no more
    flags are set than numbers ask. *)
Lemma flags_follow_requests (ops : list op) : forall n,
  existsb (fun f => f) (flags ops n) = existsb (fun _ => true) (history ops n)
  /\ (length (List.filter (fun f => f) (flags ops n)) <= length (history ops n))%nat.
Proof.
  induction ops as [|o ops IH]; intros n; [split; [reflexivity | cbn; lia]|].
  cbn [flags history]. rewrite !existsb_app, List.filter_app, !length_app.
  destruct (IH (apply o n)) as [IH1 IH2]. rewrite IH1.
  destruct o as [x|x|h]; cbn [requests existsb app length List.filter orb];
    [split; [reflexivity | lia] ..|].
  rewrite pairs_flag.
  destruct (flagged (kfSN n) (nacks n)) as [|y l];
    cbn [existsb orb List.filter length app]; split; try reflexivity; lia.
Qed.

(** C3 (evaluation). One hundred and one pushes of distinct, increasing
    sequence numbers into an empty queue leave 101 entries in it: once the
    queue holds [maxNackCache] entries, [push] shifts them one place to the
    front but keeps the length, so the oldest entry goes, the newest is
    stored twice and the queue keeps growing. *)
Theorem push_grows_past_maxNackCache :
  let n := pushAll (upFrom 1 101) newNACKQueue in
  len (nacks n) = 101
  /\ maxNackCache < len (nacks n)
  /\ map sn (nacks n) = upFrom 3 98 ++ [100; 101; 101].
Proof. vm_compute. repeat split; reflexivity. Qed.

(** C6 (evaluation). A missing sequence number whose low 16 bits are zero
    gets its count incremented but is in no emitted pair, because
    [PacketID = 0] also means "no pair open"; and a base close to 65535
    makes [PacketID + 16] wrap, so the very next number opens a new pair. *)
Theorem pairs_loses_base_zero :
  pairs 65540 (push 65536 newNACKQueue)
    = (mkQueue [mkNack 65536 1] 0, ([], false))
  /\ pairs 65560 (pushAll [65530; 65531] newNACKQueue)
    = (mkQueue [mkNack 65530 1; mkNack 65531 1] 0,
       ([mkPair 65530 0; mkPair 65531 0], false)).
Proof. split; vm_compute; reflexivity. Qed.

(** *** [push] never shrinks the queue *)

Lemma searchLoop_all_false f : forall turns i j,
  i <= j -> (forall h, i <= h < j -> f h = false) ->
  (Z.to_nat (j - i) <= turns)%nat ->
  searchLoop turns f i j = j.
Proof.
  induction turns as [|turns IH]; intros i j Hij Hf Ht; cbn [searchLoop].
  - lia.
  - destruct (Z.ltb_spec i j) as [Hlt|Hge]; [|lia].
    rewrite Z.shiftr_div_pow2 by lia. change (2 ^ 1) with 2.
    assert (Hh : i <= (i + j) / 2 < j).
    { split; [apply Z.div_le_lower_bound | apply Z.div_lt_upper_bound]; lia. }
    rewrite (Hf _ Hh). cbn [negb].
    apply IH; [lia | intros h Hr; apply Hf; lia | lia].
Qed.

Lemma find_beyond (l : list nack) (extSN : Z) :
  Forall (fun e => sn e < extSN) l -> find l extSN = len l.
Proof.
  intros Hall. unfold find, Search, len.
  apply searchLoop_all_false; [lia | | lia].
  intros h Hh. apply Z.leb_gt. unfold snAt.
  rewrite List.Forall_forall in Hall. apply Hall.
  apply nth_In. lia.
Qed.

Lemma copy_length {A} (dst src : list A) :
  (length src <= length dst)%nat -> length (copy dst src) = length dst.
Proof.
  intros H. unfold copy. rewrite length_app, length_firstn, length_skipn. lia.
Qed.

Lemma In_firstn {A} (k : nat) (l : list A) (x : A) : In x (firstn k l) -> In x l.
Proof.
  intros H. rewrite <- (firstn_skipn k l). apply in_or_app. now left.
Qed.

Lemma In_skipn {A} (k : nat) (l : list A) (x : A) : In x (skipn k l) -> In x l.
Proof.
  intros H. rewrite <- (firstn_skipn k l). apply in_or_app. now right.
Qed.

Lemma copy_In {A} (dst src : list A) (x : A) :
  In x (copy dst src) -> In x src \/ In x dst.
Proof.
  unfold copy. intros H. apply in_app_or in H as [H|H].
  - left. eapply In_firstn, H.
  - right. eapply In_skipn, H.
Qed.

Lemma push_beyond (extSN : Z) (n : nackQueue) :
  Forall (fun e => sn e < extSN) (nacks n) ->
  length (nacks (push extSN n)) = S (length (nacks n))
  /\ Forall (fun e => sn e < extSN + 1) (nacks (push extSN n)).
Proof.
  intros Hall. unfold push. rewrite (find_beyond _ _ Hall).
  rewrite Z.ltb_irrefl, Z.eqb_refl. cbn [andb nacks].
  set (l1 := nacks n ++ [mkNack extSN 0]).
  assert (Hl1 : length l1 = S (length (nacks n)))
    by (unfold l1; rewrite length_app; cbn; lia).
  assert (Ha1 : Forall (fun e => sn e < extSN + 1) l1).
  { unfold l1. apply Forall_app. split.
    - eapply List.Forall_impl; [|exact Hall]. cbn. intros; lia.
    - constructor; [cbn; lia | constructor]. }
  destruct (maxNackCache <=? len l1); [|now split].
  split.
  - rewrite copy_length; [exact Hl1|]. rewrite length_skipn. lia.
  - apply List.Forall_forall. intros e He. rewrite List.Forall_forall in Ha1.
    apply copy_In in He as [He|He]; [|now apply Ha1].
    apply Ha1. eapply In_skipn, He.
Qed.

Lemma upFrom_succ (from : Z) (count : nat) :
  upFrom from (S count) = from :: upFrom (from + 1) count.
Proof.
  unfold upFrom. cbn [seq map]. f_equal; [lia|].
  rewrite <- seq_shift, map_map. apply map_ext. intros k. lia.
Qed.

(** The queue has no bound: every push of a number beyond those stored adds
    an entry, whatever the length already is. *)
Lemma pushAll_grows (count : nat) : forall (from : Z) (n : nackQueue),
  Forall (fun e => sn e < from) (nacks n) ->
  length (nacks (pushAll (upFrom from count) n)) = (length (nacks n) + count)%nat.
Proof.
  induction count as [|count IH]; intros from n Hall.
  - cbn. lia.
  - rewrite upFrom_succ. unfold pushAll. cbn [fold_left]. fold (pushAll (upFrom (from + 1) count) (push from n)).
    destruct (push_beyond from n Hall) as [Hlen Hall'].
    rewrite IH by exact Hall'. lia.
Qed.

(** *** Grouping into pairs, away from the 16-bit edges *)

Lemma fold_grouping headSN l : forall s,
  let s' := fold_left (pairsStep headSN) l s in
  (np s', nps s') = fold_left groupStep (emitted headSN l) (np s, nps s).
Proof.
  induction l as [|nck l IH]; intros s; [reflexivity|].
  cbn [fold_left]. cbv zeta in IH |- *. rewrite IH. clear IH.
  unfold emitted. cbn [List.filter].
  assert (Hstep : (np (pairsStep headSN s nck), nps (pairsStep headSN s nck))
                  = if alive nck && negb (tooFresh headSN nck)
                    then groupStep (np s, nps s) (u16 (sn nck))
                    else (np s, nps s)).
  { unfold pairsStep, groupStep, alive. cbn [fst snd].
    destruct (exhausted nck); cbn [negb andb].
    - destruct (_ <? _); reflexivity.
    - destruct (tooFresh headSN nck); cbn [negb]; [reflexivity|].
      destruct (_ || _); reflexivity. }
  rewrite Hstep.
  destruct (alive nck && negb (tooFresh headSN nck)); reflexivity.
Qed.

Lemma filter_none {A} (f : A -> bool) (l : list A) :
  (forall x, In x l -> f x = false) -> List.filter f l = [].
Proof.
  induction l as [|x l IH]; intros H; [reflexivity|].
  cbn. rewrite (H x) by now left. apply IH. intros y Hy. apply H. now right.
Qed.

Lemma seq_split_at (j n : nat) :
  (j < n)%nat -> seq 0 n = seq 0 j ++ j :: seq (S j) (n - S j).
Proof.
  intros H. replace n with (j + S (n - S j))%nat at 1 by lia.
  rewrite seq_app. reflexivity.
Qed.

(** Setting a bit above all the bits set so far adds its index at the end of
    the list of set bits. *)
Lemma set_bits_snoc (B : Z) (j n : nat) :
  (j < n)%nat ->
  (forall i, Z.of_nat j <= i -> Z.testbit B i = false) ->
  List.filter (fun i => Z.testbit (Z.lor B (2 ^ Z.of_nat j)) (Z.of_nat i)) (seq 0 n)
  = List.filter (fun i => Z.testbit B (Z.of_nat i)) (seq 0 n) ++ [j].
Proof.
  intros Hj Hhigh.
  assert (Hbit : forall i : nat,
    Z.testbit (Z.lor B (2 ^ Z.of_nat j)) (Z.of_nat i)
    = Z.testbit B (Z.of_nat i) || (j =? i)%nat).
  { intros i. rewrite Z.lor_spec, Z.pow2_bits_eqb by lia. f_equal.
    destruct (Nat.eqb_spec j i) as [->|Hne]; [apply Z.eqb_refl|].
    apply Z.eqb_neq. lia. }
  rewrite (seq_split_at j n Hj), !List.filter_app. cbn [List.filter].
  rewrite Hbit, Nat.eqb_refl, orb_true_r.
  rewrite (Hhigh (Z.of_nat j)) by lia.
  rewrite (filter_none _ (seq (S j) (n - S j))).
  2:{ intros i Hi. apply in_seq in Hi. rewrite Hbit.
      rewrite (Hhigh (Z.of_nat i)) by lia.
      apply Nat.eqb_neq. lia. }
  rewrite (filter_none (fun i => Z.testbit B (Z.of_nat i)) (seq (S j) (n - S j))).
  2:{ intros i Hi. apply in_seq in Hi. apply Hhigh. lia. }
  rewrite app_nil_r. f_equal.
  apply List.filter_ext_in. intros i Hi. apply in_seq in Hi. rewrite Hbit.
  replace (j =? i)%nat with false by (symmetry; apply Nat.eqb_neq; lia).
  apply orb_false_r.
Qed.

Lemma asked_fresh (x : Z) : asked (mkPair x 0) = [x].
Proof.
  reflexivity.
Qed.

Lemma groupStep_first (x : Z) :
  0 < x <= 65519 -> grouped (groupStep (mkPair 0 0, []) x) [x] x.
Proof.
  intros Hx. unfold groupStep, grouped. cbn [fst snd PacketID LostPackets].
  change (0 =? 0) with true. cbn [orb negb fst snd PacketID LostPackets].
  split; [lia|]. split; [lia|]. split.
  - intros i _. apply Z.bits_0.
  - reflexivity.
Qed.

Lemma groupStep_next st xs y x :
  grouped st xs y -> y < x -> 0 < x <= 65519 ->
  grouped (groupStep st x) (xs ++ [x]) x.
Proof.
  intros (HP & Hy & Hbits & Hxs) Hlt Hx. unfold groupStep.
  destruct st as [cur closed]. cbn [fst snd] in *.
  replace (PacketID cur =? 0) with false by (symmetry; apply Z.eqb_neq; lia).
  cbn [orb negb].
  assert (H16 : u16 (PacketID cur + 16) = PacketID cur + 16)
    by (apply Z.mod_small; lia).
  rewrite H16.
  destruct (Z.ltb_spec (PacketID cur + 16) x) as [Hfar|Hnear].
  - unfold grouped. cbn [fst snd PacketID LostPackets].
    repeat split; try lia.
    + intros i _. apply Z.bits_0.
    + rewrite map_app, concat_app. cbn [map concat].
      rewrite app_nil_r, asked_fresh, Hxs. reflexivity.
  - set (j := x - PacketID cur - 1).
    assert (Hj : 0 <= j < 16) by (unfold j; lia).
    assert (Hsh : u16 j = j) by (apply Z.mod_small; lia).
    assert (Hpow : u16 (Z.shiftl 1 j) = 2 ^ j).
    { rewrite Z.shiftl_1_l. apply Z.mod_small.
      split; [apply Z.pow_nonneg; lia|].
      apply Z.pow_lt_mono_r; lia. }
    fold j. rewrite Hsh, Hpow.
    unfold grouped. cbn [fst snd PacketID LostPackets].
    repeat split; try lia.
    + intros i Hi. rewrite Z.lor_spec, Z.pow2_bits_eqb by lia.
      rewrite Hbits by lia.
      apply Z.eqb_neq. unfold j. lia.
    + rewrite <- Hxs, <- app_assoc. f_equal.
      unfold asked. cbn [PacketID LostPackets app]. f_equal.
      replace (2 ^ j) with (2 ^ Z.of_nat (Z.to_nat j)) by (f_equal; lia).
      rewrite (set_bits_snoc (LostPackets cur) (Z.to_nat j) 16) by
        (try lia; intros i Hi; apply Hbits; unfold j in *; lia).
      rewrite map_app. cbn [map]. do 2 f_equal. unfold j. lia.
Qed.

Lemma fold_grouped xs : forall st done y,
  grouped st done y ->
  StronglySorted Z.lt (y :: xs) -> Forall (fun x => 0 < x <= 65519) xs ->
  exists y', grouped (fold_left groupStep xs st) (done ++ xs) y'.
Proof.
  induction xs as [|x xs IH]; intros st done y Hg Hs Hr.
  - exists y. now rewrite app_nil_r.
  - cbn [fold_left]. inversion Hs as [|? ? Hs' Hy]; subst.
    inversion Hr as [|? ? Hx Hr']; subst.
    inversion Hy as [|? ? Hyx _]; subst.
    replace (done ++ x :: xs) with ((done ++ [x]) ++ xs)
      by (now rewrite <- app_assoc).
    apply (IH _ _ x); [|exact Hs' | exact Hr'].
    apply (groupStep_next st done y x Hg Hyx Hx).
Qed.

(** For emitted numbers that increase within one 16-bit cycle and stay clear
    of 0 and of the last sixteen values, the pairs returned ask for exactly
    the emitted numbers, each once and in order. *)
Lemma pairs_cover_emitted (headSN : Z) (n : nackQueue) :
  StronglySorted Z.lt (emitted headSN (nacks n)) ->
  Forall (fun x => 0 < x <= 65519) (emitted headSN (nacks n)) ->
  concat (map asked (fst (snd (pairs headSN n)))) = emitted headSN (nacks n).
Proof.
  intros Hs Hr. unfold pairs, len.
  destruct (nacks n) as [|nck l] eqn:El; [reflexivity|].
  cbn [length]. replace (Z.of_nat (S (length l)) =? 0) with false
    by (symmetry; apply Z.eqb_neq; lia).
  cbn [fst snd]. unfold flush, pairsLoop. rewrite El.
  pose proof (fold_grouping headSN (nck :: l) (loopInit n)) as Hf.
  cbv zeta in Hf. cbn [loopInit np nps] in Hf.
  set (s' := fold_left (pairsStep headSN) (nck :: l) (loopInit n)) in *.
  set (st := fold_left groupStep (emitted headSN (nck :: l)) (mkPair 0 0, [])) in *.
  assert (Hnp : np s' = fst st) by (now rewrite <- Hf).
  assert (Hnps : nps s' = snd st) by (now rewrite <- Hf).
  rewrite Hnp, Hnps. subst st. clear Hf Hnp Hnps s'.
  destruct (emitted headSN (nck :: l)) as [|x xs] eqn:Ee; [reflexivity|].
  inversion Hr as [|? ? Hx Hr']; subst.
  cbn [fold_left].
  destruct (fold_grouped xs _ [x] x (groupStep_first x Hx) Hs Hr')
    as (y' & HP & _ & _ & Hxs).
  replace (PacketID (fst (fold_left groupStep xs (groupStep (mkPair 0 0, []) x))) =? 0)
    with false by (symmetry; apply Z.eqb_neq; lia).
  cbn [negb]. rewrite map_app, concat_app. cbn [map concat].
  rewrite app_nil_r. exact Hxs.
Qed.

(** *** The binary search on a sorted queue *)

(** [sort.Search] on a predicate that is false then true returns the first
    index at which it is true. *)
Lemma searchLoop_first (f : Z -> bool) (n : Z) : forall turns i j,
  (forall h k, 0 <= h <= k -> k < n -> f h = true -> f k = true) ->
  0 <= i <= j -> j <= n ->
  (forall k, 0 <= k < i -> f k = false) ->
  (forall k, j <= k < n -> f k = true) ->
  (Z.to_nat (j - i) <= turns)%nat ->
  let r := searchLoop turns f i j in
  i <= r <= j
  /\ (forall k, 0 <= k < r -> f k = false)
  /\ (forall k, r <= k < n -> f k = true).
Proof.
  induction turns as [|turns IH]; intros i j Hmono Hij Hjn Hlo Hhi Ht;
    cbn [searchLoop].
  - assert (i = j) by lia. subst j. cbv zeta. repeat split; auto; lia.
  - destruct (Z.ltb_spec i j) as [Hlt|Hge].
    + rewrite Z.shiftr_div_pow2 by lia. change (2 ^ 1) with 2.
      assert (Hh : i <= (i + j) / 2 < j).
      { split; [apply Z.div_le_lower_bound | apply Z.div_lt_upper_bound]; lia. }
      set (h := (i + j) / 2) in *.
      destruct (f h) eqn:Efh; cbn [negb].
      * destruct (IH i h Hmono ltac:(lia) ltac:(lia) Hlo) as (Hr & Hl & Hu);
          [|lia|].
        { intros k Hk. apply (Hmono h k); [lia | lia | exact Efh]. }
        cbv zeta. repeat split; auto; lia.
      * destruct (IH (h + 1) j Hmono ltac:(lia) Hjn) as (Hr & Hl & Hu);
          [|exact Hhi|lia|].
        { intros k Hk. destruct (f k) eqn:Efk; [|reflexivity].
          rewrite (Hmono k h) in Efh; [discriminate | lia | lia | exact Efk]. }
        cbv zeta. repeat split; auto; lia.
    + assert (i = j) by lia. subst j. cbv zeta. repeat split; auto; lia.
Qed.

Lemma sorted_nth (R : Z -> Z -> Prop) (l : list Z) :
  StronglySorted R l ->
  forall i j, (i < j < length l)%nat -> R (nth i l 0) (nth j l 0).
Proof.
  induction 1 as [|x l Hs IH Hx]; intros i j Hij; [cbn in Hij; lia|].
  destruct j as [|j]; [lia|]. cbn [length] in Hij.
  destruct i as [|i]; cbn [nth].
  - rewrite List.Forall_forall in Hx. apply Hx, nth_In. lia.
  - apply IH. lia.
Qed.

Lemma snAt_map (l : list nack) (i : Z) :
  snAt l i = nth (Z.to_nat i) (map sn l) 0.
Proof. unfold snAt. now rewrite <- (map_nth sn). Qed.

(** On a queue in non-decreasing order [find] splits it into the entries
    below [extSN] and those at or above it. *)
Lemma find_split (l : list nack) (extSN : Z) :
  StronglySorted Z.le (map sn l) ->
  let k := Z.to_nat (find l extSN) in
  0 <= find l extSN <= len l
  /\ Forall (fun e => sn e < extSN) (firstn k l)
  /\ Forall (fun e => extSN <= sn e) (skipn k l).
Proof.
  intros Hs.
  assert (Hmono : forall h k, 0 <= h <= k -> k < len l ->
            (extSN <=? snAt l h) = true -> (extSN <=? snAt l k) = true).
  { intros h k Hhk Hk Hh. apply Z.leb_le in Hh. apply Z.leb_le.
    destruct (Z.eq_dec h k) as [->|Hne]; [exact Hh|].
    rewrite !snAt_map in *.
    pose proof (sorted_nth _ _ Hs (Z.to_nat h) (Z.to_nat k)) as Hlt.
    rewrite length_map in Hlt. unfold len in Hk.
    specialize (Hlt ltac:(lia)). lia. }
  destruct (searchLoop_first (fun i => extSN <=? snAt l i) (len l)
              (S (Z.to_nat (len l))) 0 (len l) Hmono)
    as (Hr & Hlo & Hhi); try (unfold len; lia).
  fold (Search (len l) (fun i => extSN <=? snAt l i)) in Hr, Hlo, Hhi.
  fold (find l extSN) in Hr, Hlo, Hhi.
  cbv zeta. split; [exact Hr|]. unfold len in *. split.
  - apply List.Forall_forall. intros e He.
    destruct (In_nth _ _ (mkNack 0 0) He) as (i & Hi & <-).
    rewrite length_firstn in Hi. rewrite nth_firstn.
    replace (i <? Z.to_nat (find l extSN))%nat with true
      by (symmetry; apply Nat.ltb_lt; lia).
    specialize (Hlo (Z.of_nat i) ltac:(lia)). apply Z.leb_gt in Hlo.
    unfold snAt in Hlo. now rewrite Nat2Z.id in Hlo.
  - apply List.Forall_forall. intros e He.
    destruct (In_nth _ _ (mkNack 0 0) He) as (i & Hi & <-).
    rewrite length_skipn in Hi. rewrite nth_skipn.
    specialize (Hhi (find l extSN + Z.of_nat i) ltac:(lia)). apply Z.leb_le in Hhi.
    unfold snAt in Hhi.
    now replace (Z.to_nat (find l extSN + Z.of_nat i))
      with (Z.to_nat (find l extSN) + i)%nat in Hhi by lia.
Qed.

Lemma sorted_lt_le (l : list Z) : StronglySorted Z.lt l -> StronglySorted Z.le l.
Proof.
  induction 1 as [|x l Hs IH Hx]; constructor; [exact IH|].
  eapply List.Forall_impl; [|exact Hx]. intros y Hy. lia.
Qed.

Lemma sorted_insert (R : Z -> Z -> Prop) (l1 l2 : list Z) (x : Z) :
  StronglySorted R (l1 ++ l2) ->
  Forall (fun y => R y x) l1 -> Forall (fun y => R x y) l2 ->
  StronglySorted R (l1 ++ x :: l2).
Proof.
  induction l1 as [|a l1 IH]; cbn [app]; intros Hs H1 H2.
  - now constructor.
  - inversion Hs as [|? ? Hs' Ha]; subst.
    inversion H1 as [|? ? Hax H1']; subst.
    constructor; [now apply IH|].
    apply Forall_app in Ha. destruct Ha as [Ha1 Ha2].
    apply Forall_app. split; [exact Ha1|]. now constructor.
Qed.

Lemma sorted_remove (R : Z -> Z -> Prop) (l1 l2 : list Z) (x : Z) :
  StronglySorted R (l1 ++ x :: l2) -> StronglySorted R (l1 ++ l2).
Proof.
  induction l1 as [|a l1 IH]; cbn [app]; intros Hs.
  - now inversion Hs.
  - inversion Hs as [|? ? Hs' Ha]; subst.
    constructor; [now apply IH|].
    apply Forall_app in Ha. destruct Ha as [Ha1 Ha2].
    apply Forall_app. split; [exact Ha1|]. now inversion Ha2.
Qed.

(** The slice after the insertion of [push], before the cache limit is
    looked at. *)
Lemma insert_at (l : list nack) (k : nat) (nck : nack) :
  (k < length l)%nat ->
  <[k := nck]> (firstn (S k) l ++ skipn k l) = firstn k l ++ nck :: skipn k l.
Proof.
  intros Hk.
  rewrite <- (firstn_skipn k l) at 1.
  rewrite List.firstn_app, length_firstn, List.firstn_firstn.
  replace (Init.Nat.min (S k) k) with k by lia.
  replace (S k - Init.Nat.min k (length l))%nat with 1%nat by lia.
  destruct (skipn k l) as [|e rest] eqn:Es.
  - apply (f_equal (@length _)) in Es. rewrite length_skipn in Es.
    cbn in Es. lia.
  - cbn [firstn]. rewrite <- app_assoc. cbn [app].
    rewrite insert_app_r_alt by (rewrite length_firstn; lia).
    rewrite length_firstn.
    replace (k - Init.Nat.min k (length l))%nat with 0%nat by lia.
    reflexivity.
Qed.

Lemma push_nacks (extSN : Z) (n : nackQueue) :
  let l := nacks n in
  let k := Z.to_nat (find l extSN) in
  0 <= find l extSN <= len l ->
  ~ (find l extSN < len l /\ snAt l (find l extSN) = extSN) ->
  let l1 := firstn k l ++ mkNack extSN 0 :: skipn k l in
  push extSN n
  = mkQueue (if maxNackCache <=? len l1 then copy l1 (skipn 1 l1) else l1) (kfSN n).
Proof.
  intros l k Hr Hnew. cbv zeta. unfold push. fold l.
  destruct ((find l extSN <? len l) && (snAt l (find l extSN) =? extSN)) eqn:E.
  - apply andb_true_iff in E. destruct E as [E1 E2].
    apply Z.ltb_lt in E1. apply Z.eqb_eq in E2. tauto.
  - assert (El1 : (if find l extSN =? len l then l ++ [mkNack extSN 0]
                   else <[Z.to_nat (find l extSN) := mkNack extSN 0]>
                          (firstn (S (Z.to_nat (find l extSN))) l
                           ++ skipn (Z.to_nat (find l extSN)) l))
                  = firstn k l ++ mkNack extSN 0 :: skipn k l).
    { subst k. destruct (Z.eqb_spec (find l extSN) (len l)) as [Eq|Ne].
      - rewrite Eq. unfold len. rewrite Nat2Z.id.
        now rewrite List.firstn_all, List.skipn_all.
      - apply insert_at. unfold len in *. lia. }
    rewrite El1. reflexivity.
Qed.

Lemma filter_all {A} (f : A -> bool) (l : list A) :
  (forall x, In x l -> f x = true) -> List.filter f l = l.
Proof.
  induction l as [|x l IH]; intros H; [reflexivity|].
  cbn. rewrite (H x) by now left. f_equal. apply IH. intros y Hy. apply H. now right.
Qed.

Lemma sorted_suffix (R : Z -> Z -> Prop) (l1 l2 : list Z) :
  StronglySorted R (l1 ++ l2) -> StronglySorted R l2.
Proof.
  induction l1 as [|a l1 IH]; cbn [app]; intros Hs; [exact Hs|].
  inversion Hs; subst. now apply IH.
Qed.

(** A number the queue holds is found at the index [find] returns. *)
Lemma find_present (l : list nack) (extSN : Z) :
  StronglySorted Z.le (map sn l) -> In extSN (map sn l) ->
  find l extSN < len l /\ snAt l (find l extSN) = extSN.
Proof.
  intros Hs Hin. destruct (find_split l extSN Hs) as (Hr & Hlo & Hhi).
  set (k := Z.to_nat (find l extSN)) in *.
  apply in_map_iff in Hin. destruct Hin as (e & He & Hin).
  rewrite <- (firstn_skipn k l) in Hin. apply in_app_or in Hin.
  destruct Hin as [Hin|Hin].
  - rewrite List.Forall_forall in Hlo. specialize (Hlo e Hin). lia.
  - assert (Hsuf : StronglySorted Z.le (map sn (skipn k l))).
    { apply (sorted_suffix Z.le (map sn (firstn k l))).
      now rewrite <- map_app, firstn_skipn. }
    destruct (skipn k l) as [|h rest] eqn:Es; [destruct Hin|].
    assert (Hk : (k < length l)%nat).
    { apply (f_equal (@length _)) in Es. rewrite length_skipn in Es.
      cbn in Es. lia. }
    assert (Hh : snAt l (find l extSN) = sn h).
    { unfold snAt. fold k. rewrite <- (Nat.add_0_r k), <- nth_skipn, Es.
      reflexivity. }
    split; [unfold len; lia|]. rewrite Hh.
    inversion Hhi as [|? ? Hxh _]; subst.
    cbn [map] in Hsuf. inversion Hsuf as [|? ? _ Hall]; subst.
    destruct Hin as [->|Hin]; [reflexivity|].
    rewrite List.Forall_forall in Hall.
    specialize (Hall (sn e) (in_map sn _ _ Hin)). lia.
Qed.

Lemma find_absent (l : list nack) (extSN : Z) :
  0 <= find l extSN -> ~ In extSN (map sn l) ->
  ~ (find l extSN < len l /\ snAt l (find l extSN) = extSN).
Proof.
  intros H0 Hno [Hlt Heq]. apply Hno. rewrite <- Heq, snAt_map.
  apply nth_In. rewrite length_map. unfold len in Hlt. lia.
Qed.

(** [copy(n.nacks, n.nacks[1:])]: every entry moves one place down and the
    last one stays where it was. *)
Lemma sorted_shift (a : Z) (t : list Z) :
  StronglySorted Z.le (a :: t) ->
  StronglySorted Z.le (t ++ skipn (length t) (a :: t)).
Proof.
  revert a. induction t as [|b t IH]; intros a Hs.
  - cbn. constructor; constructor.
  - cbn [length skipn app]. inversion Hs as [|? ? Hs' Ha]; subst.
    constructor; [now apply IH|].
    inversion Hs' as [|? ? _ Hb]; subst.
    apply Forall_app. split; [exact Hb|].
    apply List.Forall_forall. intros y Hy. apply In_skipn in Hy.
    destruct Hy as [<-|Hy]; [lia|].
    rewrite List.Forall_forall in Hb. now apply Hb.
Qed.

Lemma copy_shift {A} (a : A) (t : list A) :
  copy (a :: t) (skipn 1 (a :: t)) = t ++ skipn (length t) (a :: t).
Proof.
  unfold copy. cbn [skipn length]. f_equal.
  apply List.firstn_all2. lia.
Qed.

(** [push] keeps a queue in non-decreasing order, whatever its length. *)
Lemma push_keeps_order (extSN : Z) (n : nackQueue) :
  StronglySorted Z.le (map sn (nacks n)) ->
  StronglySorted Z.le (map sn (nacks (push extSN n))).
Proof.
  intros Hs. destruct (find_split (nacks n) extSN Hs) as (Hr & Hlo & Hhi).
  destruct ((find (nacks n) extSN <? len (nacks n))
            && (snAt (nacks n) (find (nacks n) extSN) =? extSN)) eqn:E.
  - unfold push. rewrite E. exact Hs.
  - assert (Hnew : ~ (find (nacks n) extSN < len (nacks n)
                      /\ snAt (nacks n) (find (nacks n) extSN) = extSN)).
    { intros [H1 H2]. apply Z.ltb_lt in H1. apply Z.eqb_eq in H2.
      rewrite H1, H2 in E. discriminate. }
    rewrite (push_nacks extSN n Hr Hnew). cbn [nacks].
    set (k := Z.to_nat (find (nacks n) extSN)) in *.
    assert (Hl1 : StronglySorted Z.le
                    (map sn (firstn k (nacks n) ++ mkNack extSN 0 :: skipn k (nacks n)))).
    { rewrite map_app. cbn [map sn]. apply sorted_insert.
      - now rewrite <- map_app, firstn_skipn.
      - apply Forall_map. eapply List.Forall_impl; [|exact Hlo]. cbn. intros. lia.
      - apply Forall_map. exact Hhi. }
    destruct (maxNackCache <=? _); [|exact Hl1].
    destruct (firstn k (nacks n) ++ mkNack extSN 0 :: skipn k (nacks n))
      as [|a t] eqn:El; [exact Hl1|].
    rewrite copy_shift, map_app, <- (length_map sn t).
    change (map sn (a :: t)) with (sn a :: map sn t) in Hl1.
    replace (map sn (skipn (length (map sn t)) (a :: t)))
      with (skipn (length (map sn t)) (sn a :: map sn t))
      by (now rewrite <- List.skipn_map).
    now apply sorted_shift.
Qed.

(** What [remove] leaves of a queue that holds the number at index [k]. *)
Lemma remove_nacks (extSN : Z) (n : nackQueue) :
  let l := nacks n in
  let k := Z.to_nat (find l extSN) in
  0 <= find l extSN < len l -> snAt l (find l extSN) = extSN ->
  remove extSN n = mkQueue (firstn k l ++ skipn (S k) l) (kfSN n).
Proof.
  intros l k Hr Heq. unfold remove. fold l.
  replace ((len l <=? find l extSN) || negb (snAt l (find l extSN) =? extSN))
    with false
    by (symmetry; apply orb_false_iff; split;
        [apply Z.leb_gt; lia | rewrite Heq, Z.eqb_refl; reflexivity]).
  fold k. f_equal.
  assert (Hk : (k < length l)%nat) by (unfold len in Hr; lia).
  destruct (skipn k l) as [|e r] eqn:Es.
  - apply (f_equal (@length _)) in Es. rewrite length_skipn in Es. cbn in Es. lia.
  - assert (Er : skipn (S k) l = r).
    { replace (S k) with (1 + k)%nat by lia.
      rewrite <- List.skipn_skipn, Es. reflexivity. }
    rewrite Er. change r with (skipn 1 (e :: r)) at 1. rewrite copy_shift.
    assert (Hlen : (length l - 1 = length (firstn k l ++ r))%nat).
    { rewrite length_app, length_firstn.
      apply (f_equal (@length _)) in Es. rewrite length_skipn in Es.
      cbn in Es. lia. }
    rewrite Hlen, app_assoc, List.firstn_app, List.firstn_all, Nat.sub_diag.
    cbn [firstn]. now rewrite app_nil_r.
Qed.

Lemma remove_keeps_order (extSN : Z) (n : nackQueue) :
  StronglySorted Z.le (map sn (nacks n)) ->
  StronglySorted Z.le (map sn (nacks (remove extSN n))).
Proof.
  intros Hs. destruct (find_split (nacks n) extSN Hs) as (Hr & _ & _).
  destruct ((len (nacks n) <=? find (nacks n) extSN)
            || negb (snAt (nacks n) (find (nacks n) extSN) =? extSN)) eqn:E.
  - unfold remove. rewrite E. exact Hs.
  - apply orb_false_iff in E. destruct E as [E1 E2].
    apply Z.leb_gt in E1. apply negb_false_iff, Z.eqb_eq in E2.
    rewrite (remove_nacks extSN n) by (auto; lia). cbn [nacks].
    set (k := Z.to_nat (find (nacks n) extSN)) in *.
    assert (Hk : (k < length (nacks n))%nat) by (unfold len in *; lia).
    rewrite map_app.
    apply (sorted_remove Z.le _ _ (snAt (nacks n) (find (nacks n) extSN))).
    unfold snAt. fold k.
    replace (map sn (firstn k (nacks n))
             ++ sn (nth k (nacks n) (mkNack 0 0)) :: map sn (skipn (S k) (nacks n)))
      with (map sn (nacks n)); [exact Hs|].
    rewrite <- (firstn_skipn k (nacks n)) at 1. rewrite map_app. f_equal.
    destruct (skipn k (nacks n)) as [|e r] eqn:Es.
    + apply (f_equal (@length _)) in Es. rewrite length_skipn in Es. cbn in Es. lia.
    + replace (S k) with (1 + k)%nat by lia.
      rewrite <- List.skipn_skipn, Es. cbn [map skipn]. f_equal. f_equal.
      rewrite <- (Nat.add_0_r k), <- nth_skipn, Es. reflexivity.
Qed.

Lemma sorted_filter (R : Z -> Z -> Prop) {A} (f : A -> bool) (g : A -> Z) (l : list A) :
  StronglySorted R (map g l) -> StronglySorted R (map g (List.filter f l)).
Proof.
  induction l as [|a l IH]; cbn [map List.filter]; intros Hs; [constructor|].
  inversion Hs as [|? ? Hs' Ha]; subst.
  destruct (f a); [|now apply IH].
  cbn [map]. constructor; [now apply IH|].
  rewrite List.Forall_forall in *. intros y Hy.
  apply in_map_iff in Hy. destruct Hy as (e & <- & He).
  apply List.filter_In in He. apply Ha, in_map, He.
Qed.

Lemma bump_sn (headSN : Z) (nck : nack) : sn (bump headSN nck) = sn nck.
Proof. unfold bump. now destruct (tooFresh headSN nck). Qed.

Lemma pairs_keeps_order (headSN : Z) (n : nackQueue) :
  StronglySorted Z.le (map sn (nacks n)) ->
  StronglySorted Z.le (map sn (nacks (fst (pairs headSN n)))).
Proof.
  intros Hs. rewrite pairs_queue. cbn [nacks].
  rewrite map_map.
  rewrite (map_ext _ sn) by (intros; apply bump_sn).
  now apply sorted_filter.
Qed.

Lemma Forall_firstn_nth {A} (P : A -> Prop) (l : list A) (k i : nat) (d : A) :
  Forall P (firstn k l) -> (i < k)%nat -> (i < length l)%nat -> P (nth i l d).
Proof.
  intros H Hi Hl. rewrite List.Forall_forall in H. apply H.
  replace (nth i l d) with (nth i (firstn k l) d).
  - apply nth_In. rewrite length_firstn. lia.
  - rewrite nth_firstn.
    now replace (i <? k)%nat with true by (symmetry; apply Nat.ltb_lt; lia).
Qed.

Lemma Forall_skipn_nth {A} (P : A -> Prop) (l : list A) (k i : nat) (d : A) :
  Forall P (skipn k l) -> (k <= i)%nat -> (i < length l)%nat -> P (nth i l d).
Proof.
  intros H Hi Hl. rewrite List.Forall_forall in H. apply H.
  replace (nth i l d) with (nth (i - k) (skipn k l) d).
  - apply nth_In. rewrite length_skipn. lia.
  - rewrite nth_skipn. f_equal. lia.
Qed.

(** Where [find] lands in a list cut in two around [extSN]. *)
Lemma find_at_cut (before after : list nack) (extSN : Z) :
  StronglySorted Z.le (map sn (before ++ after)) ->
  Forall (fun e => sn e < extSN) before ->
  Forall (fun e => extSN <= sn e) after ->
  find (before ++ after) extSN = len before.
Proof.
  intros Hs Hb Ha.
  destruct (find_split (before ++ after) extSN Hs) as (Hr & Hlo & Hhi).
  set (k := Z.to_nat (find (before ++ after) extSN)) in *.
  unfold len in *. rewrite length_app in Hr.
  assert (Ek : Z.of_nat k = find (before ++ after) extSN) by (subst k; lia).
  destruct (Z.lt_trichotomy (find (before ++ after) extSN) (Z.of_nat (length before)))
    as [Hlt|[Heq|Hgt]]; [exfalso | exact Heq | exfalso].
  - pose proof (Forall_skipn_nth _ _ k k (mkNack 0 0) Hhi (Nat.le_refl k)) as H.
    rewrite length_app in H. specialize (H ltac:(lia)).
    rewrite app_nth1 in H by lia.
    rewrite List.Forall_forall in Hb.
    assert (Hk : (k < length before)%nat) by lia.
    specialize (Hb (nth k before (mkNack 0 0)) (nth_In _ _ Hk)). lia.
  - pose proof (Forall_firstn_nth _ _ k (length before) (mkNack 0 0) Hlo) as H.
    rewrite length_app in H.
    assert (H1 : (length before < k)%nat) by lia.
    assert (H2 : (length before < length before + length after)%nat) by lia.
    specialize (H H1 H2).
    rewrite app_nth2 in H by (unfold ge; apply Nat.le_refl).
    rewrite Nat.sub_diag in H.
    destruct after as [|e after]; [cbn [length] in H2; lia|]. cbn [nth] in H.
    inversion Ha; subst. lia.
Qed.

(** Every run of [push], [remove] and [pairs] keeps the queue in
    non-decreasing order of sequence number: the order the binary search of
    [push] and [remove] relies on. *)
Theorem queue_stays_ordered (ops : list op) (n : nackQueue) :
  StronglySorted Z.le (map sn (nacks n)) ->
  StronglySorted Z.le (map sn (nacks (after ops n))).
Proof.
  revert n. induction ops as [|o ops IH]; intros n Hs; [exact Hs|].
  cbn [after fold_left]. apply IH.
  destruct o; cbn [apply].
  - now apply push_keeps_order.
  - now apply remove_keeps_order.
  - now apply pairs_keeps_order.
Qed.

Lemma queue_stays_ordered_witness :
  StronglySorted Z.le
    (map sn (nacks (after [Push 7; Push 5; Pairs 100; Push 6; Remove 5] newNACKQueue))).
Proof.
  apply (queue_stays_ordered [Push 7; Push 5; Pairs 100; Push 6; Remove 5] newNACKQueue).
  cbn. constructor.
Defined.

Lemma In_insert {A} (v e : A) (l : list A) : forall k,
  In e (<[k := v]> l) -> e = v \/ In e l.
Proof.
  induction l as [|a l IH]; intros k H; [destruct H|].
  destruct k as [|k]; cbn in H.
  - destruct H as [<-|H]; [now left | right; now right].
  - destruct H as [<-|H]; [right; now left|].
    destruct (IH k H) as [->|Hin]; [now left | right; now right].
Qed.

Lemma push_In (extSN : Z) (n : nackQueue) (e : nack) :
  In e (nacks (push extSN n)) -> e = mkNack extSN 0 \/ In e (nacks n).
Proof.
  unfold push. destruct (_ && _); [now right|]. cbn [nacks].
  set (l1 := if _ =? _ then _ else _).
  assert (H1 : In e l1 -> e = mkNack extSN 0 \/ In e (nacks n)).
  { subst l1. destruct (_ =? _); intros H.
    - apply in_app_or in H. destruct H as [H|[<-|[]]]; [now right | now left].
    - apply In_insert in H. destruct H as [->|H]; [now left|]. right.
      apply in_app_or in H. destruct H as [H|H];
        [eapply In_firstn | eapply In_skipn]; exact H. }
  destruct (maxNackCache <=? len l1); [|exact H1].
  intros H. apply copy_In in H. destruct H as [H|H]; [|now apply H1].
  apply H1. eapply In_skipn, H.
Qed.

Lemma remove_In (extSN : Z) (n : nackQueue) (e : nack) :
  In e (nacks (remove extSN n)) -> In e (nacks n).
Proof.
  unfold remove. destruct (_ || _); [auto|]. cbn [nacks]. intros H.
  apply In_firstn in H. apply in_app_or in H. destruct H as [H|H].
  - eapply In_firstn, H.
  - apply copy_In in H. destruct H as [H|H]; eapply In_skipn, H.
Qed.

(** No entry of the queue is ever counted beyond [maxNackTimes]: [pairs]
    drops an entry that reached the limit instead of counting it again. *)
Theorem nacked_never_exceeds_limit (ops : list op) (n : nackQueue) :
  Forall (fun e => 0 <= nacked e <= maxNackTimes) (nacks n) ->
  Forall (fun e => 0 <= nacked e <= maxNackTimes) (nacks (after ops n)).
Proof.
  revert n. induction ops as [|o ops IH]; intros n Hn; [exact Hn|].
  cbn [after fold_left]. apply IH. clear IH.
  rewrite List.Forall_forall in *.
  destruct o; cbn [apply]; intros e He.
  - apply push_In in He. destruct He as [->|He]; [cbn; unfold maxNackTimes; lia|].
    now apply Hn.
  - apply remove_In in He. now apply Hn.
  - rewrite pairs_queue in He. cbn [nacks] in He.
    apply in_map_iff in He. destruct He as (nck & <- & He).
    apply List.filter_In in He. destruct He as [He Halive].
    specialize (Hn nck He). unfold alive, exhausted in Halive.
    apply negb_true_iff, Z.leb_gt in Halive.
    unfold bump. destruct (tooFresh headSN nck); cbn [nacked]; [lia|].
    unfold maxNackTimes in *. unfold u8, wrap.
    rewrite Z.mod_small; change (2 ^ 8) with 256; lia.
Qed.

Lemma nacked_never_exceeds_limit_witness :
  Forall (fun e => 0 <= nacked e <= maxNackTimes)
    (nacks (after [Push 7; Pairs 100; Pairs 100; Pairs 100; Pairs 100] newNACKQueue)).
Proof.
  apply (nacked_never_exceeds_limit
           [Push 7; Pairs 100; Pairs 100; Pairs 100; Pairs 100] newNACKQueue).
  constructor.
Defined.

(** The two halves [find] cuts a strictly increasing queue into, when the
    number is not in it. *)
Lemma find_cut_absent (l : list nack) (extSN : Z) :
  StronglySorted Z.lt (map sn l) -> ~ In extSN (map sn l) ->
  let k := Z.to_nat (find l extSN) in
  0 <= find l extSN <= len l
  /\ firstn k l = List.filter (fun e => sn e <? extSN) l
  /\ skipn k l = List.filter (fun e => extSN <? sn e) l
  /\ Forall (fun e => sn e < extSN) (firstn k l)
  /\ Forall (fun e => extSN < sn e) (skipn k l).
Proof.
  intros Hs Hno k.
  destruct (find_split l extSN (sorted_lt_le _ Hs)) as (Hr & Hlo & Hhi).
  fold k in Hlo, Hhi.
  assert (Hhi' : Forall (fun e => extSN < sn e) (skipn k l)).
  { rewrite List.Forall_forall in *. intros e He.
    specialize (Hhi e He).
    assert (sn e <> extSN); [|lia].
    intros <-. apply Hno, in_map. eapply In_skipn, He. }
  split; [exact Hr|].
  rewrite List.Forall_forall in Hlo, Hhi'.
  repeat split.
  - rewrite <- (firstn_skipn k l) at 2. rewrite List.filter_app.
    rewrite filter_all by (intros e He; apply Z.ltb_lt; now apply Hlo).
    rewrite filter_none
      by (intros e He; apply Z.ltb_ge; specialize (Hhi' e He); lia).
    now rewrite app_nil_r.
  - rewrite <- (firstn_skipn k l) at 2. rewrite List.filter_app.
    rewrite filter_none
      by (intros e He; apply Z.ltb_ge; specialize (Hlo e He); lia).
    rewrite filter_all by (intros e He; apply Z.ltb_lt; now apply Hhi').
    reflexivity.
  - now apply List.Forall_forall.
  - now apply List.Forall_forall.
Qed.

(** Below the cache limit a number the queue does not hold is inserted at
    its place in the order: the entries below it, the new entry with a count
    of zero, the entries above it. *)
Theorem push_inserts_in_order (extSN : Z) (n : nackQueue) :
  StronglySorted Z.lt (map sn (nacks n)) -> ~ In extSN (map sn (nacks n)) ->
  len (nacks n) + 1 < maxNackCache ->
  push extSN n
  = mkQueue (List.filter (fun e => sn e <? extSN) (nacks n)
             ++ mkNack extSN 0 :: List.filter (fun e => extSN <? sn e) (nacks n))
            (kfSN n)
  /\ StronglySorted Z.lt (map sn (nacks (push extSN n))).
Proof.
  intros Hs Hno Hcap.
  destruct (find_cut_absent (nacks n) extSN Hs Hno) as (Hr & Ef & Es & Hlo & Hhi).
  assert (E : push extSN n
              = mkQueue (firstn (Z.to_nat (find (nacks n) extSN)) (nacks n)
                         ++ mkNack extSN 0
                         :: skipn (Z.to_nat (find (nacks n) extSN)) (nacks n)) (kfSN n)).
  { rewrite (push_nacks extSN n Hr (find_absent _ _ (proj1 Hr) Hno)).
    set (l1 := firstn _ _ ++ _).
    assert (Hl1 : len l1 = len (nacks n) + 1).
    { subst l1. unfold len. rewrite length_app. cbn [length].
      rewrite length_firstn, length_skipn. unfold len in Hr. lia. }
    replace (maxNackCache <=? len l1) with false
      by (symmetry; apply Z.leb_gt; lia).
    reflexivity. }
  split; [now rewrite E, Ef, Es|].
  rewrite E. cbn [nacks]. rewrite map_app. cbn [map sn].
  apply sorted_insert.
  - now rewrite <- map_app, firstn_skipn.
  - apply Forall_map. exact Hlo.
  - apply Forall_map. exact Hhi.
Qed.

Lemma push_inserts_in_order_witness :
  push 6 (mkQueue [mkNack 5 1; mkNack 7 0] 0)
  = mkQueue (List.filter (fun e => sn e <? 6) [mkNack 5 1; mkNack 7 0]
             ++ mkNack 6 0 :: List.filter (fun e => 6 <? sn e) [mkNack 5 1; mkNack 7 0])
            0
  /\ StronglySorted Z.lt (map sn (nacks (push 6 (mkQueue [mkNack 5 1; mkNack 7 0] 0)))).
Proof.
  apply (push_inserts_in_order 6 (mkQueue [mkNack 5 1; mkNack 7 0] 0)).
  - cbn. repeat constructor.
  - cbn. intros [H|[H|[]]]; discriminate.
  - vm_compute. reflexivity.
Defined.

(** Pushing a number the queue already holds changes nothing: the entry
    keeps its count. *)
Theorem push_known_number_is_noop (extSN : Z) (n : nackQueue) :
  StronglySorted Z.le (map sn (nacks n)) -> In extSN (map sn (nacks n)) ->
  push extSN n = n.
Proof.
  intros Hs Hin. destruct (find_present (nacks n) extSN Hs Hin) as [Hlt Heq].
  unfold push.
  replace ((find (nacks n) extSN <? len (nacks n))
           && (snAt (nacks n) (find (nacks n) extSN) =? extSN)) with true;
    [reflexivity|].
  symmetry. apply andb_true_iff. split; [now apply Z.ltb_lt | now apply Z.eqb_eq].
Qed.

Lemma push_known_number_is_noop_witness :
  push 7 (mkQueue [mkNack 5 1; mkNack 7 2] 0) = mkQueue [mkNack 5 1; mkNack 7 2] 0.
Proof.
  apply (push_known_number_is_noop 7 (mkQueue [mkNack 5 1; mkNack 7 2] 0)).
  - cbn. repeat constructor; lia.
  - cbn. auto.
Defined.

(** On a strictly increasing queue [remove] takes out the entry of the
    number and nothing else; a number not in the queue leaves it as it is. *)
Theorem remove_drops_the_number (extSN : Z) (n : nackQueue) :
  StronglySorted Z.lt (map sn (nacks n)) ->
  remove extSN n
  = mkQueue (List.filter (fun e => negb (sn e =? extSN)) (nacks n)) (kfSN n).
Proof.
  intros Hs.
  destruct (find_split (nacks n) extSN (sorted_lt_le _ Hs)) as (Hr & Hlo & Hhi).
  destruct ((len (nacks n) <=? find (nacks n) extSN)
            || negb (snAt (nacks n) (find (nacks n) extSN) =? extSN)) eqn:E.
  - unfold remove. rewrite E. destruct n as [l kf]. cbn [nacks kfSN] in *. f_equal.
    symmetry. apply filter_all. intros e He.
    apply negb_true_iff, Z.eqb_neq. intros Heq.
    destruct (find_present l extSN (sorted_lt_le _ Hs)) as [Hlt Hat];
      [rewrite <- Heq; now apply in_map|].
    apply orb_true_iff in E. destruct E as [E|E].
    + apply Z.leb_le in E. lia.
    + rewrite Hat, Z.eqb_refl in E. discriminate.
  - apply orb_false_iff in E. destruct E as [E1 E2].
    apply Z.leb_gt in E1. apply negb_false_iff, Z.eqb_eq in E2.
    rewrite (remove_nacks extSN n) by (auto; lia). f_equal.
    set (k := Z.to_nat (find (nacks n) extSN)) in *.
    assert (Hk : (k < length (nacks n))%nat) by (unfold len in *; lia).
    assert (Hcut : skipn k (nacks n)
                   = nth k (nacks n) (mkNack 0 0) :: skipn (S k) (nacks n)).
    { destruct (skipn k (nacks n)) as [|e r] eqn:Es.
      - apply (f_equal (@length _)) in Es. rewrite length_skipn in Es. cbn in Es. lia.
      - replace (S k) with (1 + k)%nat by lia.
        rewrite <- List.skipn_skipn, Es. cbn [skipn]. f_equal.
        rewrite <- (Nat.add_0_r k), <- nth_skipn, Es. reflexivity. }
    assert (Hx : sn (nth k (nacks n) (mkNack 0 0)) = extSN) by exact E2.
    assert (Hup : Forall (fun e => extSN < sn e) (skipn (S k) (nacks n))).
    { apply List.Forall_forall. intros e He.
      destruct (In_nth _ _ (mkNack 0 0) He) as (i & Hi & <-).
      rewrite length_skipn in Hi. rewrite nth_skipn.
      pose proof (sorted_nth Z.lt _ Hs k (S k + i)) as Hlt.
      rewrite length_map in Hlt. specialize (Hlt ltac:(lia)).
      change 0 with (sn (mkNack 0 0)) in Hlt. rewrite !map_nth in Hlt. lia. }
    rewrite <- (firstn_skipn k (nacks n)) at 3.
    rewrite Hcut, List.filter_app. cbn [List.filter].
    rewrite Hx, Z.eqb_refl. cbn [negb].
    rewrite List.Forall_forall in Hlo, Hup.
    rewrite !filter_all; [reflexivity | |];
      intros e He; apply negb_true_iff, Z.eqb_neq;
      [specialize (Hup e He) | specialize (Hlo e He)]; lia.
Qed.

Lemma remove_drops_the_number_witness :
  remove 7 (mkQueue [mkNack 5 1; mkNack 7 2; mkNack 9 0] 4)
  = mkQueue (List.filter (fun e => negb (sn e =? 7)) [mkNack 5 1; mkNack 7 2; mkNack 9 0]) 4.
Proof.
  apply (remove_drops_the_number 7 (mkQueue [mkNack 5 1; mkNack 7 2; mkNack 9 0] 4)).
  cbn. repeat constructor.
Defined.

Lemma cut_out {A} (before after : list A) (x : A) (k : nat) :
  length before = k ->
  firstn k (before ++ x :: after) ++ skipn (S k) (before ++ x :: after)
  = before ++ after.
Proof.
  intros <-. induction before as [|a before IH]; [reflexivity|].
  cbn [length app firstn skipn]. cbn [app]. f_equal. exact IH.
Qed.

(** Below the cache limit, removing a number right after it was pushed gives
    back the queue as it was. *)
Theorem remove_undoes_push (extSN : Z) (n : nackQueue) :
  StronglySorted Z.lt (map sn (nacks n)) -> ~ In extSN (map sn (nacks n)) ->
  len (nacks n) + 1 < maxNackCache ->
  remove extSN (push extSN n) = n.
Proof.
  intros Hs Hno Hcap.
  destruct (find_cut_absent (nacks n) extSN Hs Hno) as (Hr & _ & _ & Hlo & Hhi).
  set (k := Z.to_nat (find (nacks n) extSN)) in *.
  assert (E : push extSN n
              = mkQueue (firstn k (nacks n) ++ mkNack extSN 0 :: skipn k (nacks n))
                        (kfSN n)).
  { rewrite (push_nacks extSN n Hr (find_absent _ _ (proj1 Hr) Hno)). fold k.
    set (l1 := firstn _ _ ++ _).
    assert (Hl1 : len l1 = len (nacks n) + 1).
    { subst l1. unfold len. rewrite length_app. cbn [length].
      rewrite length_firstn, length_skipn. unfold len in Hr. lia. }
    replace (maxNackCache <=? len l1) with false
      by (symmetry; apply Z.leb_gt; lia).
    reflexivity. }
  rewrite E.
  assert (Hfind : find (firstn k (nacks n) ++ mkNack extSN 0 :: skipn k (nacks n)) extSN
                  = len (firstn k (nacks n))).
  { apply find_at_cut.
    - rewrite map_app. cbn [map sn]. apply sorted_insert.
      + rewrite <- map_app, firstn_skipn. now apply sorted_lt_le.
      + apply Forall_map. eapply List.Forall_impl; [|exact Hlo]. cbn. intros. lia.
      + apply Forall_map. eapply List.Forall_impl; [|exact Hhi]. cbn. intros. lia.
    - exact Hlo.
    - constructor; [cbn; lia|].
      eapply List.Forall_impl; [|exact Hhi]. cbn. intros. lia. }
  assert (Hlen : length (firstn k (nacks n)) = k)
    by (rewrite length_firstn; unfold len in Hr; lia).
  rewrite remove_nacks; cbn [nacks kfSN]; rewrite Hfind; unfold len;
    rewrite ?Nat2Z.id, ?Hlen.
  - destruct n as [l kf]. cbn [nacks kfSN] in *. f_equal.
    rewrite (cut_out _ _ _ _ Hlen). apply firstn_skipn.
  - rewrite length_app. cbn [length]. lia.
  - unfold snAt. rewrite Nat2Z.id, app_nth2, Hlen, Nat.sub_diag by lia.
    reflexivity.
Qed.

Lemma remove_undoes_push_witness :
  remove 6 (push 6 (mkQueue [mkNack 5 1; mkNack 7 0] 0)) = mkQueue [mkNack 5 1; mkNack 7 0] 0.
Proof.
  apply (remove_undoes_push 6 (mkQueue [mkNack 5 1; mkNack 7 0] 0)).
  - cbn. repeat constructor.
  - cbn. intros [H|[H|[]]]; discriminate.
  - vm_compute. reflexivity.
Defined.

Lemma pairs_cover_emitted_witness :
  concat (map asked (fst (snd (pairs 100 (mkQueue [mkNack 5 0; mkNack 7 1; mkNack 30 0] 0)))))
  = emitted 100 (nacks (mkQueue [mkNack 5 0; mkNack 7 1; mkNack 30 0] 0)).
Proof.
  apply (pairs_cover_emitted 100 (mkQueue [mkNack 5 0; mkNack 7 1; mkNack 30 0] 0)).
  - vm_compute. repeat constructor.
  - vm_compute. repeat constructor; discriminate.
Defined.

End NackFacts.

(** ** Packet bucket *)

Module BucketFacts.
Import Bucket.

Lemma u16_range x : 0 <= u16 x < 2 ^ 16.
Proof. unfold u16, wrap. apply Z.mod_pos_bound. lia. Qed.

Lemma u16_succ x : u16 x + 1 < 2 ^ 16 -> u16 (x + 1) = u16 x + 1.
Proof.
  intros H. unfold u16, wrap in *.
  rewrite Z.add_mod by lia.
  rewrite (Z.mod_small 1) by lia.
  apply Z.mod_small. pose proof (Z.mod_pos_bound x (2 ^ 16)). lia.
Qed.

Lemma wrap_slot (M pos0 : Z) :
  0 < M -> - M <= pos0 < 0 -> M + pos0 = pos0 mod M.
Proof.
  intros HM Hp. symmetry.
  replace pos0 with (M + pos0 + (-1) * M) at 1 by lia.
  rewrite Z_mod_plus_full. apply Z.mod_small. lia.
Qed.

Lemma getPos_slot b sn pos :
  wf b -> getPos sn b = Cont pos ->
  pos = slotOf b sn /\ 0 <= pos <= maxSteps b.
Proof.
  intros [HM Hs _ _]. unfold getPos, slotOf.
  pose proof (u16_range (headSN b - sn + 1)) as Hd.
  set (d := u16 (headSN b - sn + 1)) in *.
  destruct (Z.ltb_spec (step b - d) 0) as [Hneg|Hpos].
  - destruct (Z.ltb_spec (maxSteps b + 1) ((step b - d) * -1)); [discriminate|].
    intros [= <-]. split; [|lia].
    replace (maxSteps b + (step b - d) + 1) with (maxSteps b + 1 + (step b - d)) by lia.
    apply wrap_slot; lia.
  - intros [= <-]. split; [|lia].
    symmetry. apply Z.mod_small. lia.
Qed.

Lemma setPos_cases b sn :
  wf b -> 0 <= sn < 2 ^ 16 ->
  (maxSteps b + 1 <= u16 (headSN b - sn)
   /\ setPos sn b = Ret (b, (None, Some errPacketTooOld)))
  \/ (u16 (headSN b - sn) <= maxSteps b
      /\ setPos sn b = Cont (slotOf b sn)
      /\ 0 <= slotOf b sn <= maxSteps b).
Proof.
  intros [HM Hs _ _] Hsn. unfold setPos, slotOf.
  pose proof (u16_range (headSN b - sn)) as Hd.
  assert (HM16 : u16 (maxSteps b + 1) = maxSteps b + 1)
    by (apply Z.mod_small; lia).
  rewrite HM16.
  destruct (Z.leb_spec (maxSteps b + 1) (u16 (headSN b - sn))) as [Hold|Hin].
  - left. split; [lia | reflexivity].
  - right. split; [lia|].
    rewrite u16_succ by lia.
    set (d := u16 (headSN b - sn)) in *.
    assert (Hr : 0 <= (step b - (d + 1)) mod (maxSteps b + 1) <= maxSteps b)
      by (pose proof (Z.mod_pos_bound (step b - (d + 1)) (maxSteps b + 1)); lia).
    split; [|exact Hr]. f_equal.
    destruct (Z.ltb_spec (step b - (d + 1)) 0).
    + replace (maxSteps b + (step b - (d + 1)) + 1)
        with (maxSteps b + 1 + (step b - (d + 1))) by lia.
      apply wrap_slot; lia.
    + symmetry. apply Z.mod_small. lia.
Qed.

(** C7 (amended). On a well-formed bucket the slot [get] reads and the slot
    [set] writes for [sn] are both [step - (headSN - sn + 1)], the
    difference taken in 16 bits, reduced modulo [maxSteps + 1], the number
    of slots; it is a slot index. *)
Theorem slot_position_mod_slots (b : Bucket) (sn pos : Z) :
  wf b -> 0 <= sn < 2 ^ 16 ->
  (getPos sn b = Cont pos ->
     pos = (step b - u16 (headSN b - sn + 1)) mod (maxSteps b + 1)
     /\ 0 <= pos <= maxSteps b)
  /\ (setPos sn b = Cont pos ->
     pos = (step b - u16 (headSN b - sn + 1)) mod (maxSteps b + 1)
     /\ 0 <= pos <= maxSteps b).
Proof.
  intros Hwf Hsn. split.
  - intros Hg. exact (getPos_slot b sn pos Hwf Hg).
  - intros Hs. destruct (setPos_cases b sn Hwf Hsn) as [[_ E]|(_ & E & Hr)];
      rewrite E in Hs; [discriminate|].
    injection Hs as <-. split; [reflexivity | exact Hr].
Qed.

Lemma NewBucket_wf (bytes : list Z) :
  maxPktSize <= len bytes < 2 ^ 16 * maxPktSize -> wf (NewBucket bytes).
Proof.
  intros H. unfold NewBucket, maxPktSize in *.
  change (2 ^ 16) with 65536 in *.
  assert (H0 : 0 < 1500) by lia.
  assert (H1 : 1 <= len bytes / 1500)
    by (apply Z.div_le_lower_bound; lia).
  assert (H2 : len bytes / 1500 < 65536)
    by (apply Z.div_lt_upper_bound; lia).
  pose proof (Z.mul_div_le (len bytes) 1500 H0) as H3.
  constructor; cbn [maxSteps step buf headSN]; unfold maxPktSize;
    change (2 ^ 16) with 65536; lia.
Qed.

Lemma slot_position_mod_slots_witness :
  let b := NewBucket (zeros 6000) in
  getPos 0 b = Cont 3
  /\ 3 = (step b - u16 (headSN b - 0 + 1)) mod (maxSteps b + 1)
  /\ 0 <= 3 <= maxSteps b.
Proof.
  intros b.
  assert (Hwf : wf b).
  { constructor; vm_compute; repeat split; intros; discriminate. }
  assert (Hsn : 0 <= 0 < 2 ^ 16) by lia.
  split; [reflexivity|].
  exact (proj1 (slot_position_mod_slots b 0 3 Hwf Hsn) eq_refl).
Defined.

(** C7 (as stated, refuted). With four slots ([maxSteps = 3]), [step = 0]
    and [headSN = sn = 0] both [get] and [set] use slot 3, while
    [step - (headSN - sn + 1)] reduced modulo [maxSteps] is 2. *)
Lemma slot_position_not_mod_maxSteps :
  ~ (forall (b : Bucket) (sn pos : Z),
       wf b -> 0 <= sn < 2 ^ 16 ->
       (getPos sn b = Cont pos ->
          pos = (step b - u16 (headSN b - sn + 1)) mod maxSteps b)
       /\ (setPos sn b = Cont pos ->
          pos = (step b - u16 (headSN b - sn + 1)) mod maxSteps b)).
Proof.
  intros H.
  assert (Hwf : wf (NewBucket (zeros 6000)))
    by (apply NewBucket_wf; vm_compute; split; [discriminate | reflexivity]).
  assert (Hsn : 0 <= 0 < 2 ^ 16) by lia.
  destruct (H (NewBucket (zeros 6000)) 0 3 Hwf Hsn) as [Hg _].
  specialize (Hg eq_refl). vm_compute in Hg. discriminate.
Qed.

(** *** Reading a slot *)

Lemma firstn2_skipn (s : list Z) (n : nat) :
  (S n < length s)%nat ->
  firstn 2 (skipn n s) = [nth n s 0; nth (S n) s 0].
Proof.
  revert s. induction n as [|n IH]; intros s Hn.
  - destruct s as [|x [|y s]]; cbn in Hn; try lia. reflexivity.
  - destruct s as [|x s]; cbn in Hn; [lia|].
    cbn [skipn]. rewrite IH by lia. reflexivity.
Qed.

Lemma be_uint16_in_bounds {R} (s : list Z) (off : Z) :
  0 <= off -> off + 2 <= len s ->
  @be_uint16 R s off
  = Cont (nth (Z.to_nat off) s 0 * 256 + nth (Z.to_nat (off + 1)) s 0).
Proof.
  intros H0 H2. unfold be_uint16, slice, len in *.
  replace ((0 <=? off) && (off <=? off + 2) && (off + 2 <=? Z.of_nat (length s)))
    with true
    by (symmetry; rewrite !andb_true_iff, !Z.leb_le; lia).
  cbn [bind]. replace (Z.to_nat (off + 2 - off)) with 2%nat by lia.
  rewrite firstn2_skipn by lia.
  replace (Z.to_nat (off + 1)) with (S (Z.to_nat off)) by lia.
  reflexivity.
Qed.

Lemma slot_in_bounds b pos :
  wf b -> 0 <= pos <= maxSteps b ->
  0 <= pos * maxPktSize /\ pos * maxPktSize + maxPktSize <= len (buf b).
Proof.
  intros [_ _ Hb _] Hp. unfold maxPktSize in *. nia.
Qed.

Lemma slot_seen {R} b pos :
  wf b -> 0 <= pos <= maxSteps b ->
  @be_uint16 R (buf b) (pos * maxPktSize + 4) = Cont (slotSeq b pos).
Proof.
  intros Hwf Hp. destruct (slot_in_bounds b pos Hwf Hp) as [H0 H1].
  unfold maxPktSize in *.
  rewrite be_uint16_in_bounds by lia. unfold slotSeq, maxPktSize.
  now replace (pos * 1500 + 4 + 1) with (pos * 1500 + 5) by lia.
Qed.

(** [set] on a well-formed bucket: too old, already there, or stored (or a
    panic when the packet does not fit behind the slot). *)
Lemma set_cases b sn pkt :
  wf b -> 0 <= sn < 2 ^ 16 ->
  (maxSteps b + 1 <= u16 (headSN b - sn)
   /\ run (set sn pkt b) = Ok (b, (None, Some errPacketTooOld)))
  \/ (u16 (headSN b - sn) <= maxSteps b /\ slotSeq b (slotOf b sn) = sn
      /\ run (set sn pkt b) = Ok (b, (None, Some errRTXPacket)))
  \/ (u16 (headSN b - sn) <= maxSteps b /\ slotSeq b (slotOf b sn) <> sn
      /\ (run (set sn pkt b) = Panic
          \/ exists b' out, run (set sn pkt b) = Ok (b', (Some out, None)))).
Proof.
  intros Hwf Hsn. unfold set.
  destruct (setPos_cases b sn Hwf Hsn) as [[Hold E]|(Hin & E & Hr)]; rewrite E.
  - left. split; [exact Hold | reflexivity].
  - right. cbn [bind].
    destruct (slot_in_bounds b _ Hwf Hr) as [H0 H1].
    replace ((len (buf b) <? slotOf b sn * maxPktSize)
             || (slotOf b sn * maxPktSize <? 0)) with false
      by (symmetry; apply orb_false_iff; split; apply Z.ltb_ge;
          unfold maxPktSize in *; lia).
    rewrite (slot_seen b _ Hwf Hr). cbn [bind].
    destruct (Z.eqb_spec (slotSeq b (slotOf b sn)) sn) as [Heq|Hne].
    + left. split; [exact Hin|]. split; [exact Heq | reflexivity].
    + right. split; [exact Hin|]. split; [exact Hne|].
      unfold be_put_uint16, copy_at, slice.
      repeat match goal with
             | |- context [if ?c then _ else _] => destruct c; cbn [bind run]
             end; eauto.
Qed.

(** C8 (amended). On a well-formed bucket that an earlier [AddPacket] has
    initialised, [AddPacket(pkt, sn, false)] fails with the too-old error
    exactly when [headSN - sn], taken in 16 bits, is at least
    [maxSteps + 1]; when the slot computed for [sn] holds a packet (its
    stored length is not zero), the call fails with the already-received
    error exactly when [sn] is not too old and the sequence number embedded
    in that slot is [sn]; and whenever the call returns an error, that error
    is one of the two, no bytes are returned and the buffer, [headSN] and
    [step] are as they were. *)
Theorem AddPacket_out_of_order_errors (b : Bucket) (pkt : list Z) (sn : Z) :
  wf b -> init b = true -> 0 <= sn < 2 ^ 16 ->
  let r := AddPacket pkt sn false b in
  (r = Ok (b, (None, Some errPacketTooOld))
     <-> maxSteps b + 1 <= u16 (headSN b - sn))
  /\ (slotLen b (slotOf b sn) <> 0 ->
      (r = Ok (b, (None, Some errRTXPacket))
       <-> u16 (headSN b - sn) <= maxSteps b /\ slotSeq b (slotOf b sn) = sn))
  /\ (forall b' out e,
        r = Ok (b', (out, Some e)) ->
        (e = errPacketTooOld \/ e = errRTXPacket) /\ out = None
        /\ buf b' = buf b /\ headSN b' = headSN b /\ step b' = step b).
Proof.
  intros Hwf Hinit Hsn r. subst r. unfold AddPacket. rewrite Hinit.
  cbn [negb].
  destruct (set_cases b sn pkt Hwf Hsn)
    as [[Hold E]|[(Hin & Heq & E)|(Hin & Hne & [E|(b1 & out1 & E)])]];
    rewrite E.
  - split; [|split].
    + split; [intros _; exact Hold | reflexivity].
    + intros _. split; [discriminate | lia].
    + intros b' out e [= <- <- <-]. auto.
  - split; [|split].
    + split; [discriminate | lia].
    + intros _. split; [auto | reflexivity].
    + intros b' out e [= <- <- <-]. auto.
  - split; [|split].
    + split; [discriminate | lia].
    + intros _. split; [discriminate | intros [_ ?]; contradiction].
    + discriminate.
  - split; [|split].
    + split; [discriminate | lia].
    + intros _. split; [discriminate | intros [_ ?]; contradiction].
    + discriminate.
Qed.

Lemma afterFirst_spec :
  AddPacket (rtp 1) 1 true (NewBucket (zeros 6000))
  = Ok (afterFirst, (Some (rtp 1), None)).
Proof. vm_compute. reflexivity. Qed.

Lemma afterFirst_wf : wf afterFirst.
Proof.
  constructor; cbn [maxSteps step buf headSN afterFirst]; try lia.
  vm_compute. discriminate.
Qed.

Lemma AddPacket_out_of_order_errors_witness :
  AddPacket (rtp 1) 1 false afterFirst = Ok (afterFirst, (None, Some errRTXPacket))
  <-> u16 (headSN afterFirst - 1) <= maxSteps afterFirst
      /\ slotSeq afterFirst (slotOf afterFirst 1) = 1.
Proof.
  assert (Hwf : wf afterFirst).
  { constructor; vm_compute; repeat split; intros; discriminate. }
  assert (Hsn : 0 <= 1 < 2 ^ 16) by lia.
  assert (Hfull : slotLen afterFirst (slotOf afterFirst 1) <> 0)
    by (vm_compute; discriminate).
  exact (proj1 (proj2
    (AddPacket_out_of_order_errors afterFirst (rtp 1) 1 Hwf eq_refl Hsn))
    Hfull).
Defined.

(** C8 (as stated, refuted). The very first call initialises [headSN] to
    [sn - 1] before anything else: made with [latest = false] it fails with
    the too-old error and yet leaves [headSN] changed. *)
Lemma AddPacket_first_call_moves_headSN :
  ~ (forall (b b' : Bucket) (pkt : list Z) (sn : Z) out e,
       wf b -> 0 <= sn < 2 ^ 16 ->
       AddPacket pkt sn false b = Ok (b', (out, Some e)) ->
       buf b' = buf b /\ headSN b' = headSN b /\ step b' = step b).
Proof.
  intros H.
  assert (Hwf : wf (NewBucket (zeros 6000)))
    by (apply NewBucket_wf; vm_compute; split; [discriminate | reflexivity]).
  assert (Hsn : 0 <= 5 < 2 ^ 16) by lia.
  assert (E : AddPacket (rtp 5) 5 false (NewBucket (zeros 6000))
              = Ok (mkBucket (zeros 6000) true 0 4 3, (None, Some errPacketTooOld)))
    by (vm_compute; reflexivity).
  destruct (H _ _ _ _ _ _ Hwf Hsn E) as (_ & Hh & _).
  vm_compute in Hh. discriminate.
Qed.

(** C1 (evaluation). A slot that was never written is all zeros, so its
    bytes 4 and 5 spell sequence number 0: [get(0)] hands back the empty
    slice of such a slot instead of nil, and [GetPacket] reports a packet of
    length 0 with a nil error for a sequence number that was never stored,
    both on a fresh bucket and after packets have been stored.  The bytes
    returned hold no sequence number at all. *)
Theorem get_finds_unstored_zero :
  run (get 0 (NewBucket (zeros 6000))) = Ok (Some [])
  /\ GetPacket [] 1500 0 (NewBucket (zeros 6000)) = Ok ([], 0, None)
  /\ run (get 0 afterFirst) = Ok (Some [])
  /\ GetPacket [] 1500 0 afterFirst = Ok ([], 0, None)
  /\ seqOf [] = None.
Proof. vm_compute. repeat split; reflexivity. Qed.

(** *** What the guard of [get] does give *)

Lemma seqOf_nth (p : list Z) :
  4 <= len p -> seqOf p = Some (nth 2 p 0 * 256 + nth 3 p 0).
Proof.
  unfold len. destruct p as [|a [|b [|c [|d p]]]]; cbn [length]; try lia.
  reflexivity.
Qed.

(** [get] on a well-formed bucket: nil, or the bytes of a slot whose embedded
    sequence number is the one asked for (or a panic, when the stored length
    runs past the buffer). *)
Lemma get_cases b sn :
  wf b ->
  run (get sn b) = Ok None
  \/ exists pos,
       0 <= pos <= maxSteps b /\ slotSeq b pos = sn
       /\ (run (get sn b) = Panic
           \/ run (get sn b)
              = Ok (Some (firstn (Z.to_nat (slotLen b pos))
                            (skipn (Z.to_nat (pos * maxPktSize + 2)) (buf b))))).
Proof.
  intros Hwf. unfold get.
  destruct (getPos sn b) as [pos| [|] |] eqn:Epos; cbn [bind run].
  - destruct (getPos_slot b sn pos Hwf Epos) as [_ Hr].
    destruct (slot_in_bounds b pos Hwf Hr) as [H0 H1].
    replace (len (buf b) <? pos * maxPktSize) with false
      by (symmetry; apply Z.ltb_ge; unfold maxPktSize in *; lia).
    rewrite (slot_seen b pos Hwf Hr). cbn [bind].
    destruct (Z.eqb_spec (slotSeq b pos) sn) as [Heq|Hne]; cbn [negb run];
      [|now left].
    right. exists pos. split; [exact Hr|]. split; [exact Heq|].
    rewrite be_uint16_in_bounds by (unfold maxPktSize in *; lia).
    cbn [bind]. fold (slotLen b pos). unfold slice.
    destruct (_ && _); cbn [bind run]; [right | now left].
    do 3 f_equal. lia.
  - unfold getPos in Epos.
    destruct (_ <? 0); [destruct (_ <? _)|]; discriminate.
  - now left.
  - unfold getPos in Epos.
    destruct (_ <? 0); [destruct (_ <? _)|]; discriminate.
Qed.

(** A packet of four bytes or more returned by [get(sn)] carries [sn] in its
    sequence-number field. *)
Lemma get_embedded_seq b sn p :
  wf b -> run (get sn b) = Ok (Some p) -> 4 <= len p -> seqOf p = Some sn.
Proof.
  intros Hwf Hget Hlen.
  destruct (get_cases b sn Hwf) as [E|(pos & Hr & Hseq & [E|E])];
    rewrite E in Hget; try discriminate.
  injection Hget as <-.
  rewrite seqOf_nth by exact Hlen. f_equal. rewrite <- Hseq.
  unfold len in Hlen. rewrite length_firstn in Hlen.
  unfold slotSeq. rewrite !nth_firstn.
  replace (2 <? Z.to_nat (slotLen b pos))%nat with true
    by (symmetry; apply Nat.ltb_lt; lia).
  replace (3 <? Z.to_nat (slotLen b pos))%nat with true
    by (symmetry; apply Nat.ltb_lt; lia).
  rewrite !nth_skipn.
  destruct (slot_in_bounds b pos Hwf Hr) as [H0 _].
  replace (Z.to_nat (pos * maxPktSize + 2) + 2)%nat
    with (Z.to_nat (pos * maxPktSize + 4)) by lia.
  replace (Z.to_nat (pos * maxPktSize + 2) + 3)%nat
    with (Z.to_nat (pos * maxPktSize + 5)) by lia.
  reflexivity.
Qed.

(** When no slot spells [sn] in its bytes 4 and 5, [GetPacket] answers
    not-found. *)
Lemma GetPacket_not_found b sn dst dstCap :
  wf b ->
  (forall pos, 0 <= pos <= maxSteps b -> slotSeq b pos <> sn) ->
  GetPacket dst dstCap sn b = Ok (dst, 0, Some errPacketNotFound).
Proof.
  intros Hwf Hno. unfold GetPacket.
  destruct (get_cases b sn Hwf) as [E|(pos & Hr & Hseq & _)].
  - now rewrite E.
  - exfalso. exact (Hno pos Hr Hseq).
Qed.

(** The slot an in-order packet is pushed to is the one the formula names
    for it afterwards. *)
Lemma push_slot b pkt b' out :
  wf b -> run (push pkt b) = Ok (b', (out, None)) ->
  slotOf b' (headSN b') = step b.
Proof.
  intros [HM Hs _ Hh] Hpush.
  assert (Hstep : step b' = (if maxSteps b <? step b + 1 then 0 else step b + 1)
                  /\ headSN b' = headSN b /\ maxSteps b' = maxSteps b).
  { unfold push, be_put_uint16, copy_at, slice in Hpush.
    repeat match type of Hpush with
           | context [if ?c && ?d then _ else _] =>
               destruct (c && d); cbn [bind run] in Hpush
           end; try discriminate.
    injection Hpush as <- _. cbn. auto. }
  destruct Hstep as (Hst & Hhd & Hms). unfold slotOf. rewrite Hst, Hhd, Hms.
  replace (headSN b - headSN b + 1) with 1 by lia.
  change (u16 1) with 1.
  destruct (Z.ltb_spec (maxSteps b) (step b + 1)).
  - replace (step b) with (maxSteps b) by lia.
    replace (0 - 1) with (maxSteps b + (-1) * (maxSteps b + 1)) by lia.
    rewrite Z_mod_plus_full. apply Z.mod_small. lia.
  - replace (step b + 1 - 1) with (step b) by lia.
    apply Z.mod_small. lia.
Qed.

(** [copy] into a slice with room for all of [src]. *)
Lemma copy_at_fits {R} (dst : list Z) (off : Z) (src : list Z) :
  0 <= off -> off + len src <= len dst ->
  @copy_at R dst off src = Cont (copy_bytes off src dst).
Proof.
  intros H0 H1. unfold copy_at, copy_bytes, len in *.
  replace ((0 <=? off) && (off <=? Z.of_nat (length dst))) with true
    by (symmetry; apply andb_true_iff; split; apply Z.leb_le; lia).
  rewrite Nat.min_r by lia. now rewrite firstn_all.
Qed.

Lemma copy_bytes_length (off : Z) (src dst : list Z) :
  0 <= off -> off + len src <= len dst ->
  len (copy_bytes off src dst) = len dst.
Proof.
  intros H0 H1. unfold copy_bytes, len in *.
  rewrite !length_app, length_firstn, length_skipn. lia.
Qed.

Lemma copy_bytes_nth (off : Z) (src dst : list Z) (i : nat) :
  0 <= off -> off + len src <= len dst ->
  nth i (copy_bytes off src dst) 0
  = if (Z.to_nat off <=? i)%nat && (i <? Z.to_nat off + length src)%nat
    then nth (i - Z.to_nat off) src 0 else nth i dst 0.
Proof.
  intros H0 H1. unfold copy_bytes, len in *.
  assert (Hf : length (firstn (Z.to_nat off) dst) = Z.to_nat off)
    by (rewrite length_firstn; lia).
  destruct (Nat.leb_spec (Z.to_nat off) i) as [Hle|Hlt]; cbn [andb].
  - rewrite app_nth2 by lia. rewrite Hf.
    destruct (Nat.ltb_spec i (Z.to_nat off + length src)) as [Hin|Hout].
    + rewrite app_nth1 by lia. reflexivity.
    + rewrite app_nth2 by lia. rewrite nth_skipn. f_equal. lia.
  - rewrite app_nth1 by lia. rewrite nth_firstn.
    now replace (i <? Z.to_nat off)%nat with true by (symmetry; apply Nat.ltb_lt; lia).
Qed.

(** Two lists that agree on a stretch have the same slice there. *)
Lemma segment_ext (a b : list Z) (lo n : nat) :
  (lo + n <= length a)%nat -> (lo + n <= length b)%nat ->
  (forall i, (lo <= i < lo + n)%nat -> nth i a 0 = nth i b 0) ->
  firstn n (skipn lo a) = firstn n (skipn lo b).
Proof.
  intros Ha Hb Hnth.
  apply (nth_ext _ _ 0 0).
  - rewrite !length_firstn, !length_skipn. lia.
  - intros i Hi. rewrite length_firstn, length_skipn in Hi.
    rewrite !nth_firstn.
    replace (i <? n)%nat with true by (symmetry; apply Nat.ltb_lt; lia).
    rewrite !nth_skipn. apply Hnth. lia.
Qed.

Lemma segment_self (p rest : list Z) (pre : list Z) :
  firstn (length p) (skipn (length pre) (pre ++ p ++ rest)) = p.
Proof.
  rewrite List.skipn_app, List.skipn_all, Nat.sub_diag. cbn [app skipn].
  change (drop 0 (p ++ rest)) with (p ++ rest).
  rewrite List.firstn_app, List.firstn_all, Nat.sub_diag. cbn [firstn]. apply app_nil_r.
Qed.

Section Written.
Variables (off : Z) (pkt buf : list Z).
Hypothesis Hoff : 0 <= off.
Hypothesis Hroom : off + 2 + len pkt <= len buf.

Lemma written_length : len (written off pkt buf) = len buf.
Proof.
  unfold written.
  assert (Hin : len (copy_bytes off [u8 (Z.shiftr (u16 (len pkt)) 8); u8 (u16 (len pkt))] buf)
                = len buf)
    by (apply copy_bytes_length; unfold len in *; cbn [length]; lia).
  rewrite copy_bytes_length; lia.
Qed.

Lemma written_nth (i : nat) :
  nth i (written off pkt buf) 0
  = if (i <? Z.to_nat off)%nat || (Z.to_nat (off + 2 + len pkt) <=? i)%nat
    then nth i buf 0
    else if (i =? Z.to_nat off)%nat then u8 (Z.shiftr (u16 (len pkt)) 8)
    else if (i =? Z.to_nat (off + 1))%nat then u8 (u16 (len pkt))
    else nth (i - Z.to_nat (off + 2)) pkt 0.
Proof.
  unfold written.
  assert (Hin : len (copy_bytes off [u8 (Z.shiftr (u16 (len pkt)) 8); u8 (u16 (len pkt))] buf)
                = len buf)
    by (apply copy_bytes_length; unfold len in *; cbn [length]; lia).
  rewrite copy_bytes_nth by lia.
  rewrite copy_bytes_nth by (unfold len in *; cbn [length]; lia).
  cbn [length]. unfold len in *.
  destruct (Nat.ltb_spec i (Z.to_nat off)); cbn [orb].
  - replace (Z.to_nat (off + 2) <=? i)%nat with false
      by (symmetry; apply Nat.leb_gt; lia).
    replace (Z.to_nat off <=? i)%nat with false
      by (symmetry; apply Nat.leb_gt; lia).
    reflexivity.
  - destruct (Nat.leb_spec (Z.to_nat (off + 2 + Z.of_nat (length pkt))) i).
    + replace (Z.to_nat (off + 2) <=? i)%nat with true
        by (symmetry; apply Nat.leb_le; lia).
      replace (i <? Z.to_nat (off + 2) + length pkt)%nat with false
        by (symmetry; apply Nat.ltb_ge; lia).
      replace (Z.to_nat off <=? i)%nat with true
        by (symmetry; apply Nat.leb_le; lia).
      replace (i <? Z.to_nat off + 2)%nat with false
        by (symmetry; apply Nat.ltb_ge; lia).
      reflexivity.
    + destruct (Nat.eqb_spec i (Z.to_nat off)) as [->|Hn0].
      * replace (Z.to_nat (off + 2) <=? Z.to_nat off)%nat with false
          by (symmetry; apply Nat.leb_gt; lia).
        rewrite Nat.leb_refl.
        replace (Z.to_nat off <? Z.to_nat off + 2)%nat with true
          by (symmetry; apply Nat.ltb_lt; lia).
        now rewrite Nat.sub_diag.
      * destruct (Nat.eqb_spec i (Z.to_nat (off + 1))) as [->|Hn1].
        -- replace (Z.to_nat (off + 2) <=? Z.to_nat (off + 1))%nat with false
             by (symmetry; apply Nat.leb_gt; lia).
           replace (Z.to_nat off <=? Z.to_nat (off + 1))%nat with true
             by (symmetry; apply Nat.leb_le; lia).
           replace (Z.to_nat (off + 1) <? Z.to_nat off + 2)%nat with true
             by (symmetry; apply Nat.ltb_lt; lia).
           replace (Z.to_nat (off + 1) - Z.to_nat off)%nat with 1%nat by lia.
           reflexivity.
        -- replace (Z.to_nat (off + 2) <=? i)%nat with true
             by (symmetry; apply Nat.leb_le; lia).
           replace (i <? Z.to_nat (off + 2) + length pkt)%nat with true
             by (symmetry; apply Nat.ltb_lt; lia).
           reflexivity.
Qed.

Lemma written_packet :
  firstn (Z.to_nat (len pkt)) (skipn (Z.to_nat (off + 2)) (written off pkt buf)) = pkt.
Proof.
  unfold written, copy_bytes at 1.
  set (inner := copy_bytes off _ buf).
  assert (Hl : length (firstn (Z.to_nat (off + 2)) inner) = Z.to_nat (off + 2)).
  { rewrite length_firstn.
    assert (len inner = len buf)
      by (apply copy_bytes_length; unfold len in *; cbn [length]; lia).
    unfold len in *. lia. }
  rewrite <- Hl at 1. unfold len. rewrite Nat2Z.id.
  apply segment_self.
Qed.

Lemma written_size :
  len pkt < 2 ^ 16 ->
  nth (Z.to_nat off) (written off pkt buf) 0 * 256
  + nth (Z.to_nat (off + 1)) (written off pkt buf) 0 = len pkt.
Proof.
  intros Hlen. rewrite !written_nth.
  replace (Z.to_nat off <? Z.to_nat off)%nat with false
    by (symmetry; apply Nat.ltb_ge; lia).
  replace (Z.to_nat (off + 1) <? Z.to_nat off)%nat with false
    by (symmetry; apply Nat.ltb_ge; lia).
  replace (Z.to_nat (off + 2 + len pkt) <=? Z.to_nat off)%nat with false
    by (symmetry; apply Nat.leb_gt; unfold len; lia).
  replace (Z.to_nat (off + 2 + len pkt) <=? Z.to_nat (off + 1))%nat with false
    by (symmetry; apply Nat.leb_gt; unfold len; lia).
  cbn [orb]. rewrite Nat.eqb_refl.
  replace (Z.to_nat (off + 1) =? Z.to_nat off)%nat with false
    by (symmetry; apply Nat.eqb_neq; lia).
  rewrite Nat.eqb_refl.
  assert (H0 : 0 <= len pkt) by (unfold len; lia).
  unfold u8, u16, wrap. rewrite Z.shiftr_div_pow2 by lia.
  change (2 ^ 16) with 65536 in *. change (2 ^ 8) with 256.
  rewrite (Z.mod_small (len pkt) 65536) by lia.
  rewrite (Z.mod_small (len pkt / 256) 256)
    by (split; [apply Z.div_pos; lia | apply Z.div_lt_upper_bound; lia]).
  pose proof (Z.div_mod (len pkt) 256). lia.
Qed.

End Written.

Lemma be_put_uint16_fits {R} (s : list Z) (off v : Z) :
  0 <= off -> off + 2 <= len s ->
  @be_put_uint16 R s off v = Cont (copy_bytes off [u8 (Z.shiftr v 8); u8 v] s).
Proof.
  intros H0 H1. unfold be_put_uint16.
  replace ((0 <=? off) && (off + 2 <=? len s)) with true
    by (symmetry; apply andb_true_iff; split; apply Z.leb_le; lia).
  apply copy_at_fits; [exact H0|]. unfold len in *; cbn [length]; lia.
Qed.

Lemma slice_in_bounds {R} (s : list Z) (lo hi : Z) :
  0 <= lo <= hi -> hi <= len s ->
  @slice R s lo hi = Cont (firstn (Z.to_nat (hi - lo)) (skipn (Z.to_nat lo) s)).
Proof.
  intros H0 H1. unfold slice.
  replace ((0 <=? lo) && (lo <=? hi) && (hi <=? len s)) with true; [reflexivity|].
  symmetry. rewrite !andb_true_iff. repeat split; apply Z.leb_le; lia.
Qed.

(** The three statements [push] and [set] share: length, bytes, returned
    view. *)
Lemma store_slot {R A} (s pkt : list Z) (off : Z) (k : list Z -> list Z -> flow R A) :
  0 <= off -> off + maxPktSize <= len s -> len pkt <= maxPktSize - 2 ->
  (buf1 <- be_put_uint16 s off (u16 (len pkt)) ;;
   buf2 <- copy_at buf1 (off + 2) pkt ;;
   out <- slice buf2 (off + 2) (off + 2 + len pkt) ;;
   k buf2 out)
  = k (written off pkt s) pkt.
Proof.
  intros H0 H1 H2. unfold maxPktSize in *.
  assert (Hp : 0 <= len pkt) by (unfold len; lia).
  rewrite be_put_uint16_fits by lia. cbn [bind].
  assert (Hin : len (copy_bytes off [u8 (Z.shiftr (u16 (len pkt)) 8); u8 (u16 (len pkt))] s)
                = len s)
    by (apply copy_bytes_length; unfold len in *; cbn [length]; lia).
  rewrite copy_at_fits by lia. cbn [bind]. fold (written off pkt s).
  rewrite slice_in_bounds by (rewrite ?written_length; lia). cbn [bind].
  replace (off + 2 + len pkt - (off + 2)) with (len pkt) by lia.
  rewrite written_packet by lia. reflexivity.
Qed.

Lemma push_stores (b : Bucket) (pkt : list Z) :
  wf b -> len pkt <= maxPktSize - 2 ->
  push pkt b
  = Cont (set_step (nextStep b)
            (set_buf (written (step b * maxPktSize) pkt (buf b)) b),
          (Some pkt, None)).
Proof.
  intros Hwf Hlen. destruct (slot_in_bounds b (step b) Hwf (wf_step b Hwf)) as [H0 H1].
  unfold push.
  replace (step b * maxPktSize + 2 + len pkt)
    with (step b * maxPktSize + 2 + len pkt) by lia.
  exact (store_slot (buf b) pkt (step b * maxPktSize)
           (fun buf2 out => Cont (set_step (nextStep b) (set_buf buf2 b), (Some out, None)))
           H0 H1 Hlen).
Qed.

Lemma set_stores (b : Bucket) (pkt : list Z) (sn : Z) :
  wf b -> 0 <= sn < 2 ^ 16 -> len pkt <= maxPktSize - 2 ->
  u16 (headSN b - sn) <= maxSteps b -> slotSeq b (slotOf b sn) <> sn ->
  set sn pkt b
  = Cont (set_buf (written (slotOf b sn * maxPktSize) pkt (buf b)) b,
          (Some pkt, None)).
Proof.
  intros Hwf Hsn Hlen Hwin Hnew.
  destruct (setPos_cases b sn Hwf Hsn) as [[Hold _]|(_ & Hpos & Hr)]; [lia|].
  destruct (slot_in_bounds b _ Hwf Hr) as [H0 H1].
  unfold set. rewrite Hpos. cbn [bind].
  replace ((len (buf b) <? slotOf b sn * maxPktSize) || (slotOf b sn * maxPktSize <? 0))
    with false
    by (symmetry; apply orb_false_iff; split; apply Z.ltb_ge; unfold maxPktSize in *; lia).
  rewrite (slot_seen b _ Hwf Hr). cbn [bind].
  destruct (Z.eqb_spec (slotSeq b (slotOf b sn)) sn) as [E|_]; [contradiction|].
  exact (store_slot (buf b) pkt (slotOf b sn * maxPktSize)
           (fun buf2 out => Cont (set_buf buf2 b, (Some out, None))) H0 H1 Hlen).
Qed.

(** Inside the window of the last [maxSteps + 1] numbers, [get] looks at
    the slot the formula names. *)
Lemma getPos_window (b : Bucket) (sn : Z) :
  wf b -> u16 (headSN b - sn) <= maxSteps b ->
  getPos sn b = Cont (slotOf b sn) /\ 0 <= slotOf b sn <= maxSteps b
  /\ slotOf b sn
     = (if step b - (u16 (headSN b - sn) + 1) <? 0
        then step b - (u16 (headSN b - sn) + 1) + (maxSteps b + 1)
        else step b - (u16 (headSN b - sn) + 1)).
Proof.
  intros [HM Hs _ Hh] Hwin.
  pose proof (u16_range (headSN b - sn)) as Hd.
  assert (Hsucc : u16 (headSN b - sn + 1) = u16 (headSN b - sn) + 1)
    by (apply u16_succ; lia).
  unfold getPos, slotOf. rewrite Hsucc.
  set (d := u16 (headSN b - sn)) in *.
  destruct (Z.ltb_spec (step b - (d + 1)) 0) as [Hneg|Hpos].
  - replace (maxSteps b + 1 <? (step b - (d + 1)) * -1) with false
      by (symmetry; apply Z.ltb_ge; lia).
    assert (E : (step b - (d + 1)) mod (maxSteps b + 1)
                = step b - (d + 1) + (maxSteps b + 1)).
    { rewrite <- (wrap_slot (maxSteps b + 1) (step b - (d + 1))) by lia. lia. }
    rewrite E. split; [f_equal; lia|]. split; lia.
  - rewrite Z.mod_small by lia. split; [reflexivity|]. split; lia.
Qed.

Lemma get_reads (b : Bucket) (sn pos : Z) :
  wf b -> getPos sn b = Cont pos -> slotSeq b pos = sn ->
  0 <= slotLen b pos -> pos * maxPktSize + 2 + slotLen b pos <= len (buf b) ->
  run (get sn b)
  = Ok (Some (firstn (Z.to_nat (slotLen b pos))
                (skipn (Z.to_nat (pos * maxPktSize + 2)) (buf b)))).
Proof.
  intros Hwf Epos Hseq Hsz0 Hsz.
  destruct (getPos_slot b sn pos Hwf Epos) as [_ Hr].
  destruct (slot_in_bounds b pos Hwf Hr) as [H0 H1].
  unfold get. rewrite Epos. cbn [bind].
  replace (len (buf b) <? pos * maxPktSize) with false
    by (symmetry; apply Z.ltb_ge; unfold maxPktSize in *; lia).
  rewrite (slot_seen b pos Hwf Hr). cbn [bind].
  rewrite Hseq, Z.eqb_refl. cbn [negb].
  rewrite be_uint16_in_bounds by (unfold maxPktSize in *; lia).
  cbn [bind]. fold (slotLen b pos).
  rewrite slice_in_bounds by lia. cbn [bind run].
  do 3 f_equal. lia.
Qed.

Lemma get_inv (b : Bucket) (sn : Z) (p : list Z) :
  wf b -> run (get sn b) = Ok (Some p) ->
  exists pos,
    getPos sn b = Cont pos /\ slotSeq b pos = sn /\ slotLen b pos = len p
    /\ pos * maxPktSize + 2 + len p <= len (buf b)
    /\ p = firstn (Z.to_nat (len p)) (skipn (Z.to_nat (pos * maxPktSize + 2)) (buf b)).
Proof.
  intros Hwf Hget. unfold get in Hget.
  destruct (getPos sn b) as [pos| [|] |] eqn:Epos; cbn [bind run] in Hget;
    try discriminate;
    [|unfold getPos in Epos; destruct (_ <? 0); [destruct (_ <? _)|]; discriminate].
  destruct (getPos_slot b sn pos Hwf Epos) as [_ Hr].
  destruct (slot_in_bounds b pos Hwf Hr) as [H0 H1].
  exists pos. split; [reflexivity|].
  replace (len (buf b) <? pos * maxPktSize) with false in Hget
    by (symmetry; apply Z.ltb_ge; unfold maxPktSize in *; lia).
  rewrite (slot_seen b pos Hwf Hr) in Hget. cbn [bind] in Hget.
  destruct (Z.eqb_spec (slotSeq b pos) sn) as [Heq|Hne]; cbn [negb run] in Hget;
    [|discriminate].
  rewrite be_uint16_in_bounds in Hget by (unfold maxPktSize in *; lia).
  cbn [bind] in Hget. fold (slotLen b pos) in Hget.
  unfold slice in Hget.
  destruct ((0 <=? pos * maxPktSize + 2)
            && (pos * maxPktSize + 2 <=? pos * maxPktSize + 2 + slotLen b pos)
            && (pos * maxPktSize + 2 + slotLen b pos <=? len (buf b))) eqn:Eb;
    cbn [bind run] in Hget; [|discriminate].
  apply andb_true_iff in Eb. destruct Eb as [Eb E3].
  apply andb_true_iff in Eb. destruct Eb as [E1 E2].
  apply Z.leb_le in E1, E2, E3.
  injection Hget as Hp.
  replace (pos * maxPktSize + 2 + slotLen b pos - (pos * maxPktSize + 2))
    with (slotLen b pos) in Hp by lia.
  assert (Hl : len p = slotLen b pos).
  { rewrite <- Hp. unfold len in *. rewrite length_firstn, length_skipn. lia. }
  rewrite Hl. repeat split; auto; try lia.
Qed.

Section Slots.
Variables (b c : Bucket) (pkt : list Z) (wpos : Z).
Hypothesis Hwf : wf b.
Hypothesis Hw : 0 <= wpos <= maxSteps b.
Hypothesis Hlen : len pkt <= maxPktSize - 2.
Hypothesis Hbuf : buf c = written (wpos * maxPktSize) pkt (buf b).

Lemma written_len_buf : len (buf c) = len (buf b).
Proof.
  destruct (slot_in_bounds b wpos Hwf Hw) as [H0 H1].
  rewrite Hbuf. apply written_length; unfold maxPktSize in *; lia.
Qed.

Lemma written_slotLen : slotLen c wpos = len pkt.
Proof.
  destruct (slot_in_bounds b wpos Hwf Hw) as [H0 H1].
  unfold slotLen. rewrite Hbuf.
  apply written_size; unfold maxPktSize in *; change (2 ^ 16) with 65536; lia.
Qed.

Lemma written_slotSeq (sn : Z) : seqOf pkt = Some sn -> slotSeq c wpos = sn.
Proof.
  intros Hseq.
  destruct (slot_in_bounds b wpos Hwf Hw) as [H0 H1].
  assert (H4 : 4 <= len pkt).
  { destruct pkt as [|? [|? [|? [|? ?]]]]; try discriminate.
    unfold len. cbn [length]. lia. }
  rewrite seqOf_nth in Hseq by exact H4. injection Hseq as <-.
  unfold slotSeq. rewrite Hbuf.
  unfold maxPktSize in *. unfold len in *.
  rewrite !written_nth by (unfold len; lia).
  repeat match goal with
  | |- context [(?x <? ?y)%nat] =>
      replace (x <? y)%nat with false by (symmetry; apply Nat.ltb_ge; lia)
  | |- context [(?x <=? ?y)%nat] =>
      replace (x <=? y)%nat with false by (symmetry; apply Nat.leb_gt; unfold len; lia)
  | |- context [(?x =? ?y)%nat] =>
      replace (x =? y)%nat with false by (symmetry; apply Nat.eqb_neq; lia)
  end.
  cbn [orb].
  replace (Z.to_nat (wpos * 1500 + 4) - Z.to_nat (wpos * 1500 + 2))%nat with 2%nat by lia.
  replace (Z.to_nat (wpos * 1500 + 5) - Z.to_nat (wpos * 1500 + 2))%nat with 3%nat by lia.
  reflexivity.
Qed.

Lemma written_other (pos i : Z) :
  0 <= pos <= maxSteps b -> pos <> wpos ->
  pos * maxPktSize <= i < pos * maxPktSize + maxPktSize ->
  nth (Z.to_nat i) (buf c) 0 = nth (Z.to_nat i) (buf b) 0.
Proof.
  intros Hp Hne Hi.
  destruct (slot_in_bounds b wpos Hwf Hw) as [H0 H1].
  rewrite Hbuf. unfold maxPktSize in *.
  rewrite written_nth by lia.
  assert (Hp0 : 0 <= len pkt) by (unfold len; lia).
  assert (Hcase : i < wpos * 1500 \/ wpos * 1500 + 2 + len pkt <= i) by lia.
  destruct Hcase as [Hlo|Hhi].
  - now replace (Z.to_nat i <? Z.to_nat (wpos * 1500))%nat with true
      by (symmetry; apply Nat.ltb_lt; lia).
  - replace (Z.to_nat (wpos * 1500 + 2 + len pkt) <=? Z.to_nat i)%nat with true
      by (symmetry; apply Nat.leb_le; lia).
    now rewrite orb_true_r.
Qed.

Lemma written_other_slotSeq (pos : Z) :
  0 <= pos <= maxSteps b -> pos <> wpos -> slotSeq c pos = slotSeq b pos.
Proof.
  intros Hp Hne. unfold slotSeq.
  rewrite !(written_other pos) by (unfold maxPktSize; lia). reflexivity.
Qed.

Lemma written_other_slotLen (pos : Z) :
  0 <= pos <= maxSteps b -> pos <> wpos -> slotLen c pos = slotLen b pos.
Proof.
  intros Hp Hne. unfold slotLen.
  rewrite !(written_other pos) by (unfold maxPktSize; lia). reflexivity.
Qed.

Lemma written_other_packet (pos n : Z) :
  0 <= pos <= maxSteps b -> pos <> wpos -> 0 <= n <= maxPktSize - 2 ->
  firstn (Z.to_nat n) (skipn (Z.to_nat (pos * maxPktSize + 2)) (buf c))
  = firstn (Z.to_nat n) (skipn (Z.to_nat (pos * maxPktSize + 2)) (buf b)).
Proof.
  intros Hp Hne Hn.
  destruct (slot_in_bounds b pos Hwf Hp) as [H0 H1].
  pose proof written_len_buf as Hl.
  apply segment_ext.
  - unfold len, maxPktSize in *. lia.
  - unfold len, maxPktSize in *. lia.
  - intros i Hi. rewrite <- (Nat2Z.id i).
    apply (written_other pos); auto. unfold maxPktSize in *. lia.
Qed.

End Slots.

(** Reading back the slot just written. *)
Lemma get_written (b c : Bucket) (pkt : list Z) (sn : Z) :
  wf b -> wf c -> maxSteps c = maxSteps b ->
  len pkt <= maxPktSize - 2 -> seqOf pkt = Some sn ->
  u16 (headSN c - sn) <= maxSteps c ->
  buf c = written (slotOf c sn * maxPktSize) pkt (buf b) ->
  run (get sn c) = Ok (Some pkt).
Proof.
  intros Hwf Hwfc HM Hlen Hseq Hwin Hbuf.
  destruct (getPos_window c sn Hwfc Hwin) as (Epos & Hr & _).
  rewrite HM in Hr.
  pose proof (written_slotLen b c pkt _ Hwf Hr Hlen Hbuf) as Hl.
  pose proof (written_slotSeq b c pkt _ Hwf Hr Hlen Hbuf sn Hseq) as Hs.
  pose proof (written_len_buf b c pkt _ Hwf Hr Hlen Hbuf) as Hlb.
  destruct (slot_in_bounds b _ Hwf Hr) as [H0 H1].
  assert (Hp0 : 0 <= len pkt) by (unfold len; lia).
  rewrite (get_reads c sn _ Hwfc Epos Hs)
    by (rewrite Hl; unfold maxPktSize in *; lia).
  rewrite Hl, Hbuf. do 2 f_equal.
  apply written_packet; unfold maxPktSize in *; lia.
Qed.

(** Reading a packet whose slot a write did not touch. *)
Lemma get_other (b c : Bucket) (pkt p : list Z) (sn wpos pos : Z) :
  wf b -> wf c -> maxSteps c = maxSteps b ->
  0 <= wpos <= maxSteps b -> len pkt <= maxPktSize - 2 ->
  buf c = written (wpos * maxPktSize) pkt (buf b) ->
  run (get sn b) = Ok (Some p) -> len p <= maxPktSize - 2 ->
  getPos sn b = Cont pos -> getPos sn c = Cont pos -> pos <> wpos ->
  run (get sn c) = Ok (Some p).
Proof.
  intros Hwf Hwfc HM Hw Hlen Hbuf Hget Hp Eb Ec Hne.
  destruct (get_inv b sn p Hwf Hget) as (pos' & Eb' & Hs & Hl & Hin & Hpe).
  rewrite Eb in Eb'. injection Eb' as <-.
  destruct (getPos_slot b sn pos Hwf Eb) as [_ Hr].
  assert (Hp0 : 0 <= len p) by (unfold len; lia).
  pose proof (written_len_buf b c pkt _ Hwf Hw Hlen Hbuf) as Hlb.
  pose proof (written_other_slotSeq b c pkt _ Hwf Hw Hlen Hbuf pos Hr Hne) as Hs'.
  pose proof (written_other_slotLen b c pkt _ Hwf Hw Hlen Hbuf pos Hr Hne) as Hl'.
  rewrite (get_reads c sn pos Hwfc Ec) by (rewrite ?Hs', ?Hl', ?Hlb; lia).
  rewrite Hl', Hl.
  rewrite (written_other_packet b c pkt _ Hwf Hw Hlen Hbuf pos (len p) Hr Hne)
    by lia.
  now rewrite <- Hpe.
Qed.

Lemma skipSlot_range (M s : Z) (n : nat) :
  0 <= M -> 0 <= s <= M -> 0 <= Nat.iter n (skipSlot M) s <= M.
Proof.
  intros HM Hs. induction n as [|n IH]; [exact Hs|].
  rewrite Nat.iter_succ. set (x := Nat.iter n (skipSlot M) s) in *.
  unfold skipSlot. destruct (Z.leb_spec M (x + 1)); lia.
Qed.

Lemma nextStep_range (b : Bucket) : wf b -> 0 <= nextStep b <= maxSteps b.
Proof.
  intros [HM Hs _ _]. unfold nextStep.
  destruct (Z.ltb_spec (maxSteps b) (step b + 1)); lia.
Qed.

(** What [GetPacket] does with a packet that [get] found. *)
Lemma GetPacket_found (b : Bucket) (sn : Z) (p dst : list Z) (dstCap : Z) :
  run (get sn b) = Ok (Some p) -> len p <= dstCap ->
  exists dst',
    GetPacket dst dstCap sn b = Ok (dst', len p, None)
    /\ firstn (Z.to_nat (len p)) dst' = p
    /\ skipn (Z.to_nat (len p)) dst' = skipn (Z.to_nat (len p)) dst.
Proof.
  intros Hget Hcap. unfold GetPacket. rewrite Hget.
  replace (dstCap <? len p) with false by (symmetry; apply Z.ltb_ge; lia).
  eexists. split; [reflexivity|]. unfold Nack.copy, len. rewrite Nat2Z.id.
  destruct (Z.ltb_spec (Z.of_nat (length dst)) (Z.of_nat (length p))) as [Hs|Hl].
  - rewrite length_app, repeat_length.
    replace (length dst + Z.to_nat (Z.of_nat (length p) - Z.of_nat (length dst)))%nat
      with (length p) by lia.
    rewrite List.firstn_all, List.skipn_all2
      by (rewrite length_app, repeat_length; lia).
    rewrite app_nil_r, List.firstn_all. split; [reflexivity|].
    rewrite List.skipn_all. now rewrite List.skipn_all2 by lia.
  - rewrite (List.firstn_all2 (n := length dst) p) by lia.
    rewrite List.firstn_app, List.firstn_all, Nat.sub_diag. cbn [firstn].
    rewrite app_nil_r. split; [reflexivity|].
    rewrite List.skipn_app, List.skipn_all, Nat.sub_diag. reflexivity.
Qed.

(** An in-order packet is stored whole and can be read back at once, by
    [get] and by [GetPacket] into any buffer with room for it. *)
Theorem AddPacket_in_order_round_trip (b : Bucket) (pkt : list Z) (sn : Z) :
  wf b -> 0 <= sn < 2 ^ 16 -> seqOf pkt = Some sn -> len pkt <= maxPktSize - 2 ->
  exists b',
    AddPacket pkt sn true b = Ok (b', (Some pkt, None))
    /\ wf b' /\ headSN b' = sn
    /\ run (get sn b') = Ok (Some pkt)
    /\ forall dst dstCap, len pkt <= dstCap ->
         exists dst', GetPacket dst dstCap sn b' = Ok (dst', len pkt, None)
                      /\ firstn (Z.to_nat (len pkt)) dst' = pkt.
Proof.
  intros Hwf Hsn Hseq Hlen. unfold AddPacket. cbn [negb].
  set (b0 := if negb (init b) then _ else b).
  assert (Hwf0 : wf b0).
  { subst b0. destruct (init b); cbn [negb]; [exact Hwf|].
    destruct Hwf as [HM Hs Hb Hh]. constructor; cbn; auto. apply u16_range. }
  assert (HM0 : maxSteps b0 = maxSteps b) by (subst b0; now destruct (init b)).
  set (b1 := set_step _ (set_headSN sn b0)).
  assert (Hwf1 : wf b1).
  { destruct Hwf0 as [HM Hs Hb Hh]. constructor; cbn; auto.
    apply skipSlot_range; lia. }
  rewrite (push_stores b1 pkt Hwf1 Hlen). cbn [run].
  set (b' := set_step _ _).
  assert (Hwf' : wf b').
  { pose proof (nextStep_range b1 Hwf1) as Hn.
    pose proof (written_len_buf b1 b' pkt (step b1) Hwf1 (wf_step b1 Hwf1) Hlen eq_refl) as Hl.
    destruct Hwf1 as [HM Hs Hb Hh]. constructor; cbn in *; auto; lia. }
  assert (Hslot : slotOf b' (headSN b') = step b1).
  { apply (push_slot b1 pkt b' (Some pkt) Hwf1).
    now rewrite (push_stores b1 pkt Hwf1 Hlen). }
  assert (Hget : run (get sn b') = Ok (Some pkt)).
  { apply (get_written b1 b' pkt sn Hwf1 Hwf' eq_refl Hlen Hseq).
    - cbn. replace (sn - sn) with 0 by lia. change (u16 0) with 0.
      destruct Hwf as [HM _ _ _]. subst b0. destruct (init b); cbn; lia.
    - change (headSN b') with sn in Hslot. rewrite Hslot. reflexivity. }
  exists b'. split; [reflexivity|]. split; [exact Hwf'|].
  split; [reflexivity|]. split; [exact Hget|].
  intros dst dstCap Hcap.
  destruct (GetPacket_found b' sn pkt dst dstCap Hget Hcap) as (dst' & E & Hf & _).
  now exists dst'.
Qed.

(** A late packet inside the window whose slot does not already spell its
    number is stored in that slot, the head and the write position stay, and
    it can be read back. *)
Theorem AddPacket_out_of_order_round_trip (b : Bucket) (pkt : list Z) (sn : Z) :
  wf b -> init b = true -> 0 <= sn < 2 ^ 16 ->
  seqOf pkt = Some sn -> len pkt <= maxPktSize - 2 ->
  u16 (headSN b - sn) <= maxSteps b -> slotSeq b (slotOf b sn) <> sn ->
  exists b',
    AddPacket pkt sn false b = Ok (b', (Some pkt, None))
    /\ wf b' /\ headSN b' = headSN b /\ step b' = step b
    /\ run (get sn b') = Ok (Some pkt)
    /\ forall dst dstCap, len pkt <= dstCap ->
         exists dst', GetPacket dst dstCap sn b' = Ok (dst', len pkt, None)
                      /\ firstn (Z.to_nat (len pkt)) dst' = pkt.
Proof.
  intros Hwf Hinit Hsn Hseq Hlen Hwin Hnew. unfold AddPacket.
  rewrite Hinit. cbn [negb].
  rewrite (set_stores b pkt sn Hwf Hsn Hlen Hwin Hnew). cbn [run].
  set (b' := set_buf _ b).
  destruct (getPos_window b sn Hwf Hwin) as (_ & Hr & _).
  assert (Hwf' : wf b').
  { pose proof (written_len_buf b b' pkt _ Hwf Hr Hlen eq_refl) as Hl.
    destruct Hwf as [HM Hs Hb Hh]. constructor; cbn in *; auto; lia. }
  assert (Hget : run (get sn b') = Ok (Some pkt))
    by (apply (get_written b b' pkt sn Hwf Hwf' eq_refl Hlen Hseq Hwin); reflexivity).
  exists b'. split; [reflexivity|]. split; [exact Hwf'|].
  split; [reflexivity|]. split; [reflexivity|]. split; [exact Hget|].
  intros dst dstCap Hcap.
  destruct (GetPacket_found b' sn pkt dst dstCap Hget Hcap) as (dst' & E & Hf & _).
  now exists dst'.
Qed.

(** [AddPacket] with a packet that fits a slot never panics and hands back a
    well-formed bucket of the same size. *)
Theorem AddPacket_keeps_wf (b : Bucket) (pkt : list Z) (sn : Z) (latest : bool) :
  wf b -> 0 <= sn < 2 ^ 16 -> len pkt <= maxPktSize - 2 ->
  exists b' r,
    AddPacket pkt sn latest b = Ok (b', r)
    /\ wf b' /\ init b' = true
    /\ maxSteps b' = maxSteps b /\ len (buf b') = len (buf b).
Proof.
  intros Hwf Hsn Hlen. unfold AddPacket.
  set (b0 := if negb (init b) then _ else b).
  assert (Hwf0 : wf b0).
  { subst b0. destruct (init b); cbn [negb]; [exact Hwf|].
    destruct Hwf as [HM Hs Hb Hh]. constructor; cbn; auto. apply u16_range. }
  assert (HM0 : maxSteps b0 = maxSteps b) by (subst b0; now destruct (init b)).
  assert (HB0 : buf b0 = buf b) by (subst b0; now destruct (init b)).
  assert (HI0 : init b0 = true) by (subst b0; now destruct (init b) eqn:E).
  clearbody b0. destruct latest; cbn [negb].
  - set (b1 := set_step _ (set_headSN sn b0)).
    assert (Hwf1 : wf b1).
    { destruct Hwf0 as [HM Hs Hb Hh]. constructor; cbn; auto.
      apply skipSlot_range; lia. }
    rewrite (push_stores b1 pkt Hwf1 Hlen). cbn [run].
    pose proof (nextStep_range b1 Hwf1) as Hn.
    pose proof (written_len_buf b1 (set_buf (written (step b1 * maxPktSize) pkt (buf b1)) b1)
                  pkt (step b1) Hwf1 (wf_step b1 Hwf1) Hlen eq_refl) as Hl.
    eexists _, _. split; [reflexivity|].
    destruct Hwf1 as [HM Hs Hb Hh]. cbn in *.
    split; [constructor; cbn; auto; lia|]. rewrite <- HB0. auto.
  - destruct (setPos_cases b0 sn Hwf0 Hsn) as [[Hold E]|(Hwin & Hpos & Hr)].
    + unfold set. rewrite E. cbn [bind run].
      eexists _, _. split; [reflexivity|]. rewrite HB0. auto.
    + destruct (Z.eq_dec (slotSeq b0 (slotOf b0 sn)) sn) as [Heq|Hne].
      * destruct (slot_in_bounds b0 _ Hwf0 Hr) as [H0 H1].
        unfold set. rewrite Hpos. cbn [bind].
        replace ((len (buf b0) <? slotOf b0 sn * maxPktSize)
                 || (slotOf b0 sn * maxPktSize <? 0)) with false
          by (symmetry; apply orb_false_iff; split; apply Z.ltb_ge;
              unfold maxPktSize in *; lia).
        rewrite (slot_seen b0 _ Hwf0 Hr). cbn [bind].
        rewrite Heq, Z.eqb_refl. cbn [run].
        eexists _, _. split; [reflexivity|]. rewrite HB0. auto.
      * rewrite (set_stores b0 pkt sn Hwf0 Hsn Hlen Hwin Hne). cbn [run].
        pose proof (written_len_buf b0 (set_buf (written (slotOf b0 sn * maxPktSize) pkt (buf b0)) b0)
                      pkt _ Hwf0 Hr Hlen eq_refl) as Hl.
        eexists _, _. split; [reflexivity|].
        destruct Hwf0 as [HM Hs Hb Hh]. cbn in *.
        split; [constructor; cbn; auto; lia|]. rewrite <- HB0. auto.
Qed.

(** The very first packet of a bucket, when it is not flagged as the
    latest, is always turned away as too old: the head is set one below it
    and the 16-bit distance [headSN - sn] is then 65535. *)
Theorem AddPacket_first_out_of_order_dropped (b : Bucket) (pkt : list Z) (sn : Z) :
  wf b -> init b = false ->
  AddPacket pkt sn false b
  = Ok (set_init true (set_headSN (u16 (sn - 1)) b), (None, Some errPacketTooOld)).
Proof.
  intros [HM Hs Hb Hh] Hinit. unfold AddPacket. rewrite Hinit. cbn [negb].
  unfold set, setPos. cbn [headSN maxSteps set_init set_headSN].
  assert (E : u16 (u16 (sn - 1) - sn) = 65535).
  { unfold u16, wrap. rewrite Zminus_mod_idemp_l.
    replace (sn - 1 - sn) with (-1) by lia. reflexivity. }
  rewrite E.
  assert (Hm : u16 (maxSteps b + 1) = maxSteps b + 1)
    by (apply Z.mod_small; lia).
  rewrite Hm.
  replace (maxSteps b + 1 <=? 65535) with true
    by (symmetry; apply Z.leb_le; change (2 ^ 16) with 65536 in *; lia).
  reflexivity.
Qed.

Lemma u16_next (h : Z) : 0 <= h < 2 ^ 16 -> u16 (u16 (h + 1) - h) = 1.
Proof.
  intros Hh. unfold u16, wrap. rewrite Zminus_mod_idemp_l.
  replace (h + 1 - h) with 1 by lia. reflexivity.
Qed.

Lemma u16_eq_inv (x y : Z) :
  0 <= x < 2 ^ 16 -> 0 <= y < 2 ^ 16 -> forall h, u16 (h - x) = u16 (h - y) -> x = y.
Proof.
  intros Hx Hy h E. unfold u16, wrap in E. change (2 ^ 16) with 65536 in *.
  pose proof (Z.div_mod (h - x) 65536 ltac:(lia)) as Dx.
  pose proof (Z.div_mod (h - y) 65536 ltac:(lia)) as Dy.
  lia.
Qed.

(** The next in-order packet, when it is at most [maxPktSize - 2] bytes
    long and so fits its slot behind the two bytes of the length, leaves
    every packet of the window readable: the packet of at most
    [maxPktSize - 2] bytes that [get] returned for one of the last
    [maxSteps] numbers before the call, it returns after it. A longer new
    packet runs into the slot that follows and is not covered. *)
Theorem AddPacket_next_keeps_window (b : Bucket) (pkt p : list Z) (sn' : Z) :
  wf b -> init b = true ->
  len pkt <= maxPktSize - 2 -> len p <= maxPktSize - 2 ->
  u16 (headSN b - sn') < maxSteps b ->
  run (get sn' b) = Ok (Some p) ->
  exists b' r,
    AddPacket pkt (u16 (headSN b + 1)) true b = Ok (b', r)
    /\ headSN b' = u16 (headSN b + 1)
    /\ run (get sn' b') = Ok (Some p).
Proof.
  intros Hwf Hinit Hlen Hp Hwin Hget. unfold AddPacket.
  rewrite Hinit. cbn [negb].
  rewrite (u16_next (headSN b) (wf_headSN b Hwf)). cbn [Z.sub Z.to_nat Nat.iter].
  change (Nat.iter (Z.to_nat (1 - 1)) (skipSlot (maxSteps (set_headSN (u16 (headSN b + 1)) b)))
            (step (set_headSN (u16 (headSN b + 1)) b))) with (step b).
  set (b1 := set_step (step b) (set_headSN (u16 (headSN b + 1)) b)).
  assert (Hwf1 : wf b1).
  { destruct Hwf as [HM Hs Hb Hh]. constructor; cbn; auto. apply u16_range. }
  rewrite (push_stores b1 pkt Hwf1 Hlen). cbn [run].
  set (b' := set_step _ _).
  assert (Hwf' : wf b').
  { pose proof (nextStep_range b1 Hwf1) as Hn.
    pose proof (written_len_buf b1 b' pkt (step b1) Hwf1 (wf_step b1 Hwf1) Hlen eq_refl) as Hl.
    destruct Hwf1 as [HM Hs Hb Hh]. constructor; cbn in *; auto; lia. }
  exists b', (Some pkt, None). split; [reflexivity|]. split; [reflexivity|].
  pose proof (u16_range (headSN b - sn')) as Hd.
  destruct (getPos_window b sn' Hwf ltac:(lia)) as (Eb & Hr & Fb).
  assert (Hwin' : u16 (headSN b' - sn') = u16 (headSN b - sn') + 1).
  { cbn. unfold u16 at 1 2, wrap. rewrite Zminus_mod_idemp_l.
    replace (headSN b + 1 - sn') with (headSN b - sn' + 1) by lia.
    apply u16_succ. destruct Hwf as [HM _ _ _]. lia. }
  destruct (getPos_window b' sn' Hwf' ltac:(rewrite Hwin'; cbn; lia)) as (Ec & _ & Fc).
  rewrite Hwin' in Fc. cbn [step maxSteps b' b1 set_step set_buf set_headSN] in Fc.
  unfold nextStep in Fc. cbn [step maxSteps b1 set_step set_headSN] in Fc.
  pose proof (wf_step b Hwf) as Hs. pose proof (wf_maxSteps b Hwf) as HM.
  assert (Hsame : slotOf b' sn' = slotOf b sn' /\ slotOf b sn' <> step b).
  { rewrite Fb, Fc.
    destruct (Z.ltb_spec (maxSteps b) (step b + 1));
      destruct (Z.ltb_spec (step b - (u16 (headSN b - sn') + 1)) 0);
      repeat match goal with
             | |- context [?x <? 0] => destruct (Z.ltb_spec x 0)
             end; lia. }
  destruct Hsame as [Hsame Hne]. rewrite Hsame in Ec.
  apply (get_other b b' pkt p sn' (step b) (slotOf b sn') Hwf Hwf' eq_refl Hs Hlen
           eq_refl Hget Hp Eb Ec Hne).
Qed.

(** A late packet of at most [maxPktSize - 2] bytes, stored or rejected,
    leaves every other packet of the window readable: for another number
    at most [maxSteps] behind the head, the packet of at most
    [maxPktSize - 2] bytes that [get] returned before the call, it returns
    after it. A longer late packet runs into the slot that follows and is
    not covered. *)
Theorem AddPacket_late_keeps_window (b : Bucket) (pkt p : list Z) (sn sn' : Z) :
  wf b -> init b = true -> 0 <= sn < 2 ^ 16 -> 0 <= sn' < 2 ^ 16 -> sn <> sn' ->
  len pkt <= maxPktSize - 2 -> len p <= maxPktSize - 2 ->
  u16 (headSN b - sn') <= maxSteps b ->
  run (get sn' b) = Ok (Some p) ->
  exists b' r,
    AddPacket pkt sn false b = Ok (b', r) /\ run (get sn' b') = Ok (Some p).
Proof.
  intros Hwf Hinit Hsn Hsn' Hdiff Hlen Hp Hwin' Hget. unfold AddPacket.
  rewrite Hinit. cbn [negb].
  destruct (set_cases b sn pkt Hwf Hsn) as [[_ E]|[(_ & _ & E)|(Hwin & Hne & _)]].
  - rewrite E. now exists b, (None, Some errPacketTooOld).
  - rewrite E. now exists b, (None, Some errRTXPacket).
  - rewrite (set_stores b pkt sn Hwf Hsn Hlen Hwin Hne). cbn [run].
    set (b' := set_buf _ b).
    destruct (getPos_window b sn Hwf Hwin) as (_ & Hr & F).
    destruct (getPos_window b sn' Hwf Hwin') as (Eb & Hr' & F').
    assert (Hwf' : wf b').
    { pose proof (written_len_buf b b' pkt _ Hwf Hr Hlen eq_refl) as Hl.
      destruct Hwf as [HM Hs Hb Hh]. constructor; cbn in *; auto; lia. }
    destruct (getPos_window b' sn' Hwf' Hwin') as (Ec & _ & _).
    change (slotOf b' sn') with (slotOf b sn') in Ec.
    exists b', (Some pkt, None). split; [reflexivity|].
    apply (get_other b b' pkt p sn' (slotOf b sn) (slotOf b sn') Hwf Hwf' eq_refl Hr Hlen
             eq_refl Hget Hp Eb Ec).
    intros Heq.
    pose proof (u16_range (headSN b - sn)) as Hd.
    pose proof (u16_range (headSN b - sn')) as Hd'.
    pose proof (wf_step b Hwf) as Hs. pose proof (wf_maxSteps b Hwf) as HM.
    apply Hdiff. apply (u16_eq_inv sn sn' Hsn Hsn' (headSN b)).
    rewrite F, F' in Heq.
    destruct (Z.ltb_spec (step b - (u16 (headSN b - sn) + 1)) 0);
      destruct (Z.ltb_spec (step b - (u16 (headSN b - sn') + 1)) 0); lia.
Qed.

Lemma AddPacket_in_order_round_trip_witness :
  exists b',
    AddPacket (rtp 1) 1 true (NewBucket (zeros 6000)) = Ok (b', (Some (rtp 1), None))
    /\ wf b' /\ headSN b' = 1
    /\ run (get 1 b') = Ok (Some (rtp 1))
    /\ forall dst dstCap, len (rtp 1) <= dstCap ->
         exists dst', GetPacket dst dstCap 1 b' = Ok (dst', len (rtp 1), None)
                      /\ firstn (Z.to_nat (len (rtp 1))) dst' = rtp 1.
Proof.
  apply (AddPacket_in_order_round_trip (NewBucket (zeros 6000)) (rtp 1) 1).
  - constructor; vm_compute; repeat split; intros; discriminate.
  - vm_compute. split; [discriminate | reflexivity].
  - reflexivity.
  - vm_compute. discriminate.
Defined.

Lemma AddPacket_out_of_order_round_trip_witness :
  exists b',
    AddPacket (rtp 2) 2 false afterGap = Ok (b', (Some (rtp 2), None))
    /\ wf b' /\ headSN b' = headSN afterGap /\ step b' = step afterGap
    /\ run (get 2 b') = Ok (Some (rtp 2))
    /\ forall dst dstCap, len (rtp 2) <= dstCap ->
         exists dst', GetPacket dst dstCap 2 b' = Ok (dst', len (rtp 2), None)
                      /\ firstn (Z.to_nat (len (rtp 2))) dst' = rtp 2.
Proof.
  apply (AddPacket_out_of_order_round_trip afterGap (rtp 2) 2).
  - constructor; vm_compute; repeat split; intros; discriminate.
  - reflexivity.
  - vm_compute. split; [discriminate | reflexivity].
  - reflexivity.
  - vm_compute. discriminate.
  - vm_compute. discriminate.
  - vm_compute. discriminate.
Defined.

Lemma AddPacket_keeps_wf_witness :
  exists b' r,
    AddPacket (rtp 2) 2 false afterGap = Ok (b', r)
    /\ wf b' /\ init b' = true
    /\ maxSteps b' = maxSteps afterGap /\ len (buf b') = len (buf afterGap).
Proof.
  apply (AddPacket_keeps_wf afterGap (rtp 2) 2 false).
  - constructor; vm_compute; repeat split; intros; discriminate.
  - vm_compute. split; [discriminate | reflexivity].
  - vm_compute. discriminate.
Defined.

Lemma AddPacket_first_out_of_order_dropped_witness :
  AddPacket (rtp 7) 7 false (NewBucket (zeros 6000))
  = Ok (set_init true (set_headSN (u16 (7 - 1)) (NewBucket (zeros 6000))),
        (None, Some errPacketTooOld)).
Proof.
  apply (AddPacket_first_out_of_order_dropped (NewBucket (zeros 6000)) (rtp 7) 7).
  - constructor; vm_compute; repeat split; intros; discriminate.
  - reflexivity.
Defined.

Lemma AddPacket_next_keeps_window_witness :
  exists b' r,
    AddPacket (rtp 4) (u16 (headSN afterGap + 1)) true afterGap = Ok (b', r)
    /\ headSN b' = u16 (headSN afterGap + 1)
    /\ run (get 1 b') = Ok (Some (rtp 1)).
Proof.
  apply (AddPacket_next_keeps_window afterGap (rtp 4) (rtp 1) 1).
  - constructor; vm_compute; repeat split; intros; discriminate.
  - reflexivity.
  - vm_compute. discriminate.
  - vm_compute. discriminate.
  - vm_compute. reflexivity.
  - vm_compute. reflexivity.
Defined.

Lemma AddPacket_late_keeps_window_witness :
  exists b' r,
    AddPacket (rtp 2) 2 false afterGap = Ok (b', r)
    /\ run (get 3 b') = Ok (Some (rtp 3)).
Proof.
  apply (AddPacket_late_keeps_window afterGap (rtp 2) (rtp 3) 2 3).
  - constructor; vm_compute; repeat split; intros; discriminate.
  - reflexivity.
  - vm_compute. split; [discriminate | reflexivity].
  - vm_compute. split; [discriminate | reflexivity].
  - discriminate.
  - vm_compute. discriminate.
  - vm_compute. discriminate.
  - vm_compute. discriminate.
  - vm_compute. reflexivity.
Defined.

Lemma get_embedded_seq_witness : seqOf (rtp 3) = Some 3.
Proof.
  apply (get_embedded_seq afterGap 3 (rtp 3)).
  - constructor; vm_compute; repeat split; intros; discriminate.
  - vm_compute. reflexivity.
  - vm_compute. discriminate.
Defined.

Lemma GetPacket_not_found_witness :
  GetPacket [] 1500 5 afterGap = Ok ([], 0, Some errPacketNotFound).
Proof.
  apply (GetPacket_not_found afterGap 5 [] 1500).
  - constructor; vm_compute; repeat split; intros; discriminate.
  - intros pos Hpos. change (maxSteps afterGap) with 3 in Hpos.
    assert (Hc : pos = 0 \/ pos = 1 \/ pos = 2 \/ pos = 3) by lia.
    destruct Hc as [-> | [-> | [-> | ->]]]; vm_compute; discriminate.
Defined.

Lemma skipSlot_no_wrap (M : Z) (n : nat) : forall s,
  0 <= s -> s + Z.of_nat n < M ->
  Nat.iter n (skipSlot M) s = s + Z.of_nat n.
Proof.
  induction n as [|n IH]; intros s Hs Hn; [cbn; lia|].
  rewrite Nat.iter_succ, IH by lia. unfold skipSlot.
  destruct (Z.leb_spec M (s + Z.of_nat n + 1)); lia.
Qed.

(** An in-order packet of at most [maxPktSize - 2] bytes that leaves a
    gap, as long as the write position does not run past the end of the
    ring while the missing numbers are skipped, keeps every packet of at
    most [maxPktSize - 2] bytes that is still inside the window of the new
    head readable. A longer new packet runs into the slot that follows and
    is not covered. *)
Theorem AddPacket_gap_keeps_window (b : Bucket) (pkt p : list Z) (sn sn' : Z) :
  wf b -> init b = true -> 0 <= sn < 2 ^ 16 ->
  len pkt <= maxPktSize - 2 -> len p <= maxPktSize - 2 ->
  1 <= u16 (sn - headSN b) ->
  step b + u16 (sn - headSN b) - 1 < maxSteps b ->
  u16 (headSN b - sn') + u16 (sn - headSN b) <= maxSteps b ->
  run (get sn' b) = Ok (Some p) ->
  exists b' r,
    AddPacket pkt sn true b = Ok (b', r)
    /\ headSN b' = sn /\ step b' = step b + u16 (sn - headSN b)
    /\ run (get sn' b') = Ok (Some p).
Proof.
  intros Hwf Hinit Hsn Hlen Hp Hdiff Hring Hwin Hget. unfold AddPacket.
  rewrite Hinit. cbn [negb]. cbn [maxSteps step set_headSN].
  set (diff := u16 (sn - headSN b)) in *.
  pose proof (wf_step b Hwf) as Hs. pose proof (wf_maxSteps b Hwf) as HM.
  pose proof (u16_range (headSN b - sn')) as Hd.
  rewrite (skipSlot_no_wrap (maxSteps b) (Z.to_nat (diff - 1)) (step b)) by lia.
  rewrite Z2Nat.id by lia.
  set (b1 := set_step (step b + (diff - 1)) (set_headSN sn b)).
  assert (Hwf1 : wf b1).
  { destruct Hwf as [HM' Hs' Hb Hh]. constructor; cbn; auto; lia. }
  rewrite (push_stores b1 pkt Hwf1 Hlen). cbn [run].
  set (b' := set_step _ _).
  assert (Hnext : nextStep b1 = step b + diff).
  { unfold nextStep. cbn [maxSteps step b1 set_step set_headSN].
    destruct (Z.ltb_spec (maxSteps b) (step b + (diff - 1) + 1)); lia. }
  assert (Hwf' : wf b').
  { pose proof (written_len_buf b1 b' pkt (step b1) Hwf1 (wf_step b1 Hwf1) Hlen eq_refl) as Hl.
    destruct Hwf1 as [HM' Hs' Hb Hh]. constructor; cbn in *; auto; lia. }
  exists b', (Some pkt, None). split; [reflexivity|]. split; [reflexivity|].
  split; [exact Hnext|].
  destruct (getPos_window b sn' Hwf ltac:(lia)) as (Eb & Hr & Fb).
  assert (Hwin' : u16 (headSN b' - sn') = u16 (headSN b - sn') + diff).
  { cbn [headSN b' b1 set_step set_buf set_headSN].
    replace (sn - sn') with ((headSN b - sn') + (sn - headSN b)) by lia.
    unfold u16 at 1, wrap. rewrite Zplus_mod.
    fold (wrap 16 (headSN b - sn')) (wrap 16 (sn - headSN b)).
    fold (u16 (headSN b - sn')) (u16 (sn - headSN b)). fold diff.
    apply Z.mod_small. lia. }
  destruct (getPos_window b' sn' Hwf' ltac:(rewrite Hwin'; cbn; lia)) as (Ec & _ & Fc).
  rewrite Hwin' in Fc. cbn [step maxSteps b' set_step set_buf] in Fc.
  rewrite Hnext in Fc. cbn [maxSteps b1 set_step set_headSN] in Fc.
  assert (Hsame : slotOf b' sn' = slotOf b sn' /\ slotOf b sn' <> step b1).
  { rewrite Fb, Fc. cbn [step b1 set_step set_headSN].
    destruct (Z.ltb_spec (step b + diff - (u16 (headSN b - sn') + diff + 1)) 0);
      destruct (Z.ltb_spec (step b - (u16 (headSN b - sn') + 1)) 0); lia. }
  destruct Hsame as [Hsame Hne]. rewrite Hsame in Ec.
  assert (Hw : 0 <= step b1 <= maxSteps b) by (cbn; lia).
  apply (get_other b b' pkt p sn' (step b1) (slotOf b sn') Hwf Hwf' eq_refl Hw Hlen
           eq_refl Hget Hp Eb Ec Hne).
Qed.

Lemma AddPacket_gap_keeps_window_witness :
  exists b' r,
    AddPacket (rtp 3) 3 true afterFirst = Ok (b', r)
    /\ headSN b' = 3 /\ step b' = step afterFirst + u16 (3 - headSN afterFirst)
    /\ run (get 1 b') = Ok (Some (rtp 1)).
Proof.
  apply (AddPacket_gap_keeps_window afterFirst (rtp 3) (rtp 1) 3 1).
  - constructor; vm_compute; repeat split; intros; discriminate.
  - reflexivity.
  - vm_compute. split; [discriminate | reflexivity].
  - vm_compute. discriminate.
  - vm_compute. discriminate.
  - vm_compute. discriminate.
  - vm_compute. reflexivity.
  - vm_compute. discriminate.
  - vm_compute. reflexivity.
Defined.

End BucketFacts.

(** ** Transport-wide congestion control responder *)

Module TwccFacts.
Import Twcc.

Lemma buildTransportCCPacket_nonempty t :
  extInfo t <> [] ->
  buildTransportCCPacket t = Panic
  \/ exists t' pkt, buildTransportCCPacket t = Ok (t', Some pkt).
Proof.
  intros Hne. unfold buildTransportCCPacket, len.
  destruct (extInfo t) as [|e l] eqn:E; [contradiction|].
  cbn [length]. replace (Z.of_nat (S (length l)) =? 0) with false
    by (symmetry; apply Z.eqb_neq; lia).
  destruct (buildBody t) as [[t' pkt]|[]|]; eauto.
Qed.

(** [Push] unfolded: the entry is recorded, then the test [due] decides
    whether [buildTransportCCPacket] runs; when it runs it panics or hands
    back a packet. *)
Lemma Push_decides (t : Responder) (sn timeNS : Z) (marker : bool) :
  0 <= lastSn t < 2 ^ 16 ->
  let t1 := recorded sn timeNS t in
  let n := len (extInfo t) + 1 in
  let elapsed := swrap 64 (timeNS - lastReport t1) in
  (cycles t1 = (if (sn <? 0x0fff) && (0xf000 <? lastSn t)
                then u32 (cycles t + 2 ^ 16) else cycles t)
   /\ extInfo t1 = extInfo t ++ [mkInfo (Z.lor (cycles t1) sn) (Z.quot timeNS 1000)])
  /\ (due n elapsed marker (mSSRC t) = false ->
      Push sn timeNS marker t = Ok (t1, None))
  /\ (due n elapsed marker (mSSRC t) = true ->
      (buildTransportCCPacket t1 = Panic /\ Push sn timeNS marker t = Panic)
      \/ exists t2 pkt,
           buildTransportCCPacket t1 = Ok (t2, Some pkt)
           /\ Push sn timeNS marker t = Ok (set_lastReport timeNS t2, Some pkt)).
Proof.
  intros Hsn t1 n elapsed.
  assert (Hland : Z.land (lastSn t) 0xffff = lastSn t).
  { change 0xffff with (Z.ones 16). rewrite Z.land_ones by lia.
    apply Z.mod_small. exact Hsn. }
  assert (Hsnoc : forall (l : list rtpExtInfo) x, len (l ++ [x]) = len l + 1)
    by (intros; unfold len; rewrite length_app; cbn; lia).
  assert (HP : Push sn timeNS marker t
               = if due n elapsed marker (mSSRC t)
                 then match buildTransportCCPacket t1 with
                      | Ok (t2, pkt) => Ok (set_lastReport timeNS t2, pkt)
                      | Panic => Panic
                      end
                 else Ok (t1, None)).
  { unfold Push. rewrite Hland. subst t1 n elapsed.
    unfold recorded, due, set_cycles, set_extInfo, set_lastReport, set_lastSn.
    change (Z.shiftl 1 16) with (2 ^ 16).
    destruct t as [ei lr cy le pc ls ms ss pl dl pay del ch].
    cbn [extInfo lastReport cycles lastExtSN pktCtn lastSn mSSRC
         sSSRC plen deltaLen payload deltas chunk].
    destruct ((sn <? 0x0fff) && (0xf000 <? ls));
      cbn [extInfo lastReport cycles lastExtSN pktCtn lastSn mSSRC
           sSSRC plen deltaLen payload deltas chunk];
      destruct (lr =? 0);
      cbn [extInfo lastReport cycles lastExtSN pktCtn lastSn mSSRC
           sSSRC plen deltaLen payload deltas chunk];
      rewrite !Hsnoc; reflexivity. }
  split; [split; reflexivity|]. split.
  - intros Hd. rewrite HP, Hd. reflexivity.
  - intros Hd. rewrite HP, Hd.
    destruct (buildTransportCCPacket_nonempty t1) as [E|(t2 & pkt & E)].
    + unfold t1, recorded. cbn [extInfo]. now destruct (extInfo t).
    + left. now rewrite E.
    + right. exists t2, pkt. now rewrite E.
Qed.

Lemma due_away_from_20 (n elapsed : Z) (marker : bool) (ssrc : Z) :
  n <> 20 -> due n elapsed marker ssrc = dueByDesign n elapsed marker ssrc.
Proof.
  intros Hn. unfold due, dueByDesign. do 2 f_equal.
  destruct (Z.ltb_spec 20 n), (Z.leb_spec 20 n); try reflexivity; lia.
Qed.

(** C5 (amended). [Push] first records the entry, with the cycle counter
    advanced by 2^16 when the previous number was above 0xF000 and the new one
    is below 0x0FFF. Whenever the entries buffered, the one just recorded
    included, are not exactly 20 and building the packet does not run over
    the fixed payload and delta arrays of the responder, [Push] hands out a
    feedback packet exactly when at least 20 entries are buffered, the media
    SSRC is not zero, and 100 ms have passed since the last report, or more
    than 100 entries are buffered, or the marker is set and 50 ms have
    passed; the packet is the one [buildTransportCCPacket] makes of the
    recorded entries, and otherwise the entry stays buffered. *)
Theorem Push_reports_when_due (t : Responder) (sn timeNS : Z) (marker : bool) :
  0 <= lastSn t < 2 ^ 16 ->
  let t1 := recorded sn timeNS t in
  let n := len (extInfo t) + 1 in
  let elapsed := swrap 64 (timeNS - lastReport t1) in
  n <> 20 ->
  buildTransportCCPacket t1 <> Panic ->
  (cycles t1 = (if (sn <? 0x0fff) && (0xf000 <? lastSn t)
                then u32 (cycles t + 2 ^ 16) else cycles t)
   /\ extInfo t1 = extInfo t ++ [mkInfo (Z.lor (cycles t1) sn) (Z.quot timeNS 1000)])
  /\ ((exists t' pkt, Push sn timeNS marker t = Ok (t', Some pkt))
      <-> dueByDesign n elapsed marker (mSSRC t) = true)
  /\ (dueByDesign n elapsed marker (mSSRC t) = true ->
      exists t2 pkt,
        buildTransportCCPacket t1 = Ok (t2, Some pkt)
        /\ Push sn timeNS marker t = Ok (set_lastReport timeNS t2, Some pkt))
  /\ (dueByDesign n elapsed marker (mSSRC t) = false ->
      Push sn timeNS marker t = Ok (t1, None)).
Proof.
  intros Hsn t1 n elapsed Hn Hfit.
  destruct (Push_decides t sn timeNS marker Hsn) as (Hrec & Hno & Hyes).
  fold t1 n elapsed in Hno, Hyes.
  rewrite (due_away_from_20 n elapsed marker (mSSRC t) Hn) in Hno, Hyes.
  assert (Hbuilt : dueByDesign n elapsed marker (mSSRC t) = true ->
            exists t2 pkt,
              buildTransportCCPacket t1 = Ok (t2, Some pkt)
              /\ Push sn timeNS marker t = Ok (set_lastReport timeNS t2, Some pkt)).
  { intros Hd. destruct (Hyes Hd) as [[E _]|H]; [contradiction | exact H]. }
  split; [exact Hrec|]. split; [|split; [exact Hbuilt | exact Hno]].
  split.
  - intros (t' & pkt & E).
    destruct (dueByDesign n elapsed marker (mSSRC t)) eqn:Ed; [reflexivity|].
    rewrite (Hno eq_refl) in E. discriminate.
  - intros Hd. destruct (Hbuilt Hd) as (t2 & pkt & _ & E). eauto.
Qed.

(** The twenty-first entry, 200 ms after the last report, with a media SSRC:
    the feedback packet is handed out. *)
Lemma Push_reports_when_due_witness :
  exists t' pkt,
    Push 21 (startNS + 200000000) false (buffered 20 7) = Ok (t', Some pkt).
Proof.
  assert (Hsn : 0 <= lastSn (buffered 20 7) < 2 ^ 16)
    by (vm_compute; split; [discriminate | reflexivity]).
  assert (Hn : len (extInfo (buffered 20 7)) + 1 <> 20)
    by (vm_compute; discriminate).
  assert (Hfit : buildTransportCCPacket
                   (recorded 21 (startNS + 200000000) (buffered 20 7)) <> Panic)
    by (vm_compute; discriminate).
  apply (proj2 (proj1 (proj2
    (Push_reports_when_due (buffered 20 7) 21 (startNS + 200000000) false
       Hsn Hn Hfit)))).
  vm_compute. reflexivity.
Defined.

(** C5 (as stated, refuted). A responder whose media SSRC is 0 builds no
    feedback: with the twenty-sixth entry recorded 200 ms after the last
    report, the conditions of the claim hold and the entry is only
    buffered. *)
Lemma Push_silent_without_media_ssrc :
  dueAsStated 26 200000000 false = true
  /\ Push 26 (startNS + 200000000) false (buffered 25 0)
     = Ok (recorded 26 (startNS + 200000000) (buffered 25 0), None).
Proof. vm_compute. split; reflexivity. Qed.

(** At exactly 20 entries the code and its doc comment part: the comment
    asks for 20 packets or more, the test is [len(t.extInfo) > 20], and with
    the twentieth entry recorded 200 ms after the last report nothing is
    built. *)
Lemma Push_waits_for_the_21st_entry :
  dueByDesign 20 200000000 false 7 = true
  /\ due 20 200000000 false 7 = false
  /\ Push 20 (startNS + 200000000) false (buffered 19 7)
     = Ok (recorded 20 (startNS + 200000000) (buffered 19 7), None).
Proof. vm_compute. repeat split; reflexivity. Qed.

(** A due [Push] can panic instead of reporting. The first hundred arrivals
    of [reversedRun] are buffered without a report (40 ms in all); the next
    one makes 101 entries, and the packet built for them needs one delta
    byte for number 100 and two for each of the hundred numbers after it,
    whose arrival times go backwards: 201 bytes for [deltas], which holds
    200. *)
Lemma Push_panics_on_delta_overrun :
  (exists t, pushAll (firstn 100 reversedRun) (NewTransportWideCCResponder 7 9)
             = Ok (t, []))
  /\ pushAll reversedRun (NewTransportWideCCResponder 7 9) = Panic.
Proof. vm_compute. split; [eexists; reflexivity | reflexivity]. Qed.

(** C4 (evaluation). The twenty-first [Push] of [lossyRun] builds the
    feedback for numbers 1 to 23. Its second status chunk is flushed by a
    loop that counts up to a deque length shrinking under it, so only five of
    the nine statuses left are written: the packet tells the sender that 20,
    21, 22 and 23 did not arrive, although they were pushed, and carries 21
    arrival deltas for the 17 packets it says were received. *)
Theorem feedback_drops_received_packets :
  sent (pushAll lossyRun (NewTransportWideCCResponder 7 9)) = Some [lossyFeedback]
  /\ baseRead lossyFeedback = 1
  /\ statusesRead lossyFeedback
     = [1; 0; 1; 1; 1; 1; 1; 1; 1; 1; 1; 1; 1; 1; 1; 1; 0; 1; 1; 0; 0; 0; 0]
  /\ statusesPushed lossyRun 1 23
     = [1; 0; 1; 1; 1; 1; 1; 1; 1; 1; 1; 1; 1; 1; 1; 1; 0; 1; 1; 1; 1; 1; 1].
Proof. vm_compute. repeat split; reflexivity. Qed.

(** A gap of ten seconds is 40000 units of 250 microseconds; [int16(40000)]
    is negative, and the clamp takes its sign from that truncated value: the
    delta written is 0x8000, the most negative one. The same packet shows the
    final flush writing one symbol of the two. *)
Lemma large_gap_clamped_to_minimum :
  packetOf (buildTransportCCPacket tenSecondsApart)
  = Some [175; 205; 0; 6;  0; 0; 0; 9;  0; 0; 0; 7;  0; 1;  0; 2;
          0; 61; 9;  0;  208; 0;  0;  128; 0;  0; 0; 3].
Proof. vm_compute. reflexivity. Qed.

(** *** The range a feedback packet covers *)

Lemma upFrom_app (a b : nat) : forall from,
  Nack.upFrom from (a + b)
  = Nack.upFrom from a ++ Nack.upFrom (from + Z.of_nat a) b.
Proof.
  induction a as [|a IH]; intros from.
  - cbn [Nat.add]. replace (from + Z.of_nat 0) with from by lia. reflexivity.
  - cbn [Nat.add]. rewrite !NackFacts.upFrom_succ, IH. cbn [app].
    do 3 f_equal. lia.
Qed.

Lemma fromTo_join (a b c : Z) :
  a <= b + 1 -> b <= c -> fromTo a b ++ fromTo (b + 1) c = fromTo a c.
Proof.
  intros H1 H2. unfold fromTo.
  replace (Z.to_nat (c - a + 1))
    with (Z.to_nat (b - a + 1) + Z.to_nat (c - (b + 1) + 1))%nat by lia.
  rewrite upFrom_app. do 2 f_equal. lia.
Qed.

Lemma fromTo_cons (a b : Z) : a <= b -> fromTo a b = a :: fromTo (a + 1) b.
Proof.
  intros H. unfold fromTo.
  replace (Z.to_nat (b - a + 1)) with (S (Z.to_nat (b - (a + 1) + 1))) by lia.
  apply NackFacts.upFrom_succ.
Qed.

Lemma lostBetween_numbers (from to : Z) :
  map ExtTSN (lostBetween from to) = fromTo from (to - 1).
Proof.
  unfold lostBetween, fromTo, Nack.upFrom. rewrite map_map. cbn [ExtTSN].
  do 2 f_equal. lia.
Qed.

Lemma lostBetween_empty (e : rtpExtInfo) (from to : Z) :
  In e (lostBetween from to) -> Timestamp e = 0.
Proof.
  unfold lostBetween. intros H. apply in_map_iff in H.
  now destruct H as (k & <- & _).
Qed.

Lemma gatherStep_above (cur : Z) (acc : list rtpExtInfo) (e : rtpExtInfo) :
  0 < cur -> cur < ExtTSN e < 2 ^ 32 ->
  gatherStep (cur, acc) e
  = (ExtTSN e, (acc ++ lostBetween (cur + 1) (ExtTSN e)) ++ [e]).
Proof.
  intros Hc He. unfold gatherStep. cbn [fst snd].
  replace (ExtTSN e <? cur) with false by (symmetry; apply Z.ltb_ge; lia).
  replace (cur =? 0) with false by (symmetry; apply Z.eqb_neq; lia).
  cbn [negb].
  assert (Hu : u32 (cur + 1) = cur + 1) by (apply Z.mod_small; lia).
  now rewrite Hu.
Qed.

Lemma gatherStep_first (acc : list rtpExtInfo) (e : rtpExtInfo) :
  0 <= ExtTSN e -> gatherStep (0, acc) e = (ExtTSN e, acc ++ [e]).
Proof.
  intros He. unfold gatherStep. cbn [fst snd].
  now replace (ExtTSN e <? 0) with false by (symmetry; apply Z.ltb_ge; lia).
Qed.

Lemma last_ge (d : Z) (l : list Z) :
  StronglySorted Z.lt (d :: l) -> d <= List.last l d.
Proof.
  intros Hs. inversion Hs as [|? ? _ Hall]; subst.
  destruct l as [|x xs]; [cbn; lia|].
  rewrite List.Forall_forall in Hall.
  assert (H : In (List.last (x :: xs) d) (x :: xs)).
  { clear. revert x. induction xs as [|y ys IHx]; intros x.
    - now left.
    - right. apply (IHx y). }
  specialize (Hall _ H). lia.
Qed.

(** The loop of [buildTransportCCPacket] over entries in increasing order,
    all above the last number reported. *)
Lemma gather_run (l : list rtpExtInfo) : forall cur acc,
  0 < cur ->
  StronglySorted Z.lt (cur :: map ExtTSN l) ->
  Forall (fun e => ExtTSN e < 2 ^ 32) l ->
  let r := fold_left gatherStep l (cur, acc) in
  fst r = List.last (map ExtTSN l) cur
  /\ exists added,
       snd r = acc ++ added
       /\ map ExtTSN added = fromTo (cur + 1) (fst r)
       /\ (forall e, In e l -> In e added)
       /\ (forall e, In e added -> In e l \/ Timestamp e = 0).
Proof.
  induction l as [|e l IH]; intros cur acc Hcur Hs Hr; cbv zeta.
  - cbn [fold_left fst snd map List.last]. split; [reflexivity|].
    exists []. rewrite app_nil_r. repeat split; try (intros ? []).
    unfold fromTo. now replace (Z.to_nat (cur - (cur + 1) + 1)) with 0%nat by lia.
  - cbn [map] in Hs. inversion Hs as [|? ? Hs' Hall]; subst.
    inversion Hall as [|? ? Hlt _]; subst.
    inversion Hr as [|? ? He Hr']; subst.
    cbn [fold_left]. rewrite gatherStep_above by lia.
    destruct (IH (ExtTSN e) ((acc ++ lostBetween (cur + 1) (ExtTSN e)) ++ [e])
                ltac:(lia) Hs' Hr') as (Hf & added & Hsnd & Hnum & Hin & Hout).
    assert (Hlast : List.last (map ExtTSN (e :: l)) cur
                    = List.last (map ExtTSN l) (ExtTSN e)).
    { cbn [map]. apply NackFacts.last_cons. }
    pose proof (last_ge _ _ Hs') as Hge.
    split; [rewrite Hf; now rewrite Hlast|].
    exists (lostBetween (cur + 1) (ExtTSN e) ++ e :: added).
    split; [rewrite Hsnd; now rewrite <- !app_assoc|].
    split.
    + rewrite map_app. cbn [map]. rewrite lostBetween_numbers, Hnum, Hf.
      set (top := List.last (map ExtTSN l) (ExtTSN e)) in *.
      rewrite <- (fromTo_join (cur + 1) (ExtTSN e - 1) top) by lia.
      f_equal. replace (ExtTSN e - 1 + 1) with (ExtTSN e) by lia.
      symmetry. apply fromTo_cons. lia.
    + split.
      * intros x [<-|Hx]; apply in_or_app; right; [now left | right; now apply Hin].
      * intros x Hx. apply in_app_or in Hx. destruct Hx as [Hx|[<-|Hx]].
        -- right. eapply lostBetween_empty, Hx.
        -- left. now left.
        -- destruct (Hout x Hx) as [H|H]; [left; now right | now right].
Qed.

(** The entries a feedback packet reports, for arrivals in increasing order
    that all lie above the last number reported: every number from the
    one after the last reported (from the first arrival, for the first
    report) up to the highest arrival, once and in order; the arrivals are
    among them as they were recorded, every other entry has no arrival time
    and is reported as not received. *)
Theorem gather_covers_range (last : Z) (e0 : rtpExtInfo) (l : list rtpExtInfo) :
  StronglySorted Z.lt (map ExtTSN (e0 :: l)) ->
  Forall (fun e => 0 < ExtTSN e < 2 ^ 32) (e0 :: l) ->
  last = 0 \/ 0 < last < ExtTSN e0 ->
  let start := if last =? 0 then ExtTSN e0 else last + 1 in
  let g := gather last (e0 :: l) in
  fst g = List.last (map ExtTSN (e0 :: l)) 0
  /\ map ExtTSN (snd g) = fromTo start (fst g)
  /\ (forall e, In e (e0 :: l) -> In e (snd g))
  /\ (forall e, In e (snd g) -> In e (e0 :: l) \/ Timestamp e = 0).
Proof.
  intros Hs Hr Hlast. cbv zeta.
  assert (Hr' : Forall (fun e => ExtTSN e < 2 ^ 32) (e0 :: l))
    by (eapply List.Forall_impl; [|exact Hr]; cbn; intros; lia).
  assert (H0 : 0 < ExtTSN e0) by (inversion Hr; subst; lia).
  assert (Hl0 : List.last (map ExtTSN (e0 :: l)) 0
                = List.last (map ExtTSN l) (ExtTSN e0)).
  { cbn [map]. apply NackFacts.last_cons. }
  destruct Hlast as [->|Hlast].
  - unfold gather. cbn [fold_left]. rewrite gatherStep_first by lia.
    cbn [Z.eqb app].
    inversion Hr' as [|? ? _ Hr'']; subst.
    destruct (gather_run l (ExtTSN e0) [e0] H0 Hs Hr'')
      as (Hf & added & Hsnd & Hnum & Hin & Hout).
    assert (Hge : ExtTSN e0 <= fst (fold_left gatherStep l (ExtTSN e0, [e0])))
      by (rewrite Hf; apply last_ge; exact Hs).
    split; [now rewrite Hf, Hl0|]. rewrite Hsnd. split.
    + cbn [app map]. rewrite Hnum.
      symmetry. apply fromTo_cons. lia.
    + split.
      * intros x [<-|Hx]; [now left | right; now apply Hin].
      * intros x [<-|Hx]; [left; now left|].
        destruct (Hout x Hx) as [H|H]; [left; now right | now right].
  - replace (last =? 0) with false by (symmetry; apply Z.eqb_neq; lia).
    unfold gather.
    assert (Hs1 : StronglySorted Z.lt (last :: map ExtTSN (e0 :: l))).
    { constructor; [exact Hs|]. cbn [map] in *.
      inversion Hs as [|? ? _ Hall]; subst.
      constructor; [lia|]. eapply List.Forall_impl; [|exact Hall].
      cbn. intros. lia. }
    destruct (gather_run (e0 :: l) last [] ltac:(lia) Hs1 Hr')
      as (Hf & added & Hsnd & Hnum & Hin & Hout).
    cbn [app] in Hsnd. rewrite Hsnd.
    split; [rewrite Hf; cbn [map]; now rewrite !NackFacts.last_cons|].
    split; [exact Hnum|]. split; assumption.
Qed.

Lemma gather_covers_range_witness :
  let l := [mkInfo 12 5000; mkInfo 15 6000] in
  let g := gather 10 l in
  fst g = List.last (map ExtTSN l) 0
  /\ map ExtTSN (snd g) = fromTo (if 10 =? 0 then 12 else 10 + 1) (fst g)
  /\ (forall e, In e l -> In e (snd g))
  /\ (forall e, In e (snd g) -> In e l \/ Timestamp e = 0).
Proof.
  apply (gather_covers_range 10 (mkInfo 12 5000) [mkInfo 15 6000]).
  - cbn. repeat constructor.
  - repeat constructor; cbn; lia.
  - right. cbn. lia.
Defined.

(** *** Packet status chunks *)

Lemma lor_disjoint (hi lo n : Z) :
  0 <= n -> 0 <= lo < 2 ^ n -> Z.lor (Z.shiftl hi n) lo = hi * 2 ^ n + lo.
Proof.
  intros Hn Hlo. rewrite <- Z.shiftl_mul_pow2 by lia.
  rewrite <- Z.lxor_lor, <- Z.add_nocarry_lxor; try reflexivity.
  all: apply Z.bits_inj'; intros i Hi; rewrite Z.land_spec, Z.bits_0.
  all: destruct (Z.lt_ge_cases i n) as [Hlt|Hge];
    [rewrite Z.shiftl_spec_low by lia; reflexivity|].
  all: rewrite <- (Z.mod_small lo (2 ^ n)) by lia.
  all: rewrite Z.mod_pow2_bits_high by lia; apply andb_false_r.
Qed.

Lemma be16_bytes (v : Z) :
  0 <= v < 2 ^ 16 -> u8 (Z.shiftr v 8) * 256 + u8 v = v.
Proof.
  intros Hv. unfold u8, wrap. rewrite Z.shiftr_div_pow2 by lia.
  change (2 ^ 16) with 65536 in *. change (2 ^ 8) with 256.
  rewrite (Z.mod_small (v / 256) 256)
    by (split; [apply Z.div_pos; lia | apply Z.div_lt_upper_bound; lia]).
  pose proof (Z.div_mod v 256). lia.
Qed.

Lemma put16_word {R} (s : list Z) (off v : Z) :
  0 <= off -> off + 2 <= len s -> 0 <= v < 2 ^ 16 ->
  exists s',
    @be_put_uint16 R s off v = Cont s'
    /\ len s' = len s /\ word16 s' off = v
    /\ forall i, (i < Z.to_nat off \/ Z.to_nat off + 2 <= i)%nat ->
                 nth i s' 0 = nth i s 0.
Proof.
  intros H0 H1 Hv.
  rewrite BucketFacts.be_put_uint16_fits by lia.
  eexists. split; [reflexivity|].
  assert (Hl : off + len [u8 (Z.shiftr v 8); u8 v] <= len s)
    by (unfold len in *; cbn [length]; lia).
  split; [now apply BucketFacts.copy_bytes_length|]. split.
  - unfold word16. rewrite !BucketFacts.copy_bytes_nth by assumption.
    cbn [length].
    replace (Z.to_nat off <=? Z.to_nat off)%nat with true
      by (symmetry; apply Nat.leb_le; lia).
    replace (Z.to_nat off <? Z.to_nat off + 2)%nat with true
      by (symmetry; apply Nat.ltb_lt; lia).
    replace (Z.to_nat off <=? Z.to_nat (off + 1))%nat with true
      by (symmetry; apply Nat.leb_le; lia).
    replace (Z.to_nat (off + 1) <? Z.to_nat off + 2)%nat with true
      by (symmetry; apply Nat.ltb_lt; lia).
    cbn [andb]. rewrite Nat.sub_diag.
    replace (Z.to_nat (off + 1) - Z.to_nat off)%nat with 1%nat by lia.
    cbn [nth]. now apply be16_bytes.
  - intros i Hi. rewrite BucketFacts.copy_bytes_nth by assumption. cbn [length].
    destruct Hi as [Hi|Hi].
    + now replace (Z.to_nat off <=? i)%nat with false
        by (symmetry; apply Nat.leb_gt; lia).
    + replace (i <? Z.to_nat off + 2)%nat with false
        by (symmetry; apply Nat.ltb_ge; lia).
      now rewrite andb_false_r.
Qed.

(** A run-length chunk holds the status in its bits 14 and 13 and the run
    length in the thirteen bits below: a receiver reads the status back
    [runLength] times. *)
Theorem writeRunLengthChunk_layout {R} (symbol runLength : Z) (t : Responder) :
  0 <= symbol <= 3 -> 0 <= runLength < 2 ^ 13 ->
  0 <= plen t -> plen t + 2 <= len (payload t) -> len (payload t) < 2 ^ 16 ->
  exists t',
    @writeRunLengthChunk R symbol runLength t = Cont t'
    /\ plen t' = plen t + 2
    /\ word16 (payload t') (plen t) = symbol * 2 ^ 13 + runLength
    /\ chunkSymbols (word16 (payload t') (plen t))
       = repeat symbol (Z.to_nat runLength)
    /\ forall i, (i < Z.to_nat (plen t) \/ Z.to_nat (plen t) + 2 <= i)%nat ->
                 nth i (payload t') 0 = nth i (payload t) 0.
Proof.
  intros Hs Hr H0 H1 H2. unfold writeRunLengthChunk.
  assert (Hsh : u16 (Z.shiftl symbol 13) = Z.shiftl symbol 13).
  { apply Z.mod_small. rewrite Z.shiftl_mul_pow2 by lia.
    change (2 ^ 13) with 8192. change (2 ^ 16) with 65536. lia. }
  rewrite Hsh, (lor_disjoint symbol runLength 13) by lia.
  change (2 ^ 13) with 8192 in *. change (2 ^ 16) with 65536 in *.
  destruct (put16_word (R := R) (payload t) (plen t) (symbol * 8192 + runLength))
    as (p & -> & Hl & Hw & Hframe); try lia.
  cbn [bind]. eexists. split; [reflexivity|]. cbn [plen payload set_plen set_payload].
  split; [apply Z.mod_small; change (2 ^ 16) with 65536; lia|].
  split; [exact Hw|]. split; [|exact Hframe].
  rewrite Hw. unfold chunkSymbols.
  assert (Hbit : Z.testbit (symbol * 8192 + runLength) 15 = false).
  { rewrite <- (Z.mod_small (symbol * 8192 + runLength) (2 ^ 15))
      by (change (2 ^ 15) with 32768; lia).
    apply Z.mod_pow2_bits_high. lia. }
  rewrite Hbit. f_equal.
  - rewrite Z.shiftr_div_pow2 by lia. change (2 ^ 13) with 8192.
    replace ((symbol * 8192 + runLength) / 8192) with symbol
      by (apply Z.div_unique with runLength; lia).
    change 3 with (Z.ones 2). rewrite Z.land_ones by lia.
    apply Z.mod_small. change (2 ^ 2) with 4. lia.
  - f_equal. change 0x1fff with (Z.ones 13). rewrite Z.land_ones by lia.
    change (2 ^ 13) with 8192.
    symmetry. apply Z.mod_unique with symbol; lia.
Qed.

Lemma eqbList_eq (a : list Z) : forall b, eqbList a b = true -> a = b.
Proof.
  induction a as [|x a IH]; intros [|y b] H; try discriminate; [reflexivity|].
  cbn in H. apply andb_true_iff in H. destruct H as [H1 H2].
  apply Z.eqb_eq in H1. subst y. f_equal. now apply IH.
Qed.

Lemma In_words (alphabet : list Z) (l : list Z) :
  Forall (fun x => In x alphabet) l -> In l (words (length l) alphabet).
Proof.
  induction 1 as [|x l Hx Hl IH]; [now left|].
  cbn [length words]. apply in_flat_map. exists x. split; [exact Hx|].
  now apply in_map.
Qed.

Lemma one_bit_vectors : forallb (vectorOk 0) (words 14 [0; 1]) = true.
Proof. vm_compute. reflexivity. Qed.

Lemma two_bit_vectors : forallb (vectorOk 1) (words 7 [0; 1; 2; 3]) = true.
Proof. vm_compute. reflexivity. Qed.

Lemma popSymbols_packed {R} (size : Z) (syms rest : list Z) : forall (i : Z) (t : Responder),
  @popSymbols R size (length syms) i (syms ++ rest) t
  = Cont (rest, set_chunk (packed size i syms (chunk t)) t).
Proof.
  induction syms as [|x syms IH]; intros i t.
  - cbn. now destruct t.
  - cbn [length app popSymbols]. rewrite IH. reflexivity.
Qed.

(** A full status vector chunk, fourteen one-bit or seven two-bit symbols
    taken from the front of the deque: the word written has bit 15 set, the
    symbol size in bit 14 and the symbols below, first symbol highest, so
    that a receiver reads back the symbols as they were queued; [t.chunk]
    is cleared for the next chunk. *)
Theorem status_vector_chunk_layout {R} (size : Z) (syms rest : list Z) (t : Responder) :
  (size = TypeTCCSymbolSizeOneBit /\ length syms = 14%nat
   /\ Forall (fun x => 0 <= x <= 1) syms)
  \/ (size = TypeTCCSymbolSizeTwoBit /\ length syms = 7%nat
      /\ Forall (fun x => 0 <= x <= 3) syms) ->
  chunk t = 0 ->
  0 <= plen t -> plen t + 2 <= len (payload t) -> len (payload t) < 2 ^ 16 ->
  exists t1 t2,
    @popSymbols R size (length syms) 0 (syms ++ rest) t = Cont (rest, t1)
    /\ @writeStatusSymbolChunk R size t1 = Cont t2
    /\ chunk t2 = 0 /\ plen t2 = plen t + 2
    /\ word16 (payload t2) (plen t)
       = 2 ^ 15 + size * 2 ^ 14 + positional (2 ^ (size + 1)) syms
    /\ chunkSymbols (word16 (payload t2) (plen t)) = syms
    /\ forall i, (i < Z.to_nat (plen t) \/ Z.to_nat (plen t) + 2 <= i)%nat ->
                 nth i (payload t2) 0 = nth i (payload t) 0.
Proof.
  intros Hsyms Hc H0 H1 H2.
  assert (Hok : vectorOk size syms = true).
  { destruct Hsyms as [(-> & Hl & Hall)|(-> & Hl & Hall)].
    - pose proof one_bit_vectors as Hv. rewrite forallb_forall in Hv.
      apply Hv. rewrite <- Hl. apply In_words.
      eapply List.Forall_impl; [|exact Hall]. cbn [In]. intros x Hx. lia.
    - pose proof two_bit_vectors as Hv. rewrite forallb_forall in Hv.
      apply Hv. rewrite <- Hl. apply In_words.
      eapply List.Forall_impl; [|exact Hall]. cbn [In]. intros x Hx. lia. }
  unfold vectorOk in Hok. cbv zeta in Hok.
  apply andb_true_iff in Hok. destruct Hok as [Hok Hdec].
  apply andb_true_iff in Hok. destruct Hok as [Hok Hlay].
  apply andb_true_iff in Hok. destruct Hok as [Hlo Hhi].
  apply Z.leb_le in Hlo. apply Z.ltb_lt in Hhi. apply Z.eqb_eq in Hlay.
  apply eqbList_eq in Hdec.
  rewrite popSymbols_packed, Hc.
  destruct (put16_word (R := R) (payload t) (plen t)
              (vectorWord size (packed size 0 syms 0)))
    as (p & Hput & Hl & Hw & Hframe); try lia.
  eexists _, _. split; [reflexivity|].
  unfold writeStatusSymbolChunk. cbn [chunk payload plen set_chunk].
  fold (vectorWord size (packed size 0 syms 0)). rewrite Hput.
  cbn [bind]. split; [reflexivity|].
  cbn [chunk plen payload set_plen set_chunk set_payload].
  split; [reflexivity|].
  split; [apply Z.mod_small; change (2 ^ 16) with 65536 in *; lia|].
  rewrite Hw. repeat split; assumption.
Qed.

(** *** The feedback header *)

Lemma be32_bytes (v : Z) :
  0 <= v < 2 ^ 32 ->
  (u8 (Z.shiftr v 24) * 256 + u8 (Z.shiftr v 16)) * 2 ^ 16
  + (u8 (Z.shiftr v 8) * 256 + u8 v) = v.
Proof.
  intros Hv. unfold u8, wrap. rewrite !Z.shiftr_div_pow2 by lia.
  change (2 ^ 32) with 4294967296 in *. change (2 ^ 8) with 256.
  change (2 ^ 16) with 65536. change (2 ^ 24) with 16777216.
  pose proof (Z.div_mod v 256 ltac:(lia)).
  pose proof (Z.div_mod (v / 256) 256 ltac:(lia)).
  pose proof (Z.div_mod (v / 256 / 256) 256 ltac:(lia)).
  pose proof (Z.mod_pos_bound v 256 ltac:(lia)).
  pose proof (Z.mod_pos_bound (v / 256) 256 ltac:(lia)).
  pose proof (Z.mod_pos_bound (v / 256 / 256) 256 ltac:(lia)).
  rewrite !Z.div_div in * by lia. cbn [Z.mul Pos.mul] in *.
  change (256 * 256) with 65536 in *. change (65536 * 256) with 16777216 in *.
  assert (0 <= v / 16777216 < 256)
    by (split; [apply Z.div_pos; lia | apply Z.div_lt_upper_bound; lia]).
  rewrite (Z.mod_small (v / 16777216) 256) by lia. lia.
Qed.

Lemma put32_word {R} (s : list Z) (off v : Z) :
  0 <= off -> off + 4 <= len s -> 0 <= v < 2 ^ 32 ->
  exists s',
    @be_put_uint32 R s off v = Cont s'
    /\ len s' = len s /\ word32 s' off = v
    /\ forall i, (i < Z.to_nat off \/ Z.to_nat off + 4 <= i)%nat ->
                 nth i s' 0 = nth i s 0.
Proof.
  intros H0 H1 Hv. unfold be_put_uint32.
  replace ((0 <=? off) && (off + 4 <=? len s)) with true
    by (symmetry; apply andb_true_iff; split; apply Z.leb_le; lia).
  assert (Hl : off + len [u8 (Z.shiftr v 24); u8 (Z.shiftr v 16);
                          u8 (Z.shiftr v 8); u8 v] <= len s)
    by (unfold len in *; cbn [length]; lia).
  rewrite BucketFacts.copy_at_fits by assumption.
  eexists. split; [reflexivity|].
  split; [now apply BucketFacts.copy_bytes_length|]. split.
  - unfold word32, word16. rewrite !BucketFacts.copy_bytes_nth by assumption.
    cbn [length].
    repeat match goal with
    | |- context [(?x <=? ?y)%nat] =>
        replace (x <=? y)%nat with true by (symmetry; apply Nat.leb_le; lia)
    | |- context [(?x <? ?y)%nat] =>
        replace (x <? y)%nat with true by (symmetry; apply Nat.ltb_lt; lia)
    end.
    cbn [andb]. rewrite Nat.sub_diag.
    replace (Z.to_nat (off + 1) - Z.to_nat off)%nat with 1%nat by lia.
    replace (Z.to_nat (off + 2) - Z.to_nat off)%nat with 2%nat by lia.
    replace (Z.to_nat (off + 2 + 1) - Z.to_nat off)%nat with 3%nat by lia.
    cbn [nth]. now apply be32_bytes.
  - intros i Hi. rewrite BucketFacts.copy_bytes_nth by assumption. cbn [length].
    destruct Hi as [Hi|Hi].
    + now replace (Z.to_nat off <=? i)%nat with false
        by (symmetry; apply Nat.leb_gt; lia).
    + replace (i <? Z.to_nat off + 4)%nat with false
        by (symmetry; apply Nat.ltb_ge; lia).
      now rewrite andb_false_r.
Qed.

Lemma word16_frame (s s' : list Z) (off : Z) :
  0 <= off ->
  (forall i, (Z.to_nat off <= i < Z.to_nat off + 2)%nat -> nth i s' 0 = nth i s 0) ->
  word16 s' off = word16 s off.
Proof.
  intros H0 H. unfold word16. rewrite !H by lia. reflexivity.
Qed.

Lemma word32_frame (s s' : list Z) (off : Z) :
  0 <= off ->
  (forall i, (Z.to_nat off <= i < Z.to_nat off + 4)%nat -> nth i s' 0 = nth i s 0) ->
  word32 s' off = word32 s off.
Proof.
  intros H0 H. unfold word32.
  rewrite !(word16_frame s s') by (try lia; intros; apply H; lia). reflexivity.
Qed.

Lemma refTime_word (refTime count : Z) :
  0 <= refTime -> 0 <= count < 2 ^ 8 ->
  Z.lor (u32 (Z.shiftl refTime 8)) count = refTime mod 2 ^ 24 * 2 ^ 8 + count
  /\ 0 <= refTime mod 2 ^ 24 * 2 ^ 8 + count < 2 ^ 32.
Proof.
  intros Hr Hc.
  assert (E : u32 (Z.shiftl refTime 8) = Z.shiftl (refTime mod 2 ^ 24) 8).
  { unfold u32, wrap. rewrite !Z.shiftl_mul_pow2 by lia.
    change (2 ^ 32) with (2 ^ 24 * 2 ^ 8).
    apply Z.mul_mod_distr_r; lia. }
  rewrite E, lor_disjoint by lia. split; [reflexivity|].
  pose proof (Z.mod_pos_bound refTime (2 ^ 24) ltac:(lia)).
  change (2 ^ 24) with 16777216 in *. change (2 ^ 8) with 256 in *.
  change (2 ^ 32) with 4294967296. lia.
Qed.

(** The sixteen bytes [writeHeader] lays down: sender SSRC, media SSRC, base
    sequence number, status count, then the reference time in 24 bits — what
    is above them is dropped — and the feedback packet count in the last
    byte.  The rest of the payload array is not touched and the chunks start
    at offset 16. *)
Theorem writeHeader_layout {R} (bSN packetCount refTime : Z) (t : Responder) :
  16 <= len (payload t) ->
  0 <= sSSRC t < 2 ^ 32 -> 0 <= mSSRC t < 2 ^ 32 ->
  0 <= bSN < 2 ^ 16 -> 0 <= packetCount < 2 ^ 16 ->
  0 <= refTime -> 0 <= pktCtn t < 2 ^ 8 ->
  exists t',
    @writeHeader R bSN packetCount refTime t = Cont t'
    /\ plen t' = 16 /\ len (payload t') = len (payload t)
    /\ word32 (payload t') 0 = sSSRC t
    /\ word32 (payload t') 4 = mSSRC t
    /\ word16 (payload t') 8 = bSN
    /\ word16 (payload t') 10 = packetCount
    /\ word32 (payload t') 12 = refTime mod 2 ^ 24 * 2 ^ 8 + pktCtn t
    /\ (forall i, (16 <= i)%nat -> nth i (payload t') 0 = nth i (payload t) 0)
    /\ pktCtn t' = pktCtn t /\ deltas t' = deltas t /\ deltaLen t' = deltaLen t
    /\ chunk t' = chunk t.
Proof.
  intros Hlen Hs Hm Hb Hc Hr Hk. unfold writeHeader.
  unfold baseSequenceNumberOffset, packetStatusCountOffset, referenceTimeOffset.
  destruct (refTime_word refTime (pktCtn t) Hr Hk) as [-> Hw].
  destruct (put32_word (R := R) (payload t) 0 (sSSRC t))
    as (p1 & -> & L1 & W1 & F1); try lia. cbn [bind].
  destruct (put32_word (R := R) p1 4 (mSSRC t))
    as (p2 & -> & L2 & W2 & F2); try lia. cbn [bind].
  destruct (put16_word (R := R) p2 8 bSN)
    as (p3 & -> & L3 & W3 & F3); try lia. cbn [bind].
  destruct (put16_word (R := R) p3 10 packetCount)
    as (p4 & -> & L4 & W4 & F4); try lia. cbn [bind].
  destruct (put32_word (R := R) p4 12 (refTime mod 2 ^ 24 * 2 ^ 8 + pktCtn t))
    as (p5 & -> & L5 & W5 & F5); try lia. cbn [bind].
  eexists. split; [reflexivity|].
  cbn [plen payload pktCtn deltas deltaLen chunk set_plen set_payload].
  split; [reflexivity|]. split; [lia|].
  split.
  { rewrite <- W1. rewrite (word32_frame p4 p5), (word32_frame p3 p4),
      (word32_frame p2 p3), (word32_frame p1 p2); try lia; try reflexivity;
      intros i Hi; [apply F2 | apply F3 | apply F4 | apply F5]; lia. }
  split.
  { rewrite <- W2. rewrite (word32_frame p4 p5), (word32_frame p3 p4),
      (word32_frame p2 p3); try lia; try reflexivity;
      intros i Hi; [apply F3 | apply F4 | apply F5]; lia. }
  split.
  { rewrite <- W3. rewrite (word16_frame p4 p5), (word16_frame p3 p4);
      try lia; try reflexivity; intros i Hi; [apply F4 | apply F5]; lia. }
  split.
  { rewrite <- W4. rewrite (word16_frame p4 p5);
      try lia; try reflexivity; intros i Hi; apply F5; lia. }
  split; [exact W5|].
  split; [|repeat split].
  intros i Hi. rewrite F5, F4, F3, F2, F1 by lia. reflexivity.
Qed.

Lemma writeRunLengthChunk_layout_witness :
  let t := set_plen 16 (NewTransportWideCCResponder 7 9) in
  exists t',
    @writeRunLengthChunk Empty_set 1 9 t = Cont t'
    /\ plen t' = plen t + 2
    /\ word16 (payload t') (plen t) = 1 * 2 ^ 13 + 9
    /\ chunkSymbols (word16 (payload t') (plen t)) = repeat 1 (Z.to_nat 9)
    /\ forall i, (i < Z.to_nat (plen t) \/ Z.to_nat (plen t) + 2 <= i)%nat ->
                 nth i (payload t') 0 = nth i (payload t) 0.
Proof.
  apply (writeRunLengthChunk_layout 1 9 (set_plen 16 (NewTransportWideCCResponder 7 9)));
    vm_compute; repeat split; discriminate || reflexivity.
Defined.

Lemma status_vector_chunk_layout_witness :
  let t := set_plen 16 (NewTransportWideCCResponder 7 9) in
  let syms := [1; 2; 0; 1; 1; 2; 1] in
  exists t1 t2,
    @popSymbols Empty_set 1 (length syms) 0 (syms ++ [1; 1]) t = Cont ([1; 1], t1)
    /\ @writeStatusSymbolChunk Empty_set 1 t1 = Cont t2
    /\ chunk t2 = 0 /\ plen t2 = plen t + 2
    /\ word16 (payload t2) (plen t)
       = 2 ^ 15 + 1 * 2 ^ 14 + positional (2 ^ (1 + 1)) syms
    /\ chunkSymbols (word16 (payload t2) (plen t)) = syms
    /\ forall i, (i < Z.to_nat (plen t) \/ Z.to_nat (plen t) + 2 <= i)%nat ->
                 nth i (payload t2) 0 = nth i (payload t) 0.
Proof.
  apply (status_vector_chunk_layout 1 [1; 2; 0; 1; 1; 2; 1] [1; 1]
           (set_plen 16 (NewTransportWideCCResponder 7 9))).
  - right. split; [reflexivity|]. split; [reflexivity|].
    repeat constructor; discriminate.
  - reflexivity.
  - vm_compute. discriminate.
  - vm_compute. discriminate.
  - vm_compute. reflexivity.
Defined.

Lemma writeHeader_layout_witness :
  let t := NewTransportWideCCResponder 7 9 in
  exists t',
    @writeHeader Empty_set 1 23 1000000 t = Cont t'
    /\ plen t' = 16 /\ len (payload t') = len (payload t)
    /\ word32 (payload t') 0 = sSSRC t
    /\ word32 (payload t') 4 = mSSRC t
    /\ word16 (payload t') 8 = 1
    /\ word16 (payload t') 10 = 23
    /\ word32 (payload t') 12 = 1000000 mod 2 ^ 24 * 2 ^ 8 + pktCtn t
    /\ (forall i, (16 <= i)%nat -> nth i (payload t') 0 = nth i (payload t) 0)
    /\ pktCtn t' = pktCtn t /\ deltas t' = deltas t /\ deltaLen t' = deltaLen t
    /\ chunk t' = chunk t.
Proof.
  apply (writeHeader_layout 1 23 1000000 (NewTransportWideCCResponder 7 9));
    vm_compute; repeat split; discriminate || reflexivity.
Defined.

(** *** The RTCP packet *)

Lemma copy_at_exact {R} (pre old post src : list Z) :
  length old = length src ->
  @copy_at R (pre ++ old ++ post) (len pre) src = Cont (pre ++ src ++ post).
Proof.
  intros Hl. unfold copy_at, len. rewrite !length_app.
  replace ((0 <=? Z.of_nat (length pre))
           && (Z.of_nat (length pre)
               <=? Z.of_nat (length pre + (length old + length post)))) with true
    by (symmetry; apply andb_true_iff; split; apply Z.leb_le; lia).
  rewrite Nat2Z.id.
  replace (Nat.min _ (length src)) with (length src) by lia.
  rewrite List.firstn_app, List.firstn_all, Nat.sub_diag. cbn [firstn].
  rewrite app_nil_r, List.firstn_all.
  rewrite List.skipn_app, List.skipn_all2 by lia. cbn [app].
  replace (length pre + length src - length pre)%nat with (length old) by lia.
  rewrite List.skipn_app, List.skipn_all, Nat.sub_diag. reflexivity.
Qed.

Lemma repeat_add {A} (x : A) (a b : nat) :
  repeat x (a + b) = repeat x a ++ repeat x b.
Proof. apply repeat_app. Qed.

(** The packet [buildTransportCCPacket] hands out: the RTCP header, the
    bytes of the payload and of the deltas written so far, and padding to a
    multiple of four bytes; the header counts the 32-bit words after the
    first and flags the padding. *)
Theorem assemble_packet {R} (t : Responder) :
  0 <= plen t <= len (payload t) -> 0 <= deltaLen t <= len (deltas t) ->
  plen t + deltaLen t + 7 < 2 ^ 16 ->
  let n := 4 + plen t + deltaLen t in
  let padSize := (4 - n mod 4) mod 4 in
  exists pkt,
    @assemble R t = Cont pkt
    /\ pkt = marshalHeader (negb (padSize =? 0)) FormatTCC
               TypeTransportSpecificFeedback (len pkt / 4 - 1)
             ++ firstn (Z.to_nat (plen t)) (payload t)
             ++ firstn (Z.to_nat (deltaLen t)) (deltas t)
             ++ padding padSize
    /\ len pkt = n + padSize /\ len pkt mod 4 = 0.
Proof.
  intros Hp Hd Hsz. cbv zeta. unfold assemble.
  change (2 ^ 16) with 65536 in *.
  assert (E1 : u16 (u16 (plen t + deltaLen t) + 4) = 4 + plen t + deltaLen t).
  { unfold u16, wrap. change (2 ^ 16) with 65536.
    rewrite (Z.mod_small (plen t + deltaLen t)) by lia.
    rewrite Z.mod_small by lia. lia. }
  rewrite E1.
  set (n := 4 + plen t + deltaLen t) in *.
  set (padSize := (4 - n mod 4) mod 4).
  assert (Hpad : 0 <= padSize < 4) by (apply Z.mod_pos_bound; lia).
  assert (Hal : (n + padSize) mod 4 = 0).
  { subst padSize. pose proof (Z.mod_pos_bound n 4 ltac:(lia)) as Hn.
    pose proof (Z.div_mod n 4 ltac:(lia)) as Dn.
    destruct (Z.eq_dec (n mod 4) 0) as [E|E].
    - rewrite E. change ((4 - 0) mod 4) with 0. now rewrite Z.add_0_r.
    - rewrite (Z.mod_small (4 - n mod 4)) by lia.
      replace (n + (4 - n mod 4)) with ((n / 4 + 1) * 4) by lia.
      apply Z.mod_mul. lia. }
  assert (E2 : u16 (n + padSize) = n + padSize)
    by (apply Z.mod_small; change (2 ^ 16) with 65536; lia).
  rewrite E2.
  assert (E3 : u16 ((n + padSize) / 4 - 1) = (n + padSize) / 4 - 1).
  { apply Z.mod_small. change (2 ^ 16) with 65536.
    pose proof (Z.div_mod (n + padSize) 4 ltac:(lia)). lia. }
  rewrite E3.
  assert (Epad : negb (n mod 4 =? 0) = negb (padSize =? 0)).
  { f_equal. subst padSize. pose proof (Z.mod_pos_bound n 4 ltac:(lia)) as Hn.
    destruct (Z.eqb_spec (n mod 4) 0) as [E|E].
    - now rewrite E.
    - rewrite (Z.mod_small (4 - n mod 4)) by lia. symmetry. apply Z.eqb_neq. lia. }
  rewrite Epad.
  set (hb := marshalHeader (negb (padSize =? 0)) FormatTCC
               TypeTransportSpecificFeedback ((n + padSize) / 4 - 1)).
  set (body := firstn (Z.to_nat (plen t)) (payload t)).
  set (ds := firstn (Z.to_nat (deltaLen t)) (deltas t)).
  assert (Lb : length body = Z.to_nat (plen t))
    by (subst body; rewrite length_firstn; unfold len in *; lia).
  assert (Ld : length ds = Z.to_nat (deltaLen t))
    by (subst ds; rewrite length_firstn; unfold len in *; lia).
  assert (E0 : Nack.copy (repeat 0 (Z.to_nat (n + padSize))) hb
               = hb ++ repeat 0 (Z.to_nat (plen t))
                    ++ repeat 0 (Z.to_nat (deltaLen t))
                    ++ repeat 0 (Z.to_nat padSize)).
  { unfold Nack.copy. rewrite repeat_length.
    replace (Z.to_nat (n + padSize))
      with (4 + (Z.to_nat (plen t) + (Z.to_nat (deltaLen t) + Z.to_nat padSize)))%nat
      by lia.
    rewrite List.firstn_all2 by (cbn; lia).
    change (length hb) with 4%nat.
    rewrite (repeat_add 0 4), List.skipn_app, repeat_length.
    rewrite List.skipn_all2 by (rewrite repeat_length; lia).
    cbn [Nat.sub skipn app]. now rewrite !repeat_add. }
  rewrite E0.
  rewrite BucketFacts.slice_in_bounds by lia. cbn [bind].
  rewrite Z.sub_0_r. change (skipn (Z.to_nat 0) (payload t)) with (payload t).
  fold body.
  change 4 with (len hb) at 1.
  rewrite copy_at_exact by (now rewrite repeat_length). cbn [bind].
  rewrite BucketFacts.slice_in_bounds by lia. cbn [bind].
  rewrite Z.sub_0_r. change (skipn (Z.to_nat 0) (deltas t)) with (deltas t).
  fold ds.
  replace (4 + plen t) with (len (hb ++ body))
    by (unfold len; rewrite length_app, Lb; cbn [length hb marshalHeader]; lia).
  rewrite (app_assoc hb body).
  rewrite copy_at_exact by (now rewrite repeat_length). cbn [bind].
  assert (Llen : len ((hb ++ body) ++ ds ++ repeat 0 (Z.to_nat padSize)) = n + padSize).
  { unfold len. rewrite !length_app, repeat_length, Lb, Ld.
    cbn [length hb marshalHeader]. lia. }
  destruct (Z.eqb_spec padSize 0) as [Ez|Enz]; cbn [negb].
  - eexists. split; [reflexivity|].
    assert (Lp : len ((hb ++ body) ++ ds ++ repeat 0 (Z.to_nat padSize)) = n + padSize)
      by exact Llen.
    split; [|split; [exact Lp | now rewrite Lp]].
    rewrite Lp. unfold padding. subst hb. rewrite Ez.
    cbn [Z.eqb negb Z.to_nat repeat]. now rewrite <- !app_assoc.
  - unfold put_byte. rewrite Llen.
    replace ((0 <=? n + padSize - 1) && (n + padSize - 1 <? n + padSize)) with true
      by (symmetry; apply andb_true_iff; split; [apply Z.leb_le | apply Z.ltb_lt]; lia).
    replace (Z.to_nat padSize) with (Z.to_nat (padSize - 1) + 1)%nat by lia.
    rewrite repeat_add. cbn [repeat].
    replace (n + padSize - 1)
      with (len (((hb ++ body) ++ ds) ++ repeat 0 (Z.to_nat (padSize - 1))))
      by (unfold len; rewrite !length_app, repeat_length, Lb, Ld;
          cbn [length hb marshalHeader]; lia).
    replace ((hb ++ body) ++ ds ++ repeat 0 (Z.to_nat (padSize - 1)) ++ [0])
      with ((((hb ++ body) ++ ds) ++ repeat 0 (Z.to_nat (padSize - 1))) ++ [0] ++ [])
      by (now rewrite <- !app_assoc).
    rewrite copy_at_exact by reflexivity.
    eexists. split; [reflexivity|].
    assert (Eu : u8 padSize = padSize)
      by (apply Z.mod_small; change (2 ^ 8) with 256; lia).
    rewrite Eu.
    assert (Lp : len ((((hb ++ body) ++ ds) ++ repeat 0 (Z.to_nat (padSize - 1)))
                        ++ [padSize] ++ []) = n + padSize).
    { unfold len. rewrite !length_app, repeat_length, Lb, Ld.
      cbn [length hb marshalHeader]. lia. }
    split; [|split; [exact Lp | now rewrite Lp]].
    rewrite Lp. unfold padding. subst hb.
    replace (padSize =? 0) with false by (symmetry; apply Z.eqb_neq; lia).
    cbn [negb]. now rewrite <- !app_assoc.
Qed.

Lemma assemble_packet_witness :
  let t := set_deltaLen 3 (set_plen 18 (NewTransportWideCCResponder 7 9)) in
  let n := 4 + plen t + deltaLen t in
  let padSize := (4 - n mod 4) mod 4 in
  exists pkt,
    @assemble Empty_set t = Cont pkt
    /\ pkt = marshalHeader (negb (padSize =? 0)) FormatTCC
               TypeTransportSpecificFeedback (len pkt / 4 - 1)
             ++ firstn (Z.to_nat (plen t)) (payload t)
             ++ firstn (Z.to_nat (deltaLen t)) (deltas t)
             ++ padding padSize
    /\ len pkt = n + padSize /\ len pkt mod 4 = 0.
Proof.
  apply (assemble_packet (set_deltaLen 3 (set_plen 18 (NewTransportWideCCResponder 7 9))));
    vm_compute; repeat split; discriminate || reflexivity.
Defined.

(** *** What a report leaves behind *)

Ltac run_binds H :=
  repeat match type of H with
  | bind ?m _ = Cont _ =>
      let E := fresh "E" in destruct m eqn:E; cbn [bind] in H; try discriminate
  | (if ?c then _ else _) = Cont _ =>
      let E := fresh "E" in destruct c eqn:E; try discriminate
  end.

Lemma writeHeader_book {R} a b c t t' :
  @writeHeader R a b c t = Cont t' -> book t' = book t.
Proof.
  unfold writeHeader. intros H. run_binds H. now injection H as <-.
Qed.

Lemma writeRunLengthChunk_book {R} a b t t' :
  @writeRunLengthChunk R a b t = Cont t' -> book t' = book t.
Proof.
  unfold writeRunLengthChunk. intros H. run_binds H. now injection H as <-.
Qed.

Lemma writeStatusSymbolChunk_book {R} a t t' :
  @writeStatusSymbolChunk R a t = Cont t' -> book t' = book t.
Proof.
  unfold writeStatusSymbolChunk. intros H. run_binds H. now injection H as <-.
Qed.

Lemma writeDelta_book {R} a b t t' :
  @writeDelta R a b t = Cont t' -> book t' = book t.
Proof.
  unfold writeDelta. intros H. run_binds H; now injection H as <-.
Qed.

Lemma popSymbols_book {R} size n : forall i l t l' t',
  @popSymbols R size n i l t = Cont (l', t') -> book t' = book t.
Proof.
  induction n as [|n IH]; intros i l t l' t' H; cbn [popSymbols] in H.
  - now injection H as <- <-.
  - destruct l as [|x l]; [discriminate|]. now apply IH in H.
Qed.

Lemma popWhileBelowLen_book size turns : forall i l t,
  book (snd (popWhileBelowLen size turns i l t)) = book t.
Proof.
  induction turns as [|n IH]; intros i l t; cbn [popWhileBelowLen]; [reflexivity|].
  destruct (i <? len l); [|reflexivity].
  destruct l as [|x l]; [reflexivity|]. now rewrite IH.
Qed.

Lemma book_sameBook t0 t : book t = book t0 -> sameBook t0 t /\ pktCtn t = pktCtn t0.
Proof. unfold book, sameBook. intros [= -> -> -> -> -> -> -> ->]. repeat split. Qed.

Lemma sameBook_trans t0 t1 t2 : sameBook t0 t1 -> sameBook t1 t2 -> sameBook t0 t2.
Proof.
  unfold sameBook. intros (A1 & A2 & A3 & A4 & A5 & A6 & A7) (B1 & B2 & B3 & B4 & B5 & B6 & B7).
  repeat split; congruence.
Qed.

Lemma recordArrival_book {R} bSN count s stat t first ts status c0 :
  @recordArrival R bSN count s stat = Cont (t, first, ts, status) ->
  counted c0 s ->
  sameBook (resp s) t
  /\ pktCtn t = (if first then u8 (c0 + 1) else c0)
  /\ (firstRecv s = true -> first = true).
Proof.
  unfold recordArrival, counted. intros H Hc.
  destruct (Timestamp stat =? 0).
  { injection H as <- <- _ _. repeat split; auto. }
  destruct (firstRecv s) eqn:Ef; cbn [negb bind fst snd] in H.
  - run_binds H; injection H as <- <- _ _;
      match goal with E : writeDelta _ _ _ = Cont _ |- _ =>
        apply writeDelta_book, book_sameBook in E; destruct E as [E1 E2] end;
      (split; [exact E1|]); (split; [congruence | reflexivity]).
  - destruct (writeHeader _ _ _ _) as [th| |] eqn:Eh; cbn [bind fst snd] in H;
      try discriminate.
    apply writeHeader_book, book_sameBook in Eh. destruct Eh as [Eh1 Eh2].
    run_binds H; injection H as <- <- _ _;
      match goal with E : writeDelta _ _ _ = Cont _ |- _ =>
        apply writeDelta_book, book_sameBook in E; destruct E as [E1 E2] end;
      (split; [eapply sameBook_trans; [exact Eh1|]; exact E1 |]);
      (split; [cbn [pktCtn set_pktCtn] in E2; rewrite E2, Eh2, Hc; reflexivity
              | discriminate]).
Qed.

Lemma encodeStep_book {R} bSN count s stat s' c0 :
  @encodeStep R bSN count s stat = Cont s' ->
  counted c0 s ->
  sameBook (resp s) (resp s') /\ counted c0 s'.
Proof.
  unfold encodeStep. intros H Hc.
  destruct (recordArrival bSN count s stat) as [[[[t first] ts] status]| |] eqn:Ea;
    cbn [bind] in H; try discriminate.
  destruct (recordArrival_book _ _ _ _ _ _ _ _ c0 Ea Hc) as (Hb & Hp & _).
  assert (Hrun : forall (m : flow R (Responder * list Z * Z * Z * bool)) t1 l lst mx sm,
            m = Cont (t1, l, lst, mx, sm) ->
            (m = Cont (t, statusList s, lastStatus s, maxStatus s, false)
             \/ m = Cont (t, statusList s, lastStatus s, maxStatus s, same s)
             \/ exists t2, @writeRunLengthChunk R (lastStatus s)
                             (u16 (len (statusList s))) t = Cont t2
                           /\ m = Cont (t2, [], TypeTCCPacketReceivedWithoutDelta,
                                        TypeTCCPacketNotReceived, true)) ->
            sameBook (resp s) t1 /\ pktCtn t1 = (if first then u8 (c0 + 1) else c0)).
  { intros m t1 l lst mx sm Em [E|[E|(t2 & Ew & E)]]; rewrite E in Em;
      injection Em as <- _ _ _ _; auto.
    apply writeRunLengthChunk_book, book_sameBook in Ew. destruct Ew as [E1 E2].
    split; [eapply sameBook_trans; eassumption | congruence]. }
  match type of H with
  | bind ?m _ = _ => destruct m as [[[[[t1 l] lst] mx] sm]| |] eqn:Eb
  end; cbn [bind] in H; try discriminate.
  destruct (Hrun _ _ _ _ _ _ Eb) as [Hb1 Hp1].
  { clear H Hrun. destruct (same s && _ && _).
    - destruct (7 <? len (statusList s)); [|now left].
      destruct (writeRunLengthChunk _ _ t) as [t2| |] eqn:Ew; cbn [bind] in Eb;
        try discriminate.
      right. right. exists t2. split; [reflexivity|]. cbn [bind]. reflexivity.
    - right. now left. }
  clear Eb Hrun.
  destruct (negb sm && _ && _).
  - destruct (popSymbols _ _ _ _ _) as [[l2 t2]| |] eqn:Epop; cbn [bind fst snd] in H;
      try discriminate.
    destruct (writeStatusSymbolChunk _ t2) as [t3| |] eqn:Ew; cbn [bind] in H;
      try discriminate.
    destruct (fold_left rescanStep l2 _) as [[mx2 sm2] lst2].
    injection H as <-. cbn [resp firstRecv]. unfold counted. cbn [resp firstRecv].
    apply popSymbols_book, book_sameBook in Epop. destruct Epop as [P1 P2].
    apply writeStatusSymbolChunk_book, book_sameBook in Ew. destruct Ew as [W1 W2].
    split; [eapply sameBook_trans; [exact Hb1|]; eapply sameBook_trans; eassumption
           | congruence].
  - destruct (negb sm && _).
    + destruct (popSymbols _ _ _ _ _) as [[l2 t2]| |] eqn:Epop; cbn [bind fst snd] in H;
        try discriminate.
      destruct (writeStatusSymbolChunk _ t2) as [t3| |] eqn:Ew; cbn [bind] in H;
        try discriminate.
      injection H as <-. unfold counted. cbn [resp firstRecv].
      apply popSymbols_book, book_sameBook in Epop. destruct Epop as [P1 P2].
      apply writeStatusSymbolChunk_book, book_sameBook in Ew. destruct Ew as [W1 W2].
      split; [eapply sameBook_trans; [exact Hb1|]; eapply sameBook_trans; eassumption
             | congruence].
    + injection H as <-. unfold counted. cbn [resp firstRecv]. auto.
Qed.

Lemma encodeAll_book {R} bSN count pkts : forall s s' c0,
  @encodeAll R bSN count s pkts = Cont s' ->
  counted c0 s ->
  sameBook (resp s) (resp s') /\ counted c0 s'.
Proof.
  induction pkts as [|stat pkts IH]; intros s s' c0 H Hc; cbn [encodeAll] in H.
  - injection H as <-. split; [repeat split | exact Hc].
  - destruct (encodeStep bSN count s stat) as [s1| |] eqn:E; cbn [bind] in H;
      try discriminate.
    destruct (encodeStep_book _ _ _ _ _ c0 E Hc) as [B1 C1].
    destruct (IH _ _ c0 H C1) as [B2 C2].
    split; [eapply sameBook_trans; eassumption | exact C2].
Qed.

Lemma flushStatus_book {R} s t :
  @flushStatus R s = Cont t -> book t = book (resp s).
Proof.
  unfold flushStatus. intros H.
  destruct (0 <? len (statusList s)); [|now injection H as <-].
  destruct (same s).
  - now apply writeRunLengthChunk_book in H.
  - apply writeStatusSymbolChunk_book in H. rewrite H.
    apply popWhileBelowLen_book.
Qed.

Lemma gather_last_grows (l : list rtpExtInfo) : forall last acc,
  last <= fst (fold_left gatherStep l (last, acc)).
Proof.
  induction l as [|e l IH]; intros last acc; cbn [fold_left]; [cbn; lia|].
  unfold gatherStep at 2. cbn [fst snd].
  destruct (Z.ltb_spec (ExtTSN e) last); [apply IH|].
  etransitivity; [|apply IH]. cbn [fst]. lia.
Qed.

(** A [Push] that reports leaves the responder ready for the next round:
    the buffered arrivals are gone, no delta bytes are pending, the report
    time and the last sequence number are those of the call, the SSRCs are
    unchanged, the highest reported number never moves back, and the
    feedback packet count moved by at most one. *)
Theorem Push_report_resets (sn timeNS : Z) (marker : bool) (t t' : Responder)
    (pkt : list Z) :
  Push sn timeNS marker t = Ok (t', Some pkt) ->
  extInfo t' = [] /\ deltaLen t' = 0
  /\ lastReport t' = timeNS /\ lastSn t' = sn
  /\ mSSRC t' = mSSRC t /\ sSSRC t' = sSSRC t
  /\ lastExtSN t <= lastExtSN t'
  /\ (pktCtn t' = pktCtn t \/ pktCtn t' = u8 (pktCtn t + 1)).
Proof.
  unfold Push. intros H.
  set (t1 := if (sn <? 4095) && _ then set_cycles _ t else t) in H.
  set (t2 := set_extInfo _ t1) in H.
  set (t3 := if lastReport t2 =? 0 then set_lastReport timeNS t2 else t2) in H.
  set (t4 := set_lastSn sn t3) in H.
  assert (H4 : lastSn t4 = sn /\ mSSRC t4 = mSSRC t /\ sSSRC t4 = sSSRC t
               /\ lastExtSN t4 = lastExtSN t /\ pktCtn t4 = pktCtn t).
  { subst t4 t3 t2 t1. destruct ((sn <? 4095) && _), (lastReport _ =? 0); cbn; auto. }
  destruct H4 as (L4 & M4 & S4 & X4 & P4).
  destruct (_ && _ && _); [|discriminate].
  unfold buildTransportCCPacket in H.
  destruct (len (extInfo t4) =? 0); [discriminate|].
  unfold buildBody in H.
  set (g := gather (lastExtSN t4) (sortInfo (extInfo t4))) in H.
  set (t5 := set_extInfo [] (set_lastExtSN (fst g) t4)) in H.
  set (s0 := mkEncoder t5 false true 0 _ _ []) in H.
  destruct (encodeAll _ _ s0 (snd g)) as [s1|r|] eqn:Ee; cbn [bind] in H;
    [|destruct r|discriminate].
  destruct (flushStatus s1) as [t6|r|] eqn:Ef; cbn [bind] in H;
    [|destruct r|discriminate].
  destruct (assemble t6) as [pk|r|] eqn:Ea; cbn [bind] in H;
    [|destruct r|discriminate].
  injection H as <- <-.
  destruct (encodeAll_book _ _ _ _ _ (pktCtn t5) Ee eq_refl) as [B C].
  apply flushStatus_book, book_sameBook in Ef. destruct Ef as [F1 F2].
  destruct (sameBook_trans _ _ _ B F1) as (A1 & A2 & A3 & A4 & A5 & A6 & A7).
  cbn [extInfo deltaLen lastReport lastSn mSSRC sSSRC lastExtSN pktCtn
       set_lastReport set_deltaLen].
  cbn [resp s0] in A1, A2, A3, A4, A5, A6, A7.
  split; [exact A1|]. split; [reflexivity|]. split; [reflexivity|].
  split; [rewrite A5; exact L4|]. split; [rewrite A6; exact M4|].
  split; [rewrite A7; exact S4|]. split.
  - rewrite A4. cbn [lastExtSN t5 set_extInfo set_lastExtSN].
    subst g. unfold gather. rewrite <- X4. apply gather_last_grows.
  - rewrite F2. unfold counted in C. rewrite C.
    cbn [pktCtn t5 set_extInfo set_lastExtSN]. rewrite P4.
    destruct (firstRecv s1); auto.
Qed.

Lemma Push_report_resets_witness :
  exists t' pkt,
    Push 21 (startNS + 200000000) false (buffered 20 7) = Ok (t', Some pkt)
    /\ extInfo t' = [] /\ deltaLen t' = 0
    /\ lastReport t' = startNS + 200000000 /\ lastSn t' = 21
    /\ mSSRC t' = mSSRC (buffered 20 7) /\ sSSRC t' = sSSRC (buffered 20 7)
    /\ lastExtSN (buffered 20 7) <= lastExtSN t'
    /\ (pktCtn t' = pktCtn (buffered 20 7)
        \/ pktCtn t' = u8 (pktCtn (buffered 20 7) + 1)).
Proof.
  assert (E : exists t' pkt,
             Push 21 (startNS + 200000000) false (buffered 20 7) = Ok (t', Some pkt))
    by (vm_compute; eauto).
  destruct E as (t' & pkt & E). exists t', pkt. split; [exact E|].
  exact (Push_report_resets 21 (startNS + 200000000) false (buffered 20 7) t' pkt E).
Defined.

End TwccFacts.

(** ** Session registry *)

Module SfuFacts.
Import Sfu.

Lemma NewSFU_wf : wf NewSFU.
Proof. constructor; cbn; intros *; rewrite lookup_empty; discriminate. Qed.

Lemma next_unallocated s : wf s -> heap s !! next s = None.
Proof.
  intros [Hh _]. destruct (heap s !! next s) as [o|] eqn:E; [|reflexivity].
  apply Hh in E. lia.
Qed.

Lemma newSession_spec s sid :
  wf s ->
  let session := fst (newSession sid s) in
  let s1 := snd (newSession sid s) in
  session = next s
  /\ heap s !! session = None
  /\ sessions s1 = <[sid := session]> (sessions s)
  /\ heap s1 = <[session := mkSession sid (Some sid)]> (heap s)
  /\ next s1 = S (next s)
  /\ wf s1.
Proof.
  intros Hwf. pose proof (next_unallocated s Hwf) as Hfree.
  cbn -[alter insert lookup].
  assert (Hheap : alter (fun o => mkSession (id o) (Some sid)) (next s)
                    (<[next s := mkSession sid None]> (heap s))
                  = <[next s := mkSession sid (Some sid)]> (heap s))
    by (now rewrite alter_insert_eq).
  rewrite Hheap. repeat split; try assumption.
  - intros p o. cbn. destruct (decide (next s = p)) as [<-|Hne].
    + lia.
    + rewrite lookup_insert_ne by exact Hne. intros Hp.
      destruct Hwf as [Hh _]. apply Hh in Hp. lia.
  - intros sid' p. cbn. destruct (decide (sid = sid')) as [<-|Hne].
    + rewrite lookup_insert_eq. intros [= <-]. now rewrite lookup_insert_eq.
    + rewrite lookup_insert_ne by exact Hne. intros Hp.
      destruct Hwf as [Hh Hs]. pose proof (Hs _ _ Hp) as Hq.
      rewrite lookup_insert_ne; [exact Hq|].
      intros <-. rewrite Hfree in Hq. discriminate.
Qed.

Lemma Close_registered s sid p :
  wf s -> sessions s !! sid = Some p ->
  Close p s = mkSFU (delete sid (sessions s)) (heap s) (next s).
Proof.
  intros [_ Hs] Hp. unfold Close. now rewrite (Hs _ _ Hp).
Qed.

Lemma Close_wf s sid p :
  wf s -> sessions s !! sid = Some p -> wf (Close p s).
Proof.
  intros Hwf Hp. rewrite (Close_registered s sid p Hwf Hp).
  destruct Hwf as [Hh Hs]. constructor; cbn.
  - exact Hh.
  - intros sid' q Hq. apply lookup_delete_Some in Hq as [_ Hq]. now apply Hs.
Qed.

(** C9. [GetSession(sid)] returns the session registered under [sid] when
    there is one, leaving the SFU as it was, and otherwise allocates a new
    session, registers it under [sid] and returns it. Closing the session
    returned takes [sid] out of the registry and touches no other id; the
    next [GetSession(sid)] then allocates a session that did not exist
    before, different from the closed one, and registers it. *)
Theorem GetSession_registry (s : SFU) (sid : string) :
  wf s ->
  let session := fst (GetSession sid s) in
  let s1 := snd (GetSession sid s) in
  let s2 := Close session s1 in
  let fresh := fst (GetSession sid s2) in
  let s3 := snd (GetSession sid s2) in
  (match sessions s !! sid with
   | Some registered => session = registered /\ s1 = s
   | None => heap s !! session = None
             /\ sessions s1 = <[sid := session]> (sessions s)
   end)
  /\ sessions s1 !! sid = Some session
  /\ sessions s2 !! sid = None
  /\ (forall other, other <> sid -> sessions s2 !! other = sessions s1 !! other)
  /\ fresh <> session
  /\ heap s2 !! fresh = None
  /\ sessions s3 !! sid = Some fresh.
Proof.
  intros Hwf session s1 s2 fresh s3.
  assert (H1 : wf s1 /\ sessions s1 !! sid = Some session
               /\ match sessions s !! sid with
                  | Some registered => session = registered /\ s1 = s
                  | None => heap s !! session = None
                            /\ sessions s1 = <[sid := session]> (sessions s)
                  end).
  { subst session s1. unfold GetSession, getSession.
    destruct (sessions s !! sid) as [p|] eqn:E; cbn [fst snd].
    - auto.
    - destruct (newSession_spec s sid Hwf) as (_ & Hf & Hs & _ & _ & Hwf1).
      split; [exact Hwf1|]. split; [|auto].
      rewrite Hs. apply lookup_insert_eq. }
  destruct H1 as (Hwf1 & Hreg & Hcase).
  assert (Hs2 : s2 = mkSFU (delete sid (sessions s1)) (heap s1) (next s1))
    by (apply Close_registered; assumption).
  assert (Hwf2 : wf s2) by (eapply Close_wf; eassumption).
  assert (Hgone : sessions s2 !! sid = None)
    by (rewrite Hs2; apply lookup_delete_eq).
  assert (H3 : fresh = next s2 /\ heap s2 !! fresh = None
               /\ sessions s3 !! sid = Some fresh).
  { subst fresh s3. unfold GetSession, getSession. rewrite Hgone.
    destruct (newSession_spec s2 sid Hwf2) as (Hn & Hf & Hs & _).
    split; [exact Hn|]. split; [exact Hf|].
    rewrite Hs. apply lookup_insert_eq. }
  destruct H3 as (Hfresh & Hunalloc & Hreg3).
  split; [exact Hcase|]. split; [exact Hreg|]. split; [exact Hgone|].
  split; [|split; [|split; assumption]].
  - intros other Hne. rewrite Hs2. cbn. apply lookup_delete_ne. congruence.
  - intros Heq. destruct Hwf1 as [Hh Hs].
    pose proof (Hs _ _ Hreg) as Halloc. apply Hh in Halloc.
    rewrite Hfresh, Hs2 in Heq. cbn in Heq. lia.
Qed.

Lemma GetSession_registry_witness :
  sessions (snd (GetSession "room" NewSFU)) !! "room"
  = Some (fst (GetSession "room" NewSFU)).
Proof.
  assert (Hwf : wf NewSFU).
  { constructor; simpl; intros *; rewrite lookup_empty; discriminate. }
  exact (proj1 (proj2 (GetSession_registry NewSFU "room" Hwf))).
Defined.

Lemma GetSession_wf (sid : string) (s : SFU) : wf s -> wf (snd (GetSession sid s)).
Proof.
  intros Hwf. unfold GetSession, getSession.
  destruct (sessions s !! sid); [exact Hwf|].
  now destruct (newSession_spec s sid Hwf) as (_ & _ & _ & _ & _ & H).
Qed.

Lemma Close_any_wf (p : ptr) (s : SFU) : wf s -> wf (Close p s).
Proof.
  intros Hwf. unfold Close.
  destruct (heap s !! p) as [o|]; [|exact Hwf].
  destruct (onCloseHandler o) as [sid|]; [|exact Hwf].
  destruct Hwf as [Hh Hs]. constructor; cbn; [exact Hh|].
  intros sid' q Hq. apply lookup_delete_Some in Hq as [_ Hq]. now apply Hs.
Qed.

Lemma execAll_wf (ops : list op) : forall s, wf s -> wf (execAll ops s).
Proof.
  induction ops as [|o ops IH]; intros s Hwf; [exact Hwf|].
  cbn [execAll fold_left]. apply IH.
  destruct o; cbn [exec]; [now apply GetSession_wf | now apply Close_any_wf].
Qed.

Lemma wf_injective (s : SFU) (a b : string) (p : ptr) :
  wf s -> sessions s !! a = Some p -> sessions s !! b = Some p -> a = b.
Proof.
  intros [_ Hs] Ha Hb. pose proof (Hs _ _ Ha) as H1. pose proof (Hs _ _ Hb) as H2.
  rewrite H1 in H2. now injection H2.
Qed.

(** Whatever sessions are asked for and closed, in whatever order, the
    registry never holds one session under two ids, every registered session
    was made for the id it is registered under, and [GetSessions] lists every
    registered session exactly once. *)
Theorem registry_holds_each_session_once (ops : list op) :
  let s := execAll ops NewSFU in
  (forall a b p, sessions s !! a = Some p -> sessions s !! b = Some p -> a = b)
  /\ (forall sid p, sessions s !! sid = Some p ->
      exists o, heap s !! p = Some o /\ id o = sid)
  /\ List.NoDup (GetSessions s)
  /\ length (GetSessions s) = size (sessions s)
  /\ (forall p, In p (GetSessions s) <-> exists sid, sessions s !! sid = Some p).
Proof.
  cbv zeta. pose proof (execAll_wf ops NewSFU NewSFU_wf) as Hwf.
  set (s := execAll ops NewSFU) in *.
  split; [intros a b p; now apply wf_injective|].
  split; [intros sid p Hp; eexists; split; [apply (wf_sessions s Hwf), Hp | reflexivity]|].
  assert (Hin : forall p, In p (GetSessions s) <-> exists sid, sessions s !! sid = Some p).
  { intros p. unfold GetSessions. rewrite in_map_iff. split.
    - intros ([sid q] & <- & Hq). exists sid.
      apply list_elem_of_In in Hq. now apply elem_of_map_to_list in Hq.
    - intros (sid & Hp). exists (sid, p). split; [reflexivity|].
      apply list_elem_of_In. now apply elem_of_map_to_list. }
  split; [|split; [|exact Hin]].
  - unfold GetSessions. apply NoDup_ListNoDup.
    apply (NoDup_fmap_2_strong snd).
    + intros [a p] [b q] Ha Hb Heq. cbn in Heq. subst q.
      apply elem_of_map_to_list in Ha, Hb.
      now rewrite (wf_injective s a b p Hwf Ha Hb).
    + apply NoDup_map_to_list.
  - unfold GetSessions. rewrite length_map. apply length_map_to_list.
Qed.

End SfuFacts.

(** ** H.264 key-frame detection *)

Module H264Facts.
Import H264.

Lemma bytes_nth (s : list Z) (i : nat) : bytes s -> 0 <= nth i s 0 < 256.
Proof.
  intros Hb. destruct (Nat.lt_ge_cases i (length s)) as [Hi|Hi].
  - unfold bytes in Hb. rewrite List.Forall_forall in Hb. apply Hb, nth_In, Hi.
  - rewrite nth_overflow by lia. lia.
Qed.

Lemma unit_length (hi lo : Z) :
  0 <= hi < 256 -> 0 <= lo < 256 ->
  Z.lor (u16 (Z.shiftl hi 8)) lo = hi * 256 + lo.
Proof.
  intros Hh Hl.
  assert (E : u16 (Z.shiftl hi 8) = Z.shiftl hi 8).
  { apply Z.mod_small. rewrite Z.shiftl_mul_pow2 by lia.
    change (2 ^ 8) with 256. change (2 ^ 16) with 65536. lia. }
  rewrite E. apply (TwccFacts.lor_disjoint hi lo 8); [lia|].
  change (2 ^ 8) with 256. lia.
Qed.

(** The loop returns, with turns to spare, from every position. *)
Lemma scanUnits_returns (nalu : Z) (payload : list Z) :
  bytes payload ->
  forall turns i, 0 <= i -> (Z.to_nat (len payload - i) < turns)%nat ->
  exists b, run (scanUnits turns nalu payload i) = Ok b.
Proof.
  intros Hb. induction turns as [|turns IH]; intros i Hi Ht; [lia|].
  cbn [scanUnits].
  destruct (Z.ltb_spec i (len payload)) as [Hlt|Hge]; [|cbn; eauto].
  destruct (Z.ltb_spec (len payload) (i + 2)) as [H2|H2]; [cbn; eauto|].
  rewrite !Vp8Facts.index_at by lia. cbn [bind].
  pose proof (bytes_nth payload (Z.to_nat i) Hb) as Hhi.
  pose proof (bytes_nth payload (Z.to_nat (i + 1)) Hb) as Hlo.
  rewrite unit_length by assumption.
  set (length := nth (Z.to_nat i) payload 0 * 256 + nth (Z.to_nat (i + 1)) payload 0).
  assert (Hlen : 0 <= length) by (subst length; lia).
  destruct (Z.ltb_spec (len payload) (i + 2 + length)) as [H3|H3]; [cbn; eauto|].
  set (offset := if nalu =? 26 then 3 else if nalu =? 27 then 4 else 0).
  assert (Hoff : 0 <= offset)
    by (subst offset; destruct (nalu =? 26), (nalu =? 27); lia).
  destruct (Z.leb_spec length offset) as [H4|H4]; [cbn; eauto|].
  rewrite Vp8Facts.index_at by lia. cbn [bind].
  destruct (_ =? 7); [cbn; eauto|].
  apply IH; lia.
Qed.

(** [isH264Keyframe] returns on every byte slice: no index it reads is out
    of range, and the loop over the units of an aggregation packet ends. *)
Theorem isH264Keyframe_total (payload : list Z) :
  bytes payload -> exists b, isH264Keyframe payload = Ok b.
Proof.
  intros Hb. unfold isH264Keyframe.
  destruct (Z.ltb_spec (len payload) 1) as [H1|H1]; [cbn; eauto|].
  rewrite Vp8Facts.index_at by lia. cbn [bind].
  set (nalu := Z.land _ 31).
  destruct (nalu =? 0); [cbn; eauto|].
  destruct (nalu <=? 23); [cbn; eauto|].
  destruct ((nalu =? 24) || (nalu =? 25) || (nalu =? 26) || (nalu =? 27)).
  - apply scanUnits_returns; [exact Hb | | ].
    + destruct ((nalu =? 25) || (nalu =? 26) || (nalu =? 27)); lia.
    + destruct ((nalu =? 25) || (nalu =? 26) || (nalu =? 27)); unfold len in *; lia.
  - destruct ((nalu =? 28) || (nalu =? 29)); [|cbn; eauto].
    destruct (Z.ltb_spec (len payload) 2) as [H2|H2]; [cbn; eauto|].
    rewrite Vp8Facts.index_at by lia. cbn [bind].
    destruct (_ =? 0); cbn; eauto.
Qed.

Lemma isH264Keyframe_total_witness :
  exists b, isH264Keyframe [24; 0; 2; 7; 1] = Ok b.
Proof.
  apply (isH264Keyframe_total [24; 0; 2; 7; 1]).
  repeat constructor; cbn; lia.
Defined.

Lemma scanUnits_stapA (units : list (list Z)) : forall (pre : list Z) (turns : nat),
  Forall (fun u => 1 <= len u < 2 ^ 16) units ->
  let payload :=
    pre ++ concat (map (fun u => [len u / 256; len u mod 256] ++ u) units) in
  (Z.to_nat (len payload - len pre) < turns)%nat ->
  run (scanUnits turns 24 payload (len pre))
  = Ok (existsb (fun u => unitType u =? 7) units).
Proof.
  induction units as [|u us IH]; intros pre turns Hall; cbv zeta; intros Ht.
  - cbn [map concat]. rewrite app_nil_r in *.
    destruct turns as [|turns]; [lia|]. cbn [scanUnits].
    now rewrite Z.ltb_irrefl.
  - inversion Hall as [|? ? Hu Hus]; subst.
    change (2 ^ 16) with 65536 in Hu.
    cbn [map concat] in *. rewrite <- !app_assoc in *. cbn [app] in *.
    set (rest := concat (map (fun u => len u / 256 :: len u mod 256 :: u) us)) in *.
    set (payload := pre ++ len u / 256 :: len u mod 256 :: u ++ rest) in *.
    assert (Hlen : len payload = len pre + 2 + len u + len rest).
    { subst payload. unfold len. rewrite length_app. cbn [length].
      rewrite length_app. lia. }
    assert (Hp0 : 0 <= len pre) by (unfold len; lia).
    assert (Hr0 : 0 <= len rest) by (unfold len; lia).
    destruct turns as [|turns]; [lia|]. cbn [scanUnits].
    replace (len pre <? len payload) with true by (symmetry; apply Z.ltb_lt; lia).
    replace (len payload <? len pre + 2) with false
      by (symmetry; apply Z.ltb_ge; lia).
    rewrite !Vp8Facts.index_at by lia. cbn [bind].
    assert (N0 : nth (Z.to_nat (len pre)) payload 0 = len u / 256).
    { subst payload. unfold len. rewrite Nat2Z.id, app_nth2, Nat.sub_diag by lia.
      reflexivity. }
    assert (N1 : nth (Z.to_nat (len pre + 1)) payload 0 = len u mod 256).
    { subst payload. unfold len.
      replace (Z.to_nat (Z.of_nat (length pre) + 1)) with (length pre + 1)%nat by lia.
      rewrite app_nth2_plus. reflexivity. }
    rewrite N0, N1.
    assert (Hhi : 0 <= len u / 256 < 256)
      by (split; [apply Z.div_pos; lia | apply Z.div_lt_upper_bound; lia]).
    assert (Hlo : 0 <= len u mod 256 < 256) by (apply Z.mod_pos_bound; lia).
    rewrite (unit_length _ _ Hhi Hlo).
    replace (len u / 256 * 256 + len u mod 256) with (len u)
      by (pose proof (Z.div_mod (len u) 256); lia).
    replace (len payload <? len pre + 2 + len u) with false
      by (symmetry; apply Z.ltb_ge; lia).
    cbn [Z.eqb Pos.eqb].
    replace (len u <=? 0) with false by (symmetry; apply Z.leb_gt; lia).
    rewrite Vp8Facts.index_at by lia. cbn [bind].
    assert (N2 : nth (Z.to_nat (len pre + 2 + 0)) payload 0 = nth 0 u 0).
    { subst payload. unfold len.
      replace (Z.to_nat (Z.of_nat (length pre) + 2 + 0)) with (length pre + 2)%nat by lia.
      rewrite app_nth2_plus. cbn [nth]. apply app_nth1. unfold len in Hu. lia. }
    rewrite N2. fold (unitType u). cbn [existsb].
    destruct (unitType u =? 7); [reflexivity|]. cbn [orb].
    specialize (IH (pre ++ len u / 256 :: len u mod 256 :: u) turns Hus).
    cbv zeta in IH. rewrite <- !app_assoc in IH. cbn [app] in IH.
    fold rest in IH. fold payload in IH.
    replace (len pre + 2 + len u) with (len (pre ++ len u / 256 :: len u mod 256 :: u))
      by (unfold len; rewrite length_app; cbn [length]; lia).
    apply IH.
    replace (len (pre ++ len u / 256 :: len u mod 256 :: u)) with (len pre + 2 + len u)
      by (unfold len; rewrite length_app; cbn [length]; lia).
    lia.
Qed.

(** A STAP-A packet whose units are one byte or more long is a keyframe
    exactly when one of its units is a sequence parameter set (type 7). *)
Theorem isH264Keyframe_stapA (header : Z) (units : list (list Z)) :
  Z.land header 0x1F = 24 ->
  Forall (fun u => 1 <= len u < 2 ^ 16) units ->
  isH264Keyframe (stapA header units)
  = Ok (existsb (fun u => unitType u =? 7) units).
Proof.
  intros Hh Hall. unfold isH264Keyframe, stapA.
  set (body := concat _).
  assert (Hl : len (header :: body) = 1 + len body)
    by (unfold len; cbn [length]; lia).
  assert (Hb0 : 0 <= len body) by (unfold len; lia).
  replace (len (header :: body) <? 1) with false by (symmetry; apply Z.ltb_ge; lia).
  rewrite Vp8Facts.index_at by lia. change (nth (Z.to_nat 0) (header :: body) 0) with header.
  cbn [bind]. rewrite Hh.
  cbn [Z.eqb Z.leb Z.compare Pos.compare Pos.compare_cont Pos.eqb orb].
  subst body.
  apply (scanUnits_stapA units [header] (S (length (header :: _))) Hall).
  cbn [app]. unfold len. cbn [length]. lia.
Qed.

Lemma isH264Keyframe_stapA_witness :
  isH264Keyframe (stapA 24 [[9; 16]; [103; 66; 0]])
  = Ok (existsb (fun u => unitType u =? 7) [[9; 16]; [103; 66; 0]]).
Proof.
  apply (isH264Keyframe_stapA 24 [[9; 16]; [103; 66; 0]]).
  - reflexivity.
  - repeat constructor; vm_compute; discriminate.
Defined.

End H264Facts.

(** ** RTCP readers and the buffer factory *)

Module RtcpFacts.
Import Rtcp.

Lemma NewBufferFactory_wf : wf NewBufferFactory.
Proof. constructor; cbn; intros *; rewrite lookup_empty; discriminate. Qed.








Lemma exec_closed (o : op) (r : ptr) (f f' : Factory) :
  allocated f -> exec o f = Ok f' -> isClosed r f ->
  allocated f' /\ isClosed r f'
  /\ deliveries r (trace f') = deliveries r (trace f).
Proof.
  intros Ha Hex (ro & Hr & Hc).
  assert (Hkeep : forall w v,
            (w = r -> closed v = true) -> (w < next f)%nat ->
            allocated (mkFactory (rtcpReaders f) (<[w := v]> (store f)) (next f) (trace f))
            /\ isClosed r (mkFactory (rtcpReaders f) (<[w := v]> (store f)) (next f) (trace f))).
  { intros w v Hv Hw. split.
    - intros p o'. cbn. destruct (decide (w = p)) as [<-|Hne]; [auto|].
      rewrite lookup_insert_ne by exact Hne. apply Ha.
    - destruct (decide (w = r)) as [->|Hne].
      + exists v. cbn. rewrite lookup_insert_eq. auto.
      + exists ro. cbn. rewrite lookup_insert_ne by exact Hne. auto. }
  destruct o as [sc|w p|w tag|w fn|w]; cbn [exec] in Hex.
  - unfold GetOrNew, OnClose, NewRTCPReader in Hex.
    destruct (rtcpReaders f !! sc);
      [injection Hex as <-; split; [exact Ha|]; split; [now exists ro | reflexivity]|].
    cbn [fst snd store rtcpReaders next trace] in Hex.
    rewrite lookup_insert_eq in Hex. injection Hex as <-. cbn [trace].
    rewrite insert_insert_eq.
    assert (Hne : next f <> r) by (pose proof (Ha _ _ Hr); lia).
    split; [|split; [|reflexivity]].
    + intros p o'. cbn. destruct (decide (next f = p)) as [<-|Hn]; [lia|].
      rewrite lookup_insert_ne by exact Hn. intros Hp. apply Ha in Hp. lia.
    + exists ro. cbn. rewrite lookup_insert_ne by exact Hne. auto.
  - unfold Write in Hex. destruct (store f !! w) as [wo|] eqn:Ew; [|discriminate].
    destruct (closed wo) eqn:Ec;
      [injection Hex as <-; split; [exact Ha|]; split; [now exists ro | reflexivity]|].
    destruct (onPacket wo);
      injection Hex as <-; (split; [exact Ha|]); (split; [now exists ro|]);
      [|reflexivity].
    cbn [trace deliveries flat_map].
    destruct (Nat.eqb_spec w r) as [->|Hne]; [|reflexivity].
    rewrite Hr in Ew. injection Ew as <-. congruence.
  - unfold OnPacket in Hex. destruct (store f !! w) as [wo|] eqn:Ew; [|discriminate].
    injection Hex as <-. cbn [trace].
    match goal with
    | |- allocated (mkFactory _ (<[_ := ?v]> _) _ _) /\ _ =>
        destruct (Hkeep w v) as [H1 H2];
          [intros ->; rewrite Hr in Ew; injection Ew as <-; exact Hc
          | now apply (Ha w wo) |]
    end.
    split; [exact H1|]. split; [exact H2 | reflexivity].
  - unfold OnClose in Hex. destruct (store f !! w) as [wo|] eqn:Ew; [|discriminate].
    injection Hex as <-. cbn [trace].
    match goal with
    | |- allocated (mkFactory _ (<[_ := ?v]> _) _ _) /\ _ =>
        destruct (Hkeep w v) as [H1 H2];
          [intros ->; rewrite Hr in Ew; injection Ew as <-; exact Hc
          | now apply (Ha w wo) |]
    end.
    split; [exact H1|]. split; [exact H2 | reflexivity].
  - unfold Close in Hex. destruct (store f !! w) as [wo|] eqn:Ew; [|discriminate].
    destruct (onClose wo) as [[sc|tag]|]; [| |discriminate]; injection Hex as <-.
    + destruct (Hkeep w (mkReader (ssrc wo) true (onPacket wo) (Some (Unregister sc))))
        as [H1 H2]; [reflexivity | now apply (Ha w wo) |].
      split; [exact H1|]. split; [exact H2 | reflexivity].
    + destruct (Hkeep w (mkReader (ssrc wo) true (onPacket wo) (Some (Custom tag))))
        as [H1 H2]; [reflexivity | now apply (Ha w wo) |].
      split; [exact H1|]. split; [exact H2 | reflexivity].
Qed.

(** A reader that was closed stays closed whatever is called next on the
    factory or on any reader, and none of its later writes is handed to an
    [onPacket] function. *)
Theorem closed_reader_stays_closed (ops : list op) (r : ptr) : forall (f f' : Factory),
  allocated f -> isClosed r f -> execAll ops f = Ok f' ->
  isClosed r f' /\ deliveries r (trace f') = deliveries r (trace f).
Proof.
  induction ops as [|o ops IH]; intros f f' Ha Hc Hex; cbn [execAll] in Hex.
  - injection Hex as <-. auto.
  - destruct (exec o f) as [f1|] eqn:E; [|discriminate].
    destruct (exec_closed o r f f1 Ha E Hc) as (Ha1 & Hc1 & Hd1).
    destruct (IH f1 f' Ha1 Hc1 Hex) as [Hc' Hd']. split; [exact Hc'|].
    now rewrite Hd', Hd1.
Qed.

Lemma closed_reader_stays_closed_witness :
  let f := mkFactory ∅ {[ 0%nat := mkReader 7 true (Some 1%nat) (Some (Custom 2%nat)) ]}
             1%nat [] in
  let f' := mkFactory ∅ {[ 0%nat := mkReader 7 true (Some 3%nat) (Some (Custom 2%nat)) ]}
              1%nat [] in
  isClosed 0%nat f' /\ deliveries 0%nat (trace f') = deliveries 0%nat (trace f).
Proof.
  apply (closed_reader_stays_closed [OpOnPacket 0%nat 3%nat; OpWrite 0%nat [1; 2]] 0%nat).
  - intros p o Hp. simpl in Hp. apply lookup_singleton_Some in Hp as [<- _].
    simpl. lia.
  - eexists. split; [apply lookup_singleton_eq | reflexivity].
  - vm_compute. reflexivity.
Defined.

(** [Close] calls [r.onClose] without looking at it: on a reader that
    [OnClose] was never called on, the call of the nil function panics.  A
    reader made by [NewRTCPReader] therefore cannot be closed before a
    handler is set; the readers of [GetOrNew] always have one. *)
Theorem Close_without_handler_panics (sc : Z) (f : Factory) :
  let r := fst (NewRTCPReader sc f) in
  let f1 := snd (NewRTCPReader sc f) in
  Close r f1 = Panic
  /\ forall fn, exists f2 f3, OnClose r fn f1 = Ok f2 /\ Close r f2 = Ok f3.
Proof.
  cbv zeta. unfold NewRTCPReader, Close, OnClose.
  cbn [fst snd store]. rewrite lookup_insert_eq. cbn [onClose].
  split; [reflexivity|].
  intros fn; destruct fn; eexists _, _; (split; [reflexivity|]);
    cbn [store]; rewrite lookup_insert_eq; reflexivity.
Qed.

End RtcpFacts.
